(** * Mergers and multiplexer of the stream toolkit

    A shallow embedding of [merger.go] (activeMerger, channeledLazyMerger)
    and of the multiplexer, with the properties of their close, attach,
    detach and read paths.

    Every method is a function from the state of the receiver to an
    [outcome].  Mutexes are modelled as booleans so that re-entrant
    locking shows up as a result of its own, channels carry their
    capacity so that a send with no room waits, and unbounded loops take
    a fuel argument.  A call that waits is a result of its own as well;
    where a task started by [go] runs beside a reader, what the reader
    does between the steps of the task is written out. *)

From Stdlib Require Import ZArith Lia.
From stdpp Require Import base list strings.

Local Open Scope Z_scope.

(* ===================================================================== *)
(** ** Go primitives *)
(* ===================================================================== *)

Module Go.

(** [int] on a 64-bit platform. *)
Definition max_int : Z := 2 ^ 63 - 1.
Definition wrap_int (z : Z) : Z := (z + 2 ^ 63) mod 2 ^ 64 - 2 ^ 63.

(** [a + b] and [a % b] on [int]; [%] truncates towards zero. *)
Definition add (a b : Z) : Z := wrap_int (a + b).
Definition rem (a b : Z) : Z := Z.rem a b.

(** Ways in which a call does not return normally. *)
Inductive fault :=
| IndexOutOfRange
| UnlockOfUnlockedMutex
| NegativeLen
| SendOnClosedChannel
| ExplicitPanic.

(** Result of running a method on a state [S]. *)
Inductive outcome (S A : Type) :=
| Done (a : A) (s : S)        (* returned [a], state is now [s] *)
| Panics (f : fault) (s : S)  (* panicked in state [s] *)
| Blocks (s : S)              (* waits in state [s], on a mutex or a channel *)
| OutOfFuel.
Arguments Done {S A} a s.
Arguments Panics {S A} f s.
Arguments Blocks {S A} s.
Arguments OutOfFuel {S A}.

Definition M (S A : Type) : Type := S -> outcome S A.

Definition ret {S A} (a : A) : M S A := fun s => Done a s.

Definition bind {S A B} (m : M S A) (k : A -> M S B) : M S B :=
  fun s =>
    match m s with
    | Done a s' => k a s'
    | Panics f s' => Panics f s'
    | Blocks s' => Blocks s'
    | OutOfFuel => OutOfFuel
    end.

Definition get {S} : M S S := fun s => Done s s.
Definition modify {S} (f : S -> S) : M S unit := fun s => Done tt (f s).
Definition panic {S A} (f : fault) : M S A := fun s => Panics f s.
Definition block {S A} : M S A := fun s => Blocks s.

(** *** Slices

    A slice is a window [arr[0:slen]] on a backing array.  The array is
    shared by every copy of the slice header, so an in-place [append]
    is visible through a header copied earlier.  The capacity is the
    length of [arr]; spare slots never written are left out. *)
Record slice (A : Type) := MkSlice { arr : list A; slen : nat }.
Arguments MkSlice {A} arr slen.
Arguments arr {A} s.
Arguments slen {A} s.

Section Slices.
Context {A : Type}.

(** [make([]A, 0)] *)
Definition make0 : slice A := MkSlice [] 0.

(** The elements the slice denotes. *)
Definition view (s : slice A) : list A := take (slen s) (arr s).

(** [len(s)] *)
Definition len (s : slice A) : Z := Z.of_nat (slen s).

(** [s[i]], with the bounds check. *)
Definition index (s : slice A) (i : Z) : option A :=
  if bool_decide (0 <= i < len s) then arr s !! Z.to_nat i else None.

(** [s[:i]]: same array, shorter window. *)
Definition upto (s : slice A) (i : nat) : slice A := MkSlice (arr s) i.

(** The elements of [s[i:]]. *)
Definition from (s : slice A) (i : nat) : list A := drop i (view s).

(** [append(s, xs...)]: in place when the capacity suffices, on a new
    array otherwise. *)
Definition append (s : slice A) (xs : list A) : slice A :=
  if bool_decide (slen s + length xs <= length (arr s))%nat
  then MkSlice (take (slen s) (arr s) ++ xs
                  ++ drop (slen s + length xs) (arr s))
               (slen s + length xs)
  else MkSlice (view s ++ xs) (slen s + length xs).

(** [append(s[:i], s[i+1:]...)], the deletion idiom of [unsetSource]. *)
Definition delete_at (s : slice A) (i : nat) : slice A :=
  append (upto s i) (from s (S i)).

(** Position of the first element for which [p] holds: the
    [for i, x := range s { if p(x) { ...; break } }] search. *)
Fixpoint find_from (p : A -> bool) (l : list A) (i : nat) : option nat :=
  match l with
  | [] => None
  | x :: l' => if p x then Some i else find_from p l' (S i)
  end.
Definition find_first (p : A -> bool) (s : slice A) : option nat :=
  find_from p (view s) 0.
End Slices.

(** *** Channels

    [chcap] is the capacity the channel was made with; [buf] holds the
    values a receive can take now, oldest first. *)
Record chan (T : Type) := MkChan {
  chcap : Z;
  buf : list T;
  chclosed : bool;
}.
Arguments MkChan {T} chcap buf chclosed.
Arguments chcap {T} c.
Arguments buf {T} c.
Arguments chclosed {T} c.

Inductive recv (T : Type) :=
| RecvValue (v : T) (c' : chan T)  (* [v, true]; the channel afterwards *)
| RecvClosed                       (* [zero, false]: closed and drained *)
| RecvNotReady.                    (* open and empty: the receive waits *)
Arguments RecvValue {T} v c'.
Arguments RecvClosed {T}.
Arguments RecvNotReady {T}.

Definition receive {T} (c : chan T) : recv T :=
  match buf c with
  | v :: rest => RecvValue v (MkChan (chcap c) rest (chclosed c))
  | [] => if chclosed c then RecvClosed else RecvNotReady
  end.

(** [make(chan T, capacity)] *)
Definition make_chan {T} (capacity : Z) : chan T := MkChan capacity [] false.

(** [c <- v] on a channel with a buffer.  A send on a closed channel
    panics.  With room in the buffer the value is queued.  With the
    buffer full the sender waits and keeps its value until a receive
    has made room.  A channel of capacity 0 never has room: its sender
    waits for a receiver to take the value from it. *)
Definition has_room {T} (c : chan T) : bool :=
  bool_decide (Z.of_nat (length (buf c)) < chcap c).
Definition queued {T} (v : T) (c : chan T) : chan T :=
  MkChan (chcap c) (buf c ++ [v]) false.
Definition send {T} (v : T) : M (chan T) unit :=
  fun c =>
    if chclosed c then Panics SendOnClosedChannel c
    else if has_room c then Done tt (queued v c)
    else Blocks c.

(** A nil channel: never ready, never closed. *)
Definition nil_chan {T} : chan T := MkChan 0 [] false.

(** [sync.Mutex] held by the running task or free. *)
Definition lock {S} (held : S -> bool) (set : bool -> S -> S) : M S unit :=
  fun s => if held s then Blocks s else Done tt (set true s).
Definition unlock {S} (held : S -> bool) (set : bool -> S -> S) : M S unit :=
  fun s => if held s then Done tt (set false s)
           else Panics UnlockOfUnlockedMutex s.

End Go.

Export Go.

Declare Scope go_scope.
Delimit Scope go_scope with go.
Notation "'let*' x := m 'in' k" := (bind m (fun x => k))
  (at level 10, x name, m at level 100, k at level 200) : go_scope.
Notation "m >> k" := (bind m (fun _ => k))
  (at level 90, right associativity) : go_scope.

Local Open Scope go_scope.

(** [defer d] placed before [body]: [d] runs when [body] returns and when
    it panics; a panic of [d] replaces the pending one. *)
Definition defer {St A} (d : M St unit) (body : M St A) : M St A :=
  fun s =>
    match body s with
    | Done a s' =>
        match d s' with
        | Done _ s'' => Done a s''
        | Panics f s'' => Panics f s''
        | Blocks s'' => Blocks s''
        | OutOfFuel => OutOfFuel
        end
    | Panics f s' =>
        match d s' with
        | Done _ s'' => Panics f s''
        | Panics f' s'' => Panics f' s''
        | Blocks s'' => Blocks s''
        | OutOfFuel => OutOfFuel
        end
    | Blocks s' => Blocks s'
    | OutOfFuel => OutOfFuel
    end.

(** [for i := range hdr { body i }] over the [n] positions that remain
    from [i] on; the length was fixed when the loop was entered. *)
Fixpoint range_loop {St} (body : nat -> M St unit) (i n : nat) : M St unit :=
  match n with
  | O => ret tt
  | S n' => body i >> range_loop body (S i) n'
  end.

(* ===================================================================== *)
(** ** Shared stream types *)
(* ===================================================================== *)

Module Stream.

(** A [Producer[T]] interface value.  Two interface values are [==] when
    they hold the same pointer, so a producer is its address; the
    constructor tells whether the dynamic type also implements
    [ChanneledProducer[T]] (the type assertion of [SetSource]). *)
Inductive Producer :=
| Channeled (r : nat)   (* has [Channel()]; its channel lives at [r] *)
| Plain (p : nat).      (* only [Get()] *)

#[export] Instance Producer_eq_dec : EqDecision Producer.
Proof. solve_decision. Defined.

(** [error]: nil or [errors.New(msg)]. *)
Definition error := option string.

Definition errClosed : error := Some "the stream is already closed"%string.
Definition errNoSources : error :=
  Some "no sources attached yet or all sources were unset and autoclose is not active"%string.

(** Modelled from the spec: [DefaultClosable.Close], the default closed
    bookkeeping of the shared base type (not in the sources).  It sets the
    closed flag; setting it again changes nothing. *)
Definition DefaultClosable_Close (closed : bool) : bool := true.

(** Modelled from the spec: [NewChanneledInput], the constructor of the
    bounded buffer primitive (not in the sources): an open, empty FIFO of
    the given fixed capacity.  The spec gives no meaning to a negative
    capacity; the facts below are stated for [0 <= capacity]. *)
Definition NewChanneledInput {T} (capacity : Z) : chan T :=
  make_chan capacity.

(** Modelled from the spec: [ChanneledInput.Closed] (not in the sources),
    the state of the buffer's channel. *)
Definition ChanneledInput_Closed {T} (c : chan T) : bool := chclosed c.

(** Modelled from the spec: [ChanneledInput.Close] (not in the sources).
    It closes the buffer and keeps what is buffered; closing is
    idempotent. *)
Definition ChanneledInput_Close {T} (c : chan T) : chan T :=
  MkChan (chcap c) (buf c) true.

(** Modelled from the spec: [ChanneledInput.Write] (not in the sources).
    It appends the value; a write into a closed buffer faults, and a
    write to a buffer that is at capacity waits until a read has made
    room. *)
Definition ChanneledInput_Write {T} (v : T) : M (chan T) unit := send v.

End Stream.

Export Stream.

(* ===================================================================== *)
(** ** activeMerger *)
(* ===================================================================== *)

Module ActiveMerger.
Section WithT.
Context {T : Type}.
(** [*new(T)] *)
Context (zero : T).

Record activeMerger := MkActive {
  closed : bool;            (* DefaultClosable *)
  sources : slice nat;      (* []ChanneledProducer[T], by address *)
  autoclose : bool;
  sourcesLock : bool;
  nextToReadFrom : Z;
}.

(** The merger together with what it points to: the channels of the
    channeled producers, and the forwarding tasks started by [go]
    (producer polled, channel written to). *)
Record world := MkWorld {
  heap : list (chan T);
  tasks : list (nat * nat);
  ego : activeMerger;
}.

Definition set_closed (b : bool) (w : world) : world :=
  let e := ego w in
  MkWorld (heap w) (tasks w)
    (MkActive b (sources e) (autoclose e) (sourcesLock e) (nextToReadFrom e)).
Definition set_sources (s : slice nat) (w : world) : world :=
  let e := ego w in
  MkWorld (heap w) (tasks w)
    (MkActive (closed e) s (autoclose e) (sourcesLock e) (nextToReadFrom e)).
Definition set_sourcesLock (b : bool) (w : world) : world :=
  let e := ego w in
  MkWorld (heap w) (tasks w)
    (MkActive (closed e) (sources e) (autoclose e) b (nextToReadFrom e)).
Definition set_nextToReadFrom (z : Z) (w : world) : world :=
  let e := ego w in
  MkWorld (heap w) (tasks w)
    (MkActive (closed e) (sources e) (autoclose e) (sourcesLock e) z).
Definition set_chan (r : nat) (c : chan T) (w : world) : world :=
  MkWorld (<[r := c]> (heap w)) (tasks w) (ego w).

(** [p.Channel()] of the producer at address [r]; an address with no
    channel behind it yields the nil channel. *)
Definition Channel (w : world) (r : nat) : chan T :=
  default nil_chan (heap w !! r).

Definition sourcesLock_Lock : M world unit :=
  lock (fun w => sourcesLock (ego w)) set_sourcesLock.
Definition sourcesLock_Unlock : M world unit :=
  unlock (fun w => sourcesLock (ego w)) set_sourcesLock.

(** [NewActiveMerger(autoclose)], next to the channels that exist. *)
Definition NewActiveMerger (autoclose : bool) (h : list (chan T)) : world :=
  MkWorld h [] (MkActive false make0 autoclose false 0).

(** Modelled from the spec: [DefaultClosable.Closed] (not in the sources)
    reads the closed flag. *)
Definition Closed : M world bool := fun w => Done (closed (ego w)) w.

(** [ego.DefaultClosable.Close()] *)
Definition DefaultClosable_Close' : M world unit :=
  modify (fun w => set_closed (DefaultClosable_Close (closed (ego w))) w).

(** The search and deletion of [unsetSource]. *)
Definition removed (s : Producer) (w : world) : world :=
  let srcs := sources (ego w) in
  match find_first (fun source => bool_decide (Channeled source = s)) srcs with
  | Some i => set_sources (delete_at srcs i) w
  | None => w
  end.
Definition remove_source (s : Producer) : M world unit :=
  modify (removed s).

(** [Close] and [unsetSource] call each other.  The range of [Close]
    copies the slice header once and reads position [i] of its array at
    iteration [i]; while the loop runs only [unsetSource] touches
    [ego.sources], and its deletion is in place, so that array is the
    one [ego.sources] still points to. *)
Fixpoint Close (fuel : nat) : M world unit :=
  match fuel with
  | O => fun _ => OutOfFuel
  | S f =>
      let* w0 := get in
      range_loop
        (fun i =>
           let* w := get in
           match arr (sources (ego w)) !! i with
           | Some s => unsetSource f (Channeled s)
           | None => panic IndexOutOfRange
           end)
        0 (slen (sources (ego w0))) >>
      DefaultClosable_Close'
  end
with unsetSource (fuel : nat) (s : Producer) : M world unit :=
  match fuel with
  | O => fun _ => OutOfFuel
  | S f =>
      let* c := Closed in
      if c then ret tt
      else
        defer sourcesLock_Unlock
          (sourcesLock_Lock >>
           remove_source s >>
           let* w := get in
           if autoclose (ego w) && bool_decide (len (sources (ego w)) = 0)
           then Close f
           else ret tt)
  end.

(** [NewChanneledInput[T](0)]: a fresh channel, at the next address. *)
Definition alloc_chan : M world nat :=
  fun w => Done (length (heap w))
             (MkWorld (heap w ++ [NewChanneledInput 0]) (tasks w) (ego w)).
(** [go func() { ... }()]: the forwarding task from [p] to [chp]. *)
Definition spawn (p chp : nat) : M world unit :=
  modify (fun w => MkWorld (heap w) (tasks w ++ [(p, chp)]) (ego w)).
Definition append_source (chp : nat) : M world unit :=
  modify (fun w => set_sources (append (sources (ego w)) [chp]) w).

Definition SetSource (s : Producer) : M world error :=
  let* c := Closed in
  if c then ret errClosed
  else
    match s with
    | Channeled chp =>
        sourcesLock_Lock >> append_source chp >> sourcesLock_Unlock >>
        ret None
    | Plain p =>
        let* chp := alloc_chan in
        spawn p chp >>
        sourcesLock_Lock >> append_source chp >> sourcesLock_Unlock >>
        ret None
    end.

Definition CanSetSource : M world bool := ret true.

(** One turn of the polling loop of [Consume]. *)
Inductive turn :=
| Break
| Continue
| Return (value : T) (valid : bool) (err : error).

(** The cursor after [ego.nextToReadFrom = (ego.nextToReadFrom + 1) % len(ego.sources)]. *)
Definition advance (e : activeMerger) : Z :=
  rem (add (nextToReadFrom e) 1) (len (sources e)).

Definition poll (fuel : nat) : M world turn :=
  sourcesLock_Lock >>
  let* w := get in
  if bool_decide (len (sources (ego w)) = 0)
  then sourcesLock_Unlock >> ret Break
  else
    modify (set_nextToReadFrom (advance (ego w))) >>
    let* w := get in
    match index (sources (ego w)) (nextToReadFrom (ego w)) with
    | None => panic IndexOutOfRange
    | Some r =>
        match receive (Channel w r) with
        | RecvValue value c' =>
            modify (set_chan r c') >>
            sourcesLock_Unlock >> ret (Return value true None)
        | RecvClosed =>
            match index (sources (ego w)) (nextToReadFrom (ego w)) with
            | None => panic IndexOutOfRange
            | Some toUnset =>
                sourcesLock_Unlock >>
                unsetSource fuel (Channeled toUnset) >> ret Continue
            end
        | RecvNotReady => sourcesLock_Unlock >> ret Continue
        end
    end.

(** What follows the loop. *)
Definition after_loop : M world (T * bool * error) :=
  let* c := Closed in
  if c then ret (zero, false, None)
  else ret (zero, true, errNoSources).

Fixpoint Consume (fuel : nat) : M world (T * bool * error) :=
  match fuel with
  | O => fun _ => OutOfFuel
  | S f =>
      let* t := poll f in
      match t with
      | Break => after_loop
      | Continue => Consume f
      | Return value valid err => ret (value, valid, err)
      end
  end.

Definition Get (fuel : nat) : M world (T * bool * error) := Consume fuel.

(** The registry as a list. *)
Definition registry (w : world) : list nat := view (sources (ego w)).

(** What holds of a merger between two calls: the mutex is free, the
    slice fits its array and an [int] can hold its length, and the
    cursor is a non-negative [int] below the largest one. *)
Definition well_formed (w : world) : Prop :=
  sourcesLock (ego w) = false /\
  (slen (sources (ego w)) <= length (arr (sources (ego w))))%nat /\
  len (sources (ego w)) <= max_int /\
  0 <= nextToReadFrom (ego w) < max_int.

End WithT.
Arguments activeMerger : clear implicits.
Arguments world : clear implicits.
Arguments turn : clear implicits.
End ActiveMerger.

(* ===================================================================== *)
(** ** channeledLazyMerger *)
(* ===================================================================== *)

Module LazyMerger.
Section WithT.
Context {T : Type}.
(** [*new(T)], what a receive on a closed channel yields *)
Context (zero : T).

Record channeledLazyMerger := MkLazy {
  input : chan T;              (* embedded ChanneledInput *)
  sources : slice Producer;
  autoclose : bool;
  overflowBuffer : list T;
  sourcesLock : bool;
  overflowBufferLock : bool;
}.

(** The merger and the [merge] tasks started by [go], one per attach. *)
Record world := MkWorld {
  tasks : list Producer;
  ego : channeledLazyMerger;
}.

Definition set_input (c : chan T) (w : world) : world :=
  let e := ego w in
  MkWorld (tasks w)
    (MkLazy c (sources e) (autoclose e) (overflowBuffer e)
       (sourcesLock e) (overflowBufferLock e)).
Definition set_sources (s : slice Producer) (w : world) : world :=
  let e := ego w in
  MkWorld (tasks w)
    (MkLazy (input e) s (autoclose e) (overflowBuffer e)
       (sourcesLock e) (overflowBufferLock e)).
Definition set_overflowBuffer (o : list T) (w : world) : world :=
  let e := ego w in
  MkWorld (tasks w)
    (MkLazy (input e) (sources e) (autoclose e) o
       (sourcesLock e) (overflowBufferLock e)).
Definition set_sourcesLock (b : bool) (w : world) : world :=
  let e := ego w in
  MkWorld (tasks w)
    (MkLazy (input e) (sources e) (autoclose e) (overflowBuffer e)
       b (overflowBufferLock e)).
Definition set_overflowBufferLock (b : bool) (w : world) : world :=
  let e := ego w in
  MkWorld (tasks w)
    (MkLazy (input e) (sources e) (autoclose e) (overflowBuffer e)
       (sourcesLock e) b).

Definition sourcesLock_Lock : M world unit :=
  lock (fun w => sourcesLock (ego w)) set_sourcesLock.
Definition sourcesLock_Unlock : M world unit :=
  unlock (fun w => sourcesLock (ego w)) set_sourcesLock.
Definition overflowBufferLock_Lock : M world unit :=
  lock (fun w => overflowBufferLock (ego w)) set_overflowBufferLock.
Definition overflowBufferLock_Unlock : M world unit :=
  unlock (fun w => overflowBufferLock (ego w)) set_overflowBufferLock.

(** [NewChanneledLazyMerger(capacity, autoclose)] *)
Definition NewChanneledLazyMerger (capacity : Z) (autoclose : bool) : world :=
  MkWorld []
    (MkLazy (NewChanneledInput capacity) make0 autoclose [] false false).

Definition Closed : M world bool :=
  fun w => Done (ChanneledInput_Closed (input (ego w))) w.

Definition closed_input (w : world) : world :=
  set_input (ChanneledInput_Close (input (ego w))) w.
Definition ChanneledInput_Close' : M world unit := modify closed_input.

Definition removed (s : Producer) (w : world) : world :=
  let srcs := sources (ego w) in
  match find_first (fun source => bool_decide (source = s)) srcs with
  | Some i => set_sources (delete_at srcs i) w
  | None => w
  end.
Definition remove_source (s : Producer) : M world unit :=
  modify (removed s).

(** [Close], its [for numSources > 0] loop and [unsetSource]. *)
Fixpoint Close (fuel : nat) : M world unit :=
  match fuel with
  | O => fun _ => OutOfFuel
  | S f =>
      sourcesLock_Lock >>
      close_loop f >>
      sourcesLock_Unlock >>
      ChanneledInput_Close'
  end
with close_loop (fuel : nat) : M world unit :=
  match fuel with
  | O => fun _ => OutOfFuel
  | S f =>
      let* w := get in
      if bool_decide (len (sources (ego w)) > 0)
      then
        match index (sources (ego w)) 0 with
        | None => panic IndexOutOfRange
        | Some s =>
            sourcesLock_Unlock >>
            unsetSource f s >>
            sourcesLock_Lock >>
            close_loop f
        end
      else ret tt
  end
with unsetSource (fuel : nat) (s : Producer) : M world unit :=
  match fuel with
  | O => fun _ => OutOfFuel
  | S f =>
      let* c := Closed in
      if c then ret tt
      else
        sourcesLock_Lock >>
        remove_source s >>
        let* w := get in
        if autoclose (ego w) && bool_decide (len (sources (ego w)) = 0)
        then sourcesLock_Unlock >> Close f
        else sourcesLock_Unlock
  end.

(** [go ego.merge(s)] *)
Definition spawn_merge (s : Producer) : M world unit :=
  modify (fun w => MkWorld (tasks w ++ [s]) (ego w)).
Definition append_source (s : Producer) : M world unit :=
  modify (fun w => set_sources (append (sources (ego w)) [s]) w).

Definition SetSource (s : Producer) : M world error :=
  sourcesLock_Lock >>
  let* c := Closed in
  if c then sourcesLock_Unlock >> ret errClosed
  else
    append_source s >>
    sourcesLock_Unlock >>
    spawn_merge s >>
    ret None.

Definition CanSetSource : M world bool := ret true.

(** [value, valid = <-ego.Channel()]; an open and empty channel makes
    the receive wait. *)
Definition receive_input : M world (T * bool) :=
  fun w =>
    match receive (input (ego w)) with
    | RecvValue v c' => Done (v, true) (set_input c' w)
    | RecvClosed => Done (zero, false) w
    | RecvNotReady => Blocks w
    end.

(** [ego.overflowBuffer[0]] and [ego.overflowBuffer[1:]] *)
Definition overflow_head : M world T :=
  fun w =>
    match overflowBuffer (ego w) with
    | v :: _ => Done v w
    | [] => Panics IndexOutOfRange w
    end.
Definition overflow_advance : M world unit :=
  fun w =>
    match overflowBuffer (ego w) with
    | _ :: rest => Done tt (set_overflowBuffer rest w)
    | [] => Panics IndexOutOfRange w
    end.

Definition Consume : M world (T * bool * error) :=
  let* r := receive_input in
  let '(value, valid) := r in
  let* w := get in
  if negb valid && bool_decide (Z.of_nat (length (overflowBuffer (ego w))) > 0)
  then
    overflowBufferLock_Lock >>
    let* value := overflow_head in
    overflow_advance >>
    overflowBufferLock_Unlock >>
    ret (value, true, None)
  else ret (value, valid, None).

Definition Get : M world (T * bool * error) := Consume.

Definition registry (w : world) : list Producer := view (sources (ego w)).

(** What holds of a merger between two calls: the mutexes are free, the
    slice fits its array, and a closed merger has no source attached. *)
Definition well_formed (w : world) : Prop :=
  sourcesLock (ego w) = false /\
  overflowBufferLock (ego w) = false /\
  (slen (sources (ego w)) <= length (arr (sources (ego w))))%nat /\
  (chclosed (input (ego w)) = true -> slen (sources (ego w)) = 0%nat).

(** At most [n] calls of [Consume] in a row, up to the first one that
    reports end-of-stream: the values delivered, in order. *)
Fixpoint drain (n : nat) : M world (list T) :=
  match n with
  | O => ret []
  | S n' =>
      let* r := Consume in
      let '(value, valid, _) := r in
      if valid
      then let* rest := drain n' in ret (value :: rest)
      else ret []
  end.

End WithT.
Arguments channeledLazyMerger : clear implicits.
Arguments world : clear implicits.
End LazyMerger.

(* ===================================================================== *)
(** ** multiplexer *)
(* ===================================================================== *)

Module Multiplexer.
Section WithT.
Context {T : Type}.

(** What one [Get] of the upstream producer does. *)
Inductive pull :=
| Yield (value : T) (valid : bool) (err : error)
| GetPanics.

Inductive event :=
| Wrote (output : nat) (value : T)
| ClosedOutput (output : nat).

(** The multiplexer.  [upstream] stands for the source held by the
    embedded [DefaultConsumer]: what its successive [Get] calls do.
    [trace] records the writes and closes on the outputs in the order
    they happen. *)
Record multiplexer := MkMux {
  upstream : list pull;
  outputs : list (chan T);
  trace : list event;
}.

(** Modelled from the spec: [DefaultConsumer.Consume] (not in the
    sources), the pull of the default single-source consumer base: it
    calls [Get] on the attached source.  A source with nothing more to
    say makes the pull wait. *)
Definition Consume : M multiplexer (T * bool * error) :=
  fun m =>
    match upstream m with
    | [] => Blocks m
    | Yield value valid err :: rest =>
        Done (value, valid, err) (MkMux rest (outputs m) (trace m))
    | GetPanics :: rest =>
        Panics ExplicitPanic (MkMux rest (outputs m) (trace m))
    end.

(** [NewMultiplexer(capacity, branches)].  [make] panics on a length that
    is negative or above [max_len], the largest length the platform
    allocates for a slice of this element type; running out of memory
    below that length is not represented.  Every output is made with the
    capacity given. *)
Definition NewMultiplexer (max_len capacity branches : Z) (src : list pull)
  : option multiplexer :=
  if bool_decide (0 <= branches <= max_len)
  then Some (MkMux src
               (replicate (Z.to_nat branches) (NewChanneledInput capacity))
               [])
  else None.

(** [ego.outputs[i].Write(value)]; while the output is at capacity the
    task waits in the call. *)
Definition output_Write (i : nat) (value : T) : M multiplexer unit :=
  fun m =>
    match outputs m !! i with
    | None => Panics IndexOutOfRange m
    | Some c =>
        match ChanneledInput_Write value c with
        | Done _ c' =>
            Done tt (MkMux (upstream m) (<[i := c']> (outputs m))
                       (trace m ++ [Wrote i value]))
        | Panics f _ => Panics f m
        | Blocks _ => Blocks m
        | OutOfFuel => OutOfFuel
        end
    end.

(** [ego.outputs[i].Close()] *)
Definition output_Close (i : nat) : M multiplexer unit :=
  fun m =>
    match outputs m !! i with
    | None => Panics IndexOutOfRange m
    | Some c =>
        Done tt (MkMux (upstream m) (<[i := ChanneledInput_Close c]> (outputs m))
                   (trace m ++ [ClosedOutput i]))
    end.

(** The [for { ... }] of [pipeData].  The tasks that read the outputs run
    beside it: [readers i] is what they do before this task's write to
    output [i]. *)
Fixpoint pipe_loop (readers : nat -> M multiplexer unit) (fuel : nat)
  : M multiplexer unit :=
  match fuel with
  | O => fun _ => OutOfFuel
  | S f =>
      let* r := Consume in
      let '(value, valid, err) := r in
      if bool_decide (err <> None) || negb valid
      then ret tt
      else
        let* m := get in
        range_loop (fun i => readers i >> output_Write i value)
          0 (length (outputs m)) >>
        pipe_loop readers f
  end.

(** The deferred closes registered by the first loop of [pipeData], for
    outputs [i], [i+1], ...: the one registered last runs first. *)
Fixpoint deferred_closes (i n : nat) (body : M multiplexer unit)
  : M multiplexer unit :=
  match n with
  | O => body
  | S n' => defer (output_Close i) (deferred_closes (S i) n' body)
  end.

Definition pipeData (readers : nat -> M multiplexer unit) (fuel : nat)
  : M multiplexer unit :=
  fun m => deferred_closes 0 (length (outputs m)) (pipe_loop readers fuel) m.

(** [Out(index)]: [ego.outputs[index]] with its bounds check. *)
Definition Out (index : Z) : M multiplexer (chan T) :=
  fun m =>
    if bool_decide (0 <= index < Z.of_nat (length (outputs m)))
    then match outputs m !! Z.to_nat index with
         | Some o => Done o m
         | None => Panics IndexOutOfRange m
         end
    else Panics IndexOutOfRange m.

(** *** The readers of the outputs *)

(** Nobody reads. *)
Definition alone : nat -> M multiplexer unit := fun _ => ret tt.

(** The reader of output [i] takes its oldest value, if it holds one. *)
Definition taken_from (c : chan T) : chan T :=
  match receive c with
  | RecvValue _ c' => c'
  | _ => c
  end.
Definition output_Read (i : nat) : M multiplexer unit :=
  fun m =>
    match outputs m !! i with
    | Some c =>
        Done tt (MkMux (upstream m) (<[i := taken_from c]> (outputs m))
                   (trace m))
    | None => Done tt m
    end.

(** Readers that keep up: when the output about to be written is at
    capacity, its reader takes the oldest value first. *)
Definition relieved (c : chan T) : chan T :=
  if has_room c then c else taken_from c.
Definition keep_up (i : nat) : M multiplexer unit :=
  fun m =>
    match outputs m !! i with
    | Some c => if has_room c then Done tt m else output_Read i m
    | None => Done tt m
    end.

(** What reading does to an output: values leave at the front, the rest
    stays as it is. *)
Definition read_from (c c' : chan T) : Prop :=
  chcap c' = chcap c /\ chclosed c' = chclosed c /\
  buf c' `suffix_of` buf c.

(** Readers of any kind: they return, and all they do is read. *)
Definition only_read (readers : nat -> M multiplexer unit) : Prop :=
  forall i m,
    exists m',
      readers i m = Done tt m' /\
      upstream m' = upstream m /\ trace m' = trace m /\
      Forall2 read_from (outputs m) (outputs m').

(** A reader of one output, after the task: at most [n] receives; the
    values it got and whether it then saw end-of-stream. *)
Fixpoint reads (n : nat) (c : chan T) : list T * bool :=
  match n with
  | O => ([], false)
  | S n' =>
      match receive c with
      | RecvValue v c' => let '(vs, ended) := reads n' c' in (v :: vs, ended)
      | RecvClosed => ([], true)
      | RecvNotReady => ([], false)
      end
  end.

(** The pulls on which the loop of [pipeData] ends:
    [err != nil || !valid], or a panic of the upstream [Get]. *)
Definition stops (p : pull) : bool :=
  match p with
  | Yield _ valid err => bool_decide (err <> None) || negb valid
  | GetPanics => true
  end.

(** How [pipeData] ends on such a pull. *)
Definition exit_of (p : pull) (m : multiplexer) : outcome multiplexer unit :=
  match p with
  | Yield _ _ _ => Done tt m
  | GetPanics => Panics ExplicitPanic m
  end.

(** The writes of one value to outputs [0 .. b-1], and the closes that
    the deferred calls perform. *)
Definition broadcast (b : nat) (value : T) : list event :=
  (fun i => Wrote i value) <$> seq 0 b.
Definition closes (b : nat) : list event :=
  ClosedOutput <$> reverse (seq 0 b).

End WithT.
Arguments pull : clear implicits.
Arguments event : clear implicits.
Arguments multiplexer : clear implicits.
End Multiplexer.

(* ===================================================================== *)
(** ** The registry as a list *)
(* ===================================================================== *)

Module Registry.

(** [l] without the first occurrence of [x]; [l] itself when [x] does not
    occur.  The registry after a detach is stated with it. *)
Fixpoint remove_first {A} `{EqDecision A} (x : A) (l : list A) : list A :=
  match l with
  | [] => []
  | y :: l' => if decide (y = x) then l' else y :: remove_first x l'
  end.

End Registry.

Export Registry.

(* ===================================================================== *)
(** ** The polling loop and its sources *)
(* ===================================================================== *)

Module Polling.
Import ActiveMerger.
Section WithT.
Context {T : Type}.
Implicit Types (w : world T).

(** A source whose channel is open and empty, and one whose channel is
    closed and drained. *)
Definition waiting w (r : nat) : Prop := receive (Channel w r) = RecvNotReady.
Definition drained w (r : nat) : Prop := receive (Channel w r) = RecvClosed.

(** The state in which a turn reads the channel: the cursor advanced. *)
Definition advanced w : world T := set_nextToReadFrom (advance (ego w)) w.

(** The registry entry [i] positions after the cursor, in rotation. *)
Definition after_cursor w (i : Z) : option nat :=
  index (sources (ego w))
    ((nextToReadFrom (ego w) + i) mod len (sources (ego w))).

(** What the range of [Close] keeps true of a source [x] that sits at
    the front of the array and nowhere else below position [n]: it is
    never read again, so it is never detached. *)
Definition front_only (n : nat) (x : nat) w : Prop :=
  closed (ego w) = false /\
  sourcesLock (ego w) = false /\
  (slen (sources (ego w)) <= length (arr (sources (ego w))))%nat /\
  (1 <= slen (sources (ego w)))%nat /\
  arr (sources (ego w)) !! 0%nat = Some x /\
  (forall j, (1 <= j < n)%nat -> arr (sources (ego w)) !! j <> Some x).

End WithT.
End Polling.

(* ===================================================================== *)
(** ** The forwarding tasks *)
(* ===================================================================== *)

Module Task.
Section WithT.
Context {T : Type}.

(** A task started by [go] on behalf of a merger with state [St]: the
    merger it works on, and what the successive [Get] calls of the
    producer it pulls from do. *)
Record task (St : Type) := MkTask {
  merger : St;
  source : list (Multiplexer.pull T);
}.
Arguments MkTask {St} merger source.
Arguments merger {St} t.
Arguments source {St} t.

(** A method of the merger, run by the task. *)
Definition lift {St A} (m : M St A) : M (task St) A :=
  fun t =>
    match m (merger t) with
    | Done a w => Done a (MkTask w (source t))
    | Panics f w => Panics f (MkTask w (source t))
    | Blocks w => Blocks (MkTask w (source t))
    | OutOfFuel => OutOfFuel
    end.

(** [s.Get()]: a producer with nothing more to say makes the call wait. *)
Definition Get_source {St} : M (task St) (T * bool * error) :=
  fun t =>
    match source t with
    | [] => Blocks t
    | Multiplexer.Yield value valid err :: rest =>
        Done (value, valid, err) (MkTask (merger t) rest)
    | Multiplexer.GetPanics :: rest =>
        Panics ExplicitPanic (MkTask (merger t) rest)
    end.

(** [defer func() { if r := recover(); r != nil { handler } }()] placed
    before [body].  When [body] returns, [recover] yields nil and the
    closure does nothing.  When [body] panics, the closure recovers the
    panic, whatever raised it, runs [handler], and the function returns
    normally. *)
Definition recovering {St} (handler body : M St unit) : M St unit :=
  fun s =>
    match body s with
    | Panics _ s' => handler s'
    | Done a s' => Done a s'
    | Blocks s' => Blocks s'
    | OutOfFuel => OutOfFuel
    end.

End WithT.
Arguments MkTask {T St} merger source.
Arguments merger {T St} t.
Arguments source {T St} t.
End Task.

(** [channeledLazyMerger.merge] *)
Module MergeTask.
Import LazyMerger Task.
Section WithT.
Context {T : Type}.
Local Abbreviation lift := (Task.lift (T:=T)).
Local Abbreviation Get_source := (Task.Get_source (T:=T)).

(** [ego.Channel() <- value], a send on the channel of the shared buffer:
    it panics when the channel is closed, queues the value when there is
    room, and waits with the value while the buffer is full.  With
    capacity 0 there is never room: the sender waits for a receiver and
    the value passes to it directly, not through the buffer; what a
    woken send does is stated for a buffer of capacity at least 1. *)
Definition sent (value : T) (w : world T) : world T :=
  set_input (queued value (input (ego w))) w.
Definition send (value : T) : M (world T) unit :=
  fun w =>
    match Go.send value (input (ego w)) with
    | Done _ c' => Done tt (set_input c' w)
    | Panics f _ => Panics f w
    | Blocks _ => Blocks w
    | OutOfFuel => OutOfFuel
    end.

(** What the deferred closure of [merge] does with a panic to recover:
    [ego.overflowBuffer = append(ego.overflowBuffer, value)] under the
    overflow mutex (the log line is left out). *)
Definition overflowed (value : T) (w : world T) : world T :=
  set_overflowBuffer (overflowBuffer (ego w) ++ [value]) w.
Definition to_overflow (value : T) : M (world T) unit :=
  overflowBufferLock_Lock >> modify (overflowed value) >>
  overflowBufferLock_Unlock.

(** One iteration of [merge] from the result of [s.Get()] on; [continue]
    is the rest of the loop.  The closure deferred in this iteration
    captures this iteration's [value] and stays registered until [merge]
    returns, so it also guards every later iteration. *)
Definition after_Get (continue : M (task (world T)) unit)
    (fuel : nat) (s : Producer) (r : T * bool * error)
  : M (task (world T)) unit :=
  let '(value, valid, err) := r in
  if negb valid then lift (unsetSource fuel s)
  else if bool_decide (err <> None) then ret tt
  else recovering (lift (to_overflow value))
         (lift (send value) >> continue).

Fixpoint merge (fuel : nat) (s : Producer) : M (task (world T)) unit :=
  match fuel with
  | O => fun _ => OutOfFuel
  | S f =>
      let* c := lift Closed in
      if c then ret tt
      else
        let* r := Get_source in
        after_Get (merge f s) f s r
  end.

(** [merge] woken where it waits in the send of [value]. *)
Definition woken (fuel : nat) (s : Producer) (value : T)
  : M (task (world T)) unit :=
  after_Get (merge fuel s) fuel s (value, true, None).

(** The first iteration of [merge] with another task's call [between]
    the return of [s.Get()] and the send. *)
Definition merge_interleaved (between : M (world T) unit)
    (fuel : nat) (s : Producer) : M (task (world T)) unit :=
  let* c := lift Closed in
  if c then ret tt
  else
    let* r := Get_source in
    lift between >>
    after_Get (merge fuel s) fuel s r.

End WithT.
End MergeTask.

(** The task [activeMerger.SetSource] starts for a producer without a
    channel: [go func() { for { ... } }()], writing to the wrapper [chp]. *)
Module ForwardTask.
Import ActiveMerger Task.
Section WithT.
Context {T : Type}.
Context (zero : T).
Local Abbreviation lift := (Task.lift (T:=T)).
Local Abbreviation Get_source := (Task.Get_source (T:=T)).

(** [chp.Channel() <- value].  The wrapper is made with capacity 0, so
    the sender waits with its value until a receiver takes it.  [offer]
    is the sender arriving: from then on its value is what a receive on
    the channel gets.  [handed_over] is the rest of the send: it returns
    once the value is no longer with the sender.  A send on a closed
    channel panics, a send on a nil channel waits for ever.  Nothing but
    this task closes the wrapper. *)
Definition offer (chp : nat) (value : T) : M (world T) unit :=
  fun w =>
    match heap w !! chp with
    | None => Blocks w
    | Some c =>
        if chclosed c then Panics SendOnClosedChannel w
        else Done tt (set_chan chp (queued value c) w)
    end.
Definition handed_over (chp : nat) : M (world T) unit :=
  fun w =>
    match heap w !! chp with
    | None => Blocks w
    | Some c =>
        if bool_decide (Z.of_nat (length (buf c)) <= chcap c)
        then Done tt w
        else Blocks w
    end.
Definition send_to (chp : nat) (value : T) : M (world T) unit :=
  offer chp value >> handed_over chp.

(** [chp.Close()] *)
Definition close_chan (chp : nat) : M (world T) unit :=
  modify (fun w => set_chan chp (ChanneledInput_Close (Channel w chp)) w).

Fixpoint forward (fuel : nat) (chp : nat) : M (task (world T)) unit :=
  match fuel with
  | O => fun _ => OutOfFuel
  | S f =>
      let* c := lift Closed in
      if c then ret tt
      else
        let* r := Get_source in
        let '(value, valid, err) := r in
        if negb valid then lift (close_chan chp)
        else if bool_decide (err <> None) then ret tt
        else lift (send_to chp value) >> forward f chp
  end.

(** The task woken where it waits in its send. *)
Definition woken (fuel : nat) (chp : nat) : M (task (world T)) unit :=
  lift (handed_over chp) >> forward fuel chp.

(** The task beside a reader of the merger.  The task runs until it
    returns or waits; each time it waits the reader calls [Consume], and
    the task is woken after the call.  The result is what the calls of
    [Consume] returned, in order, up to the return of the task. *)
Definition until_waits {St} (job : M St unit) : M St bool :=
  fun s =>
    match job s with
    | Done _ s' => Done true s'
    | Blocks s' => Done false s'
    | Panics f s' => Panics f s'
    | OutOfFuel => OutOfFuel
    end.
Fixpoint relay (rounds fuel : nat) (chp : nat) (job : M (task (world T)) unit)
  : M (task (world T)) (list (T * bool * error)) :=
  match rounds with
  | O => fun _ => OutOfFuel
  | S n =>
      let* returned := until_waits job in
      if returned then ret []
      else
        let* r := lift (Consume zero fuel) in
        let* rest := relay n fuel chp (woken fuel chp) in
        ret (r :: rest)
  end.

End WithT.
End ForwardTask.

(* ===================================================================== *)
(** ** Sample mergers *)
(* ===================================================================== *)

Module Samples.
Module A := ActiveMerger.
Module L := LazyMerger.

(** Two open sources with nothing to offer. *)
Definition active_idle : A.world nat :=
  A.MkWorld [MkChan 2 [] false; MkChan 2 [] false] []
    (A.MkActive false (MkSlice [0; 1]%nat 2) false false 0).

(** Sources 0, 1, 2 with the cursor on 2: the rotation visits 0 and 1,
    which have nothing to offer, before 2, which holds 7 and 8. *)
Definition active_late : A.world nat :=
  A.MkWorld [MkChan 2 [] false; MkChan 2 [] false; MkChan 2 [7; 8]%nat false] []
    (A.MkActive false (MkSlice [0; 1; 2]%nat 3) false false 2).

(** Two sources, both closed and drained, with and without autoclose. *)
Definition active_drained (ac : bool) : A.world nat :=
  A.MkWorld [MkChan 2 [] true; MkChan 2 [] true] []
    (A.MkActive false (MkSlice [0; 1]%nat 2) ac false 1).

(** The wrapper of a producer without channel as the only source. *)
Definition active_wrapper : A.world nat :=
  A.MkWorld [MkChan 0 [] false] [(4%nat, 0%nat)]
    (A.MkActive false (MkSlice [0%nat] 1) true false 0).

(** New mergers with autoclose, nothing attached. *)
Definition active_fresh : A.world nat :=
  A.NewActiveMerger true [MkChan 2 [] false].
Definition lazy_fresh : L.world nat := L.NewChanneledLazyMerger 4 true.

(** A lazy merger whose shared buffer of capacity 2 is full. *)
Definition lazy_full : L.world nat :=
  L.MkWorld [Plain 0]
    (L.MkLazy (MkChan 2 [3; 4]%nat false) (MkSlice [Plain 0] 1) false []
       false false).

End Samples.

(* ===================================================================== *)
(** ** Facts about slices and the monad *)
(* ===================================================================== *)

Module GoFacts.
Section Slices.
Context {A : Type}.
Implicit Types (s : slice A) (l xs : list A) (p : A -> bool).

Lemma find_from_bounds p l k i :
  find_from p l k = Some i ->
  (k <= i)%nat /\ exists x, l !! (i - k)%nat = Some x /\ p x = true.
Proof.
  revert k. induction l as [|y l IH]; intros k; simpl; [discriminate|].
  destruct (p y) eqn:Hp.
  - intros [= <-]. split; [lia|]. exists y. by rewrite Nat.sub_diag.
  - intros H. apply IH in H as [Hle (x & Hx & Hpx)]. split; [lia|].
    exists x. split; [|done].
    replace (i - k)%nat with (S (i - S k)) by lia. done.
Qed.

Lemma find_first_lt p s i :
  find_first p s = Some i -> (i < length (view s))%nat.
Proof.
  unfold find_first. intros H.
  apply find_from_bounds in H as [_ (x & Hx & _)].
  rewrite Nat.sub_0_r in Hx. by apply lookup_lt_Some in Hx.
Qed.

Lemma length_view s :
  (slen s <= length (arr s))%nat -> length (view s) = slen s.
Proof. intros H. unfold view. by rewrite length_take_le. Qed.

(** Deleting inside the window never leaves the array. *)
Lemma delete_at_in_place s i :
  (slen s <= length (arr s))%nat -> (i < slen s)%nat ->
  delete_at s i =
    MkSlice (take i (arr s) ++ drop (S i) (view s)
               ++ drop (slen s - 1) (arr s))
            (slen s - 1).
Proof.
  intros Hwf Hi. unfold delete_at, append, upto, from. simpl.
  assert (Hlen : length (drop (S i) (view s)) = (slen s - S i)%nat).
  { rewrite length_drop, length_view by done. done. }
  rewrite Hlen. rewrite bool_decide_true by lia.
  by replace (i + (slen s - S i))%nat with (slen s - 1)%nat by lia.
Qed.

Lemma delete_at_slen s i :
  (slen s <= length (arr s))%nat -> (i < slen s)%nat ->
  slen (delete_at s i) = (slen s - 1)%nat.
Proof. intros. by rewrite delete_at_in_place. Qed.

Lemma delete_at_arr_length s i :
  (slen s <= length (arr s))%nat -> (i < slen s)%nat ->
  length (arr (delete_at s i)) = length (arr s).
Proof.
  intros Hwf Hi. rewrite delete_at_in_place by done. simpl.
  rewrite !length_app, length_take, !length_drop, length_view by done.
  lia.
Qed.

Lemma view_delete_at s i :
  (slen s <= length (arr s))%nat -> (i < slen s)%nat ->
  view (delete_at s i) = take i (view s) ++ drop (S i) (view s).
Proof.
  intros Hwf Hi. rewrite delete_at_in_place by done.
  unfold view at 1. simpl.
  assert (Hl : length (take i (arr s) ++ drop (S i) (view s))
               = (slen s - 1)%nat).
  { rewrite length_app, length_take, length_drop, length_view by done.
    lia. }
  rewrite app_assoc, take_app_length' by done.
  f_equal. unfold view. rewrite take_take. f_equal. lia.
Qed.

Lemma view_append s xs :
  (slen s <= length (arr s))%nat -> view (append s xs) = view s ++ xs.
Proof.
  intros Hwf. unfold append. case_bool_decide; unfold view; simpl.
  - rewrite app_assoc. apply take_app_length'.
    rewrite length_app, length_take_le by done. done.
  - apply take_ge. rewrite length_app, length_take_le by done. done.
Qed.

Lemma append_fits s xs :
  (slen s <= length (arr s))%nat ->
  (slen (append s xs) <= length (arr (append s xs)))%nat.
Proof.
  intros Hwf. unfold append. case_bool_decide; unfold view; simpl.
  - rewrite !length_app, length_take, length_drop. lia.
  - rewrite length_app, length_take_le by done. done.
Qed.

Lemma slen_append s xs : slen (append s xs) = (slen s + length xs)%nat.
Proof. unfold append. by case_bool_decide. Qed.

Lemma index_in_bounds s i :
  (slen s <= length (arr s))%nat -> 0 <= i < len s ->
  is_Some (index s i).
Proof.
  intros Hwf Hi. unfold index. rewrite bool_decide_true by done.
  apply lookup_lt_is_Some. unfold len in Hi. lia.
Qed.
End Slices.
End GoFacts.

(* ===================================================================== *)
(** ** activeMerger: detach and close *)
(* ===================================================================== *)

Module ActiveMergerFacts.
Import ActiveMerger Polling.
Section WithT.
Context {T : Type} (zero : T).
Implicit Types (w : world T) (s : Producer).

Lemma Close_unfold f :
  Close (T:=T) (S f) =
    (let* w0 := get in
     range_loop
       (fun i =>
          let* w := get in
          match arr (sources (ego w)) !! i with
          | Some s => unsetSource f (Channeled s)
          | None => panic IndexOutOfRange
          end)
       0 (slen (sources (ego w0))) >>
     DefaultClosable_Close').
Proof. reflexivity. Qed.

Lemma unsetSource_unfold f s :
  unsetSource (T:=T) (S f) s =
    (let* c := Closed in
     if c then ret tt
     else
       defer sourcesLock_Unlock
         (sourcesLock_Lock >>
          remove_source s >>
          let* w := get in
          if autoclose (ego w) && bool_decide (len (sources (ego w)) = 0)
          then Close f
          else ret tt)).
Proof. reflexivity. Qed.

(** What a call leaves alone, and how it may change the registry. *)
Record keeps w w' : Prop := MkKeeps {
  keeps_lock : sourcesLock (ego w') = false;
  keeps_fits : (slen (sources (ego w')) <= length (arr (sources (ego w'))))%nat;
  keeps_cap : length (arr (sources (ego w'))) = length (arr (sources (ego w)));
  keeps_shrinks : (slen (sources (ego w')) <= slen (sources (ego w)))%nat;
  keeps_cursor : nextToReadFrom (ego w') = nextToReadFrom (ego w);
  keeps_heap : heap w' = heap w;
  keeps_tasks : tasks w' = tasks w;
  keeps_autoclose : autoclose (ego w') = autoclose (ego w);
  keeps_closed : closed (ego w) = true -> w' = w;
}.

Lemma keeps_refl w :
  sourcesLock (ego w) = false ->
  (slen (sources (ego w)) <= length (arr (sources (ego w))))%nat ->
  keeps w w.
Proof. intros. by constructor. Qed.

Lemma keeps_trans w1 w2 w3 : keeps w1 w2 -> keeps w2 w3 -> keeps w1 w3.
Proof.
  intros [? ? ? ? ? ? ? ? Hc12] [? ? ? ? ? ? ? ? Hc23].
  constructor; try congruence; try lia.
  intros Hc. specialize (Hc12 Hc). subst w2. auto.
Qed.

(** A well-formed merger stays well-formed over what a call keeps. *)
Lemma keeps_well_formed w w' : well_formed w -> keeps w w' -> well_formed w'.
Proof.
  intros (Hlock & Hfit & Hmax & Hcur) [K1 K2 K3 K4 K5 _ _ _ _].
  unfold well_formed, len in *. rewrite K5. intuition lia.
Qed.

Lemma removed_fits s w :
  (slen (sources (ego w)) <= length (arr (sources (ego w))))%nat ->
  (slen (sources (ego (removed s w)))
     <= length (arr (sources (ego (removed s w)))))%nat /\
  length (arr (sources (ego (removed s w)))) = length (arr (sources (ego w))) /\
  (slen (sources (ego (removed s w))) <= slen (sources (ego w)))%nat.
Proof.
  intros Hfit. unfold removed.
  destruct (find_first _ _) as [i|] eqn:Hfind; [|auto].
  apply GoFacts.find_first_lt in Hfind.
  rewrite GoFacts.length_view in Hfind by done. simpl.
  rewrite GoFacts.delete_at_slen, GoFacts.delete_at_arr_length by done.
  lia.
Qed.

(** [Close] on an empty registry only sets the flag. *)
Lemma Close_empty f w :
  slen (sources (ego w)) = 0%nat ->
  Close (S f) w = Done tt (set_closed true w).
Proof.
  intros H. rewrite Close_unfold. unfold bind, get. rewrite H. reflexivity.
Qed.

Lemma unsetSource_closed f s w :
  closed (ego w) = true -> unsetSource (S f) s w = Done tt w.
Proof.
  intros H. rewrite unsetSource_unfold. unfold bind, Closed. by rewrite H.
Qed.

(** The effect of [unsetSource] on an open merger; the nested [Close]
    of the autoclose path needs one more unit of fuel. *)
Lemma unsetSource_open_fuel f s w :
  closed (ego w) = false -> sourcesLock (ego w) = false ->
  unsetSource (S f) s w =
    let w1 := removed s w in
    if autoclose (ego w1) && bool_decide (len (sources (ego w1)) = 0)
    then match f with
         | O => OutOfFuel
         | S _ => Done tt (set_closed true w1)
         end
    else Done tt w1.
Proof.
  intros Hopen Hlock. rewrite unsetSource_unfold.
  unfold bind at 1. unfold Closed. rewrite Hopen.
  unfold defer, bind, sourcesLock_Lock, lock, remove_source, modify, get.
  rewrite Hlock.
  set (w1 := removed s (set_sourcesLock true w)).
  assert (Hw1 : w1 = set_sourcesLock true (removed s w)).
  { unfold w1, removed. simpl. by destruct (find_first _ _). }
  assert (Hrest : forall w2, removed s w = w2 ->
    sourcesLock_Unlock (set_closed true (set_sourcesLock true w2))
    = Done tt (set_closed true w2) /\
    sourcesLock_Unlock (set_sourcesLock true w2) = Done tt w2).
  { intros w2 <-. unfold removed.
    destruct w as [h ts [c srcs ac lk nx]]. simpl in *. subst.
    by destruct (find_first _ _). }
  cbv zeta.
  destruct (autoclose (ego w1) && bool_decide (len (sources (ego w1)) = 0))
    eqn:Hauto.
  - assert (Hauto' := Hauto). rewrite Hw1 in Hauto'. simpl in Hauto'.
    rewrite Hauto'. destruct f as [|f]; [done|].
    apply andb_prop in Hauto as [_ Hlen]. apply bool_decide_eq_true in Hlen.
    rewrite Close_empty by (unfold len in Hlen; lia).
    rewrite Hw1. by destruct (Hrest _ eq_refl) as [-> _].
  - assert (Hauto' := Hauto). rewrite Hw1 in Hauto'. simpl in Hauto'.
    rewrite Hauto'. unfold ret. rewrite Hw1.
    by destruct (Hrest _ eq_refl) as [_ ->].
Qed.

Lemma unsetSource_open f s w :
  closed (ego w) = false -> sourcesLock (ego w) = false ->
  unsetSource (S (S f)) s w =
    Done tt
      (let w1 := removed s w in
       if autoclose (ego w1) && bool_decide (len (sources (ego w1)) = 0)
       then set_closed true w1 else w1).
Proof.
  intros Hopen Hlock. rewrite unsetSource_open_fuel by done.
  cbv zeta. by destruct (autoclose _ && _).
Qed.

Lemma detached_keeps s w :
  sourcesLock (ego w) = false -> closed (ego w) = false ->
  (slen (sources (ego w)) <= length (arr (sources (ego w))))%nat ->
  keeps w (removed s w) /\ keeps w (set_closed true (removed s w)).
Proof.
  intros Hlock Hopen Hfit.
  destruct (removed_fits s w Hfit) as (Hf1 & Hf2 & Hf3).
  assert (Hsame : sourcesLock (ego (removed s w)) = false
               /\ nextToReadFrom (ego (removed s w)) = nextToReadFrom (ego w)
               /\ heap (removed s w) = heap w
               /\ tasks (removed s w) = tasks w
               /\ autoclose (ego (removed s w)) = autoclose (ego w)).
  { unfold removed. by destruct (find_first _ _). }
  destruct Hsame as (? & ? & ? & ? & ?).
  split; constructor; simpl; try done; congruence.
Qed.

Lemma unsetSource_ok f s w :
  sourcesLock (ego w) = false ->
  (slen (sources (ego w)) <= length (arr (sources (ego w))))%nat ->
  exists w', unsetSource (S (S f)) s w = Done tt w' /\ keeps w w'.
Proof.
  intros Hlock Hfit. destruct (closed (ego w)) eqn:Hc.
  - exists w. split; [by apply unsetSource_closed | by apply keeps_refl].
  - eexists. split; [by apply unsetSource_open|].
    destruct (detached_keeps s w) as [K1 K2]; try done.
    cbv zeta. by destruct (autoclose _ && _).
Qed.

(** With any fuel [unsetSource] returns or runs out of fuel: it neither
    panics nor waits on its own mutex. *)
Lemma unsetSource_safe f s w :
  sourcesLock (ego w) = false ->
  (slen (sources (ego w)) <= length (arr (sources (ego w))))%nat ->
  match unsetSource f s w with
  | Done _ w' => keeps w w'
  | OutOfFuel => True
  | _ => False
  end.
Proof.
  intros Hlock Hfit. destruct f as [|f]; [done|].
  destruct (closed (ego w)) eqn:Hc.
  - rewrite unsetSource_closed by done. by apply keeps_refl.
  - rewrite unsetSource_open_fuel by done.
    destruct (detached_keeps s w) as [K1 K2]; try done.
    cbv zeta. destruct (autoclose _ && _); [by destruct f|done].
Qed.

(** The range of [Close]: every position read exists, every detach
    returns. *)
Lemma Close_range_ok f n : forall i w,
  sourcesLock (ego w) = false ->
  (slen (sources (ego w)) <= length (arr (sources (ego w))))%nat ->
  (i + n <= length (arr (sources (ego w))))%nat ->
  exists w',
    range_loop
      (fun i =>
         let* w := get in
         match arr (sources (ego w)) !! i with
         | Some s => unsetSource (S (S f)) (Channeled s)
         | None => panic IndexOutOfRange
         end) i n w = Done tt w'
    /\ keeps w w'.
Proof.
  induction n as [|n IH]; intros i w Hlock Hfit Hin.
  - exists w. split; [done | by apply keeps_refl].
  - destruct (lookup_lt_is_Some_2 (arr (sources (ego w))) i) as [x Hx];
      [lia|].
    destruct (unsetSource_ok f (Channeled x) w Hlock Hfit) as (w1 & E1 & K1).
    destruct (IH (S i) w1) as (w2 & E2 & K2).
    { apply K1. } { apply K1. } { rewrite (keeps_cap _ _ K1). lia. }
    exists w2. split; [|by eapply keeps_trans].
    cbn [range_loop]. unfold bind at 1. unfold bind at 1. unfold get at 1.
    rewrite Hx, E1. exact E2.
Qed.

(** [Close] returns with the flag set, from any registry. *)
Lemma Close_ok f w :
  sourcesLock (ego w) = false ->
  (slen (sources (ego w)) <= length (arr (sources (ego w))))%nat ->
  exists w',
    Close (S (S (S f))) w = Done tt (set_closed true w') /\ keeps w w'.
Proof.
  intros Hlock Hfit.
  destruct (Close_range_ok f (slen (sources (ego w))) 0 w) as (w' & E & K);
    [done..|].
  exists w'. split; [|done].
  rewrite Close_unfold. unfold bind at 1. unfold get at 1.
  unfold bind at 1. rewrite E. reflexivity.
Qed.

Lemma set_closed_id w : closed (ego w) = true -> set_closed true w = w.
Proof. destruct w as [h ts [c srcs ac lk nx]]. simpl. by intros ->. Qed.

(** Detaching the only source attached. *)
Lemma removed_only r w :
  (slen (sources (ego w)) <= length (arr (sources (ego w))))%nat ->
  registry w = [r] ->
  removed (Channeled r) w = set_sources (delete_at (sources (ego w)) 0) w /\
  slen (delete_at (sources (ego w)) 0) = 0%nat /\
  registry (removed (Channeled r) w) = [].
Proof.
  intros Hfit Hreg.
  assert (Hlen : slen (sources (ego w)) = 1%nat).
  { rewrite <- (GoFacts.length_view (sources (ego w))) by done.
    unfold registry in Hreg. by rewrite Hreg. }
  assert (Hrem : removed (Channeled r) w
                 = set_sources (delete_at (sources (ego w)) 0) w).
  { unfold removed, find_first. unfold registry in Hreg. rewrite Hreg.
    simpl. by rewrite bool_decide_true. }
  assert (Hz : slen (delete_at (sources (ego w)) 0) = 0%nat).
  { rewrite GoFacts.delete_at_slen by lia. lia. }
  split; [done|]. split; [done|].
  rewrite Hrem. unfold registry, view. simpl. by rewrite Hz.
Qed.

Lemma removed_same s w :
  sourcesLock (ego (removed s w)) = sourcesLock (ego w) /\
  closed (ego (removed s w)) = closed (ego w) /\
  autoclose (ego (removed s w)) = autoclose (ego w) /\
  nextToReadFrom (ego (removed s w)) = nextToReadFrom (ego w) /\
  heap (removed s w) = heap w /\
  tasks (removed s w) = tasks w.
Proof. unfold removed. by destruct (find_first _ _). Qed.

Lemma unsetSource_only f r w :
  sourcesLock (ego w) = false ->
  (slen (sources (ego w)) <= length (arr (sources (ego w))))%nat ->
  closed (ego w) = false ->
  registry w = [r] ->
  unsetSource (S (S f)) (Channeled r) w =
    Done tt (if autoclose (ego w)
             then set_closed true (removed (Channeled r) w)
             else removed (Channeled r) w).
Proof.
  intros Hlock Hfit Hopen Hreg. rewrite unsetSource_open by done.
  destruct (removed_only r w Hfit Hreg) as (Hrem & Hz & _).
  destruct (removed_same (Channeled r) w) as (_ & _ & Hac & _).
  cbv zeta. rewrite Hac.
  assert (Hlen : len (sources (ego (removed (Channeled r) w))) = 0).
  { rewrite Hrem. unfold len. simpl. by rewrite Hz. }
  rewrite bool_decide_true by done. by rewrite andb_true_r.
Qed.

(** *** [Close] on three sources

    The range of [Close] runs over the array that [unsetSource] shifts. *)

Lemma range_loop_step (body : nat -> M (world T) unit) i n w w1 r :
  body i w = Done tt w1 ->
  range_loop body (S i) n w1 = r ->
  range_loop body i (S n) w = r.
Proof. intros H1 H2. cbn [range_loop]. unfold bind. by rewrite H1. Qed.

Lemma Close_visit f i x w :
  arr (sources (ego w)) !! i = Some x ->
  (let* w := get in
   match arr (sources (ego w)) !! i with
   | Some s => unsetSource f (Channeled s)
   | None => panic IndexOutOfRange
   end) w = unsetSource f (Channeled x) w.
Proof. intros H. unfold bind, get. by rewrite H. Qed.

(** With [a], [b], [c] attached and [b] different from [c], iteration 0
    detaches [a] and shifts the array to [b, c, c]; iteration 1 reads and
    detaches [c]; iteration 2 reads [c] again.  [b] is never detached. *)
Lemma Close_three_sources f ac (h : list (chan T)) ts nx (a b c : nat) :
  b <> c ->
  Close (S (S (S f)))
    (MkWorld h ts (MkActive false (MkSlice [a; b; c] 3) ac false nx))
  = Done tt (MkWorld h ts (MkActive true (MkSlice [b; c; c] 1) ac false nx)).
Proof.
  intros Hbc. assert (Hcb : c <> b) by congruence.
  rewrite Close_unfold. unfold bind at 1. unfold get at 1.
  cbn [ego sources slen]. unfold bind at 1.
  erewrite range_loop_step
    with (r := Done tt (MkWorld h ts
                 (MkActive false (MkSlice [b; c; c] 1) ac false nx)));
    [reflexivity| |].
  { rewrite (Close_visit _ _ a) by done. rewrite unsetSource_open by done.
    unfold removed, find_first, view. simpl.
    rewrite bool_decide_true by done. simpl. by rewrite andb_false_r. }
  eapply range_loop_step.
  { rewrite (Close_visit _ _ c) by done. rewrite unsetSource_open by done.
    unfold removed, find_first, view. simpl.
    rewrite bool_decide_false by congruence.
    rewrite bool_decide_true by done. simpl. by rewrite andb_false_r. }
  eapply range_loop_step; [|reflexivity].
  rewrite (Close_visit _ _ c) by done. rewrite unsetSource_open by done.
  unfold removed, find_first, view. simpl.
  rewrite bool_decide_false by congruence. simpl. by rewrite andb_false_r.
Qed.

(** *** The polling loop *)

Lemma add_one_no_wrap z : 0 <= z < max_int -> add z 1 = z + 1.
Proof.
  unfold add, wrap_int, max_int. intros H.
  rewrite Z.mod_small; lia.
Qed.

Lemma advance_in_bounds (e : activeMerger) :
  0 <= nextToReadFrom e < max_int ->
  0 < len (sources e) ->
  advance e = (nextToReadFrom e + 1) mod len (sources e) /\
  0 <= advance e < len (sources e).
Proof.
  intros Hc Hl. unfold advance, rem. rewrite add_one_no_wrap by done.
  rewrite Z.rem_mod_nonneg by lia.
  split; [done|]. apply Z.mod_pos_bound. lia.
Qed.

Lemma unlock_locked w :
  sourcesLock (ego w) = false ->
  sourcesLock_Unlock (set_sourcesLock true w) = Done tt w.
Proof. destruct w as [h ts [c srcs ac lk nx]]. simpl. by intros ->. Qed.

(** One turn of the loop from a well-formed state: it returns (or runs
    out of fuel inside the detach), the state stays well-formed, the
    cursor read was in bounds. *)
Lemma poll_safe f w :
  well_formed w ->
  match poll f w with
  | Done t w' =>
      well_formed w' /\
      (slen (sources (ego w')) <= slen (sources (ego w)))%nat /\
      (slen (sources (ego w)) <> 0%nat ->
       nextToReadFrom (ego w') = advance (ego w))
  | OutOfFuel => True
  | _ => False
  end.
Proof.
  intros (Hlock & Hfit & Hmax & Hcur).
  unfold poll. unfold bind at 1. unfold sourcesLock_Lock, lock.
  rewrite Hlock. unfold bind at 1. unfold get at 1.
  replace (sources (ego (set_sourcesLock true w))) with (sources (ego w))
    by done.
  case_bool_decide as Hlen.
  { unfold bind. rewrite unlock_locked by done. unfold ret.
    unfold well_formed, len in *. intuition lia. }
  assert (Hpos : 0 < len (sources (ego w))) by (unfold len in *; lia).
  replace (advance (ego (set_sourcesLock true w))) with (advance (ego w))
    by done.
  destruct (advance_in_bounds (ego w) Hcur Hpos) as [_ Hadv].
  destruct (GoFacts.index_in_bounds (sources (ego w)) (advance (ego w)))
    as [r Hr]; [done..|].
  unfold bind at 1. unfold modify at 1. unfold bind at 1. unfold get at 1.
  replace (index (sources (ego (set_nextToReadFrom (advance (ego w))
                                  (set_sourcesLock true w))))
             (nextToReadFrom (ego (set_nextToReadFrom (advance (ego w))
                                     (set_sourcesLock true w)))))
    with (index (sources (ego w)) (advance (ego w))) by done.
  rewrite Hr.
  set (wc := set_nextToReadFrom (advance (ego w)) w).
  assert (Hwc : set_nextToReadFrom (advance (ego w)) (set_sourcesLock true w)
                = set_sourcesLock true wc) by done.
  rewrite Hwc.
  assert (Hwf : well_formed wc).
  { unfold well_formed, wc. simpl. repeat split; try done; lia. }
  assert (Hlk : sourcesLock (ego wc) = false) by done.
  destruct (receive (Channel (set_sourcesLock true wc) r)) as [v c'| |].
  - unfold bind, modify.
    assert (E : set_chan r c' (set_sourcesLock true wc)
                = set_sourcesLock true (set_chan r c' wc)) by done.
    rewrite E, unlock_locked by done. unfold ret.
    unfold well_formed, len in *. simpl. intuition lia.
  - unfold bind at 1. rewrite unlock_locked by done.
    unfold bind at 1.
    pose proof (unsetSource_safe f (Channeled r) wc Hlk Hfit) as Hsafe.
    destruct (unsetSource f (Channeled r) wc) as [[] w'| | |]; try done.
    unfold ret. destruct Hsafe as [K1 K2 K3 K4 K5 _ _ _ _].
    unfold well_formed, len in *. rewrite K5. simpl in *.
    intuition lia.
  - unfold bind. rewrite unlock_locked by done. unfold ret.
    unfold well_formed, len in *. simpl. intuition lia.
Qed.

(** How a turn ends: a break only on an empty registry, a value only
    with [valid] set and no error. *)
Lemma poll_turn f w t w' :
  poll f w = Done t w' ->
  match t with
  | Break => slen (sources (ego w')) = 0%nat
  | Continue => True
  | Return _ valid err => valid = true /\ err = None
  end.
Proof.
  unfold poll. unfold bind at 1. unfold sourcesLock_Lock, lock.
  destruct (sourcesLock (ego w)) eqn:Hlock; [discriminate|].
  unfold bind at 1. unfold get at 1.
  case_bool_decide as Hlen.
  { unfold bind, sourcesLock_Unlock, unlock. simpl. unfold ret.
    intros [= <- <-]. simpl in *. unfold len in *. simpl in *. lia. }
  unfold bind at 1. unfold modify at 1. unfold bind at 1. unfold get at 1.
  destruct (index _ _) as [r|]; [|discriminate].
  destruct (receive _) as [v c'| |].
  - unfold bind, modify, sourcesLock_Unlock, unlock. simpl. unfold ret.
    by intros [= <- <-].
  - unfold bind at 1. unfold sourcesLock_Unlock, unlock. simpl.
    unfold bind. destruct (unsetSource _ _ _); try discriminate.
    unfold ret. by intros [= <- <-].
  - unfold bind, sourcesLock_Unlock, unlock. simpl. unfold ret.
    by intros [= <- <-].
Qed.

Lemma after_loop_eq w :
  after_loop zero w =
    Done (if closed (ego w) then (zero, false, None)
          else (zero, true, errNoSources)) w.
Proof. unfold after_loop, bind, Closed, ret. by destruct (closed (ego w)). Qed.

(** The three ways [Consume] returns. *)
Lemma Consume_result fuel : forall w value valid err w',
  Consume zero fuel w = Done (value, valid, err) w' ->
  (valid = true /\ err = None) \/
  (slen (sources (ego w')) = 0%nat /\ value = zero /\
   closed (ego w') = true /\ valid = false /\ err = None) \/
  (slen (sources (ego w')) = 0%nat /\ value = zero /\
   closed (ego w') = false /\ valid = true /\ err = errNoSources).
Proof.
  induction fuel as [|f IH]; intros w value valid err w'; [discriminate|].
  cbn [Consume]. unfold bind at 1.
  destruct (poll f w) as [t w1| | |] eqn:Hpoll; try discriminate.
  apply poll_turn in Hpoll. destruct t as [| |v b e].
  - rewrite after_loop_eq. intros [= E <-].
    destruct (closed (ego w1)) eqn:Hc; injection E as <- <- <-; auto 10.
  - apply IH.
  - unfold ret. intros [= <- <- <- <-]. left. tauto.
Qed.

(** On an empty registry the loop exits at once and the state is left
    as it was. *)
Lemma Consume_empty f w :
  sourcesLock (ego w) = false -> slen (sources (ego w)) = 0%nat ->
  Consume zero (S f) w =
    Done (if closed (ego w) then (zero, false, None)
          else (zero, true, errNoSources)) w.
Proof.
  intros Hlock Hlen. cbn [Consume]. unfold bind at 1.
  unfold poll. unfold bind at 1. unfold sourcesLock_Lock, lock.
  rewrite Hlock. unfold bind at 1. unfold get at 1.
  rewrite bool_decide_true by (unfold len; simpl; lia).
  unfold bind at 1. rewrite unlock_locked by done.
  unfold ret. apply after_loop_eq.
Qed.

Lemma Consume_safe fuel : forall w,
  well_formed w ->
  match Consume zero fuel w with
  | Panics _ _ | Blocks _ => False
  | _ => True
  end.
Proof.
  induction fuel as [|f IH]; intros w Hwf; [done|].
  cbn [Consume]. unfold bind at 1.
  pose proof (poll_safe f w Hwf) as Hp.
  destruct (poll f w) as [t w1| | |]; try done.
  destruct Hp as [Hwf1 _]. destruct t.
  - by rewrite after_loop_eq.
  - by apply IH.
  - done.
Qed.

(** *** Attaching *)

Lemma SetSource_closed s w :
  closed (ego w) = true -> SetSource s w = Done errClosed w.
Proof. intros H. unfold SetSource, bind, Closed. by rewrite H. Qed.

Lemma SetSource_channeled r w :
  closed (ego w) = false -> sourcesLock (ego w) = false ->
  SetSource (Channeled r) w =
    Done None (set_sources (append (sources (ego w)) [r]) w).
Proof.
  intros Hopen Hlock. unfold SetSource. unfold bind at 1. unfold Closed.
  rewrite Hopen.
  unfold bind, sourcesLock_Lock, lock, append_source, modify. rewrite Hlock.
  replace (set_sources (append (sources (ego (set_sourcesLock true w))) [r])
             (set_sourcesLock true w))
    with (set_sourcesLock true
            (set_sources (append (sources (ego w)) [r]) w)) by done.
  by rewrite unlock_locked.
Qed.

Lemma SetSource_plain p w :
  closed (ego w) = false -> sourcesLock (ego w) = false ->
  SetSource (Plain p) w =
    Done None
      (set_sources (append (sources (ego w)) [length (heap w)])
         (MkWorld (heap w ++ [NewChanneledInput 0])
            (tasks w ++ [(p, length (heap w))]) (ego w))).
Proof.
  intros Hopen Hlock. unfold SetSource. unfold bind at 1. unfold Closed.
  rewrite Hopen.
  unfold bind, alloc_chan, spawn, sourcesLock_Lock, lock, append_source,
    modify. simpl. rewrite Hlock.
  set (w0 := MkWorld (heap w ++ [NewChanneledInput 0])
               (tasks w ++ [(p, length (heap w))]) (ego w)).
  replace (set_sources _ (set_sourcesLock true w0))
    with (set_sourcesLock true
            (set_sources (append (sources (ego w)) [length (heap w)]) w0))
    by done.
  by rewrite unlock_locked.
Qed.

Lemma NewActiveMerger_well_formed ac (h : list (chan T)) :
  well_formed (NewActiveMerger ac h).
Proof. unfold well_formed, max_int. simpl. unfold len. simpl. lia. Qed.

Lemma registry_nil w :
  (slen (sources (ego w)) <= length (arr (sources (ego w))))%nat ->
  registry w = [] <-> slen (sources (ego w)) = 0%nat.
Proof.
  intros Hfit. unfold registry. split.
  - intros H. rewrite <- (GoFacts.length_view (sources (ego w))) by done.
    by rewrite H.
  - unfold view. by intros ->.
Qed.

(** A value waiting in the only attached source is what the next
    [Consume] returns. *)
Lemma Consume_single_ready f w r v rest c k :
  sourcesLock (ego w) = false ->
  (slen (sources (ego w)) <= length (arr (sources (ego w))))%nat ->
  registry w = [r] ->
  heap w !! r = Some (MkChan k (v :: rest) c) ->
  Consume zero (S f) w =
    Done (v, true, None)
      (set_chan r (MkChan k rest c) (set_nextToReadFrom 0 w)).
Proof.
  intros Hlock Hfit Hreg Hheap.
  assert (Hlen : slen (sources (ego w)) = 1%nat).
  { rewrite <- (GoFacts.length_view (sources (ego w))) by done.
    unfold registry in Hreg. by rewrite Hreg. }
  assert (Harr : arr (sources (ego w)) !! 0%nat = Some r).
  { unfold registry, view in Hreg. rewrite Hlen in Hreg.
    rewrite <- (lookup_take_lt _ 1) by lia. by rewrite Hreg. }
  assert (Hadv : advance (ego w) = 0).
  { unfold advance, rem, len. rewrite Hlen. apply Z.rem_1_r. }
  cbn [Consume]. unfold bind at 1.
  unfold poll. unfold bind at 1. unfold sourcesLock_Lock, lock.
  rewrite Hlock. unfold bind at 1. unfold get at 1.
  rewrite bool_decide_false by (unfold len; simpl; lia).
  unfold bind at 1. unfold modify at 1. unfold bind at 1. unfold get at 1.
  replace (advance (ego (set_sourcesLock true w))) with 0 by done.
  replace (index _ _) with (Some r).
  2:{ unfold index, len. simpl. rewrite Hlen.
      by rewrite bool_decide_true by lia. }
  replace (receive _) with (RecvValue v (MkChan k rest c)).
  2:{ unfold receive, Channel. simpl. by rewrite Hheap. }
  unfold bind, modify.
  replace (set_chan r _ _)
    with (set_sourcesLock true
            (set_chan r (MkChan k rest c) (set_nextToReadFrom 0 w))) by done.
  by rewrite unlock_locked.
Qed.

(** The loop takes the registry mutex before anything else: entered with
    the mutex held, a turn waits. *)
Lemma poll_takes_lock f w :
  sourcesLock (ego w) = true -> poll f w = Blocks w.
Proof.
  intros H. unfold poll, bind, sourcesLock_Lock, lock. by rewrite H.
Qed.

(** *** Well-formedness is kept by every method *)

Lemma unsetSource_well_formed f s w :
  well_formed w ->
  match unsetSource f s w with
  | Done _ w' => well_formed w'
  | OutOfFuel => True
  | _ => False
  end.
Proof.
  intros Hwf. pose proof Hwf as (Hlock & Hfit & _).
  pose proof (unsetSource_safe f s w Hlock Hfit) as H.
  destruct (unsetSource f s w); try done. by eapply keeps_well_formed.
Qed.

Lemma Close_well_formed f w :
  well_formed w ->
  exists w', Close (S (S (S f))) w = Done tt w' /\ well_formed w' /\
             closed (ego w') = true.
Proof.
  intros Hwf. pose proof Hwf as (Hlock & Hfit & _).
  destruct (Close_ok f w Hlock Hfit) as (w' & E & K).
  exists (set_closed true w'). split; [done|]. split; [|done].
  apply (keeps_well_formed w w') in K; [|done]. exact K.
Qed.

Lemma SetSource_well_formed s w :
  well_formed w -> len (sources (ego w)) < max_int ->
  exists e w', SetSource s w = Done e w' /\ well_formed w'.
Proof.
  intros Hwf Hroom. pose proof Hwf as (Hlock & Hfit & Hmax & Hcur).
  destruct (closed (ego w)) eqn:Hc.
  - exists errClosed, w. split; [by apply SetSource_closed | done].
  - destruct s as [r|p]; eexists None, _.
    + split; [by apply SetSource_channeled|].
      unfold well_formed, len in *. simpl.
      rewrite GoFacts.slen_append. simpl.
      pose proof (GoFacts.append_fits (sources (ego w)) [r] Hfit) as Hf.
      rewrite GoFacts.slen_append in Hf. simpl in Hf. intuition lia.
    + split; [by apply SetSource_plain|].
      unfold well_formed, len in *. simpl.
      rewrite GoFacts.slen_append. simpl.
      pose proof (GoFacts.append_fits (sources (ego w)) [length (heap w)] Hfit)
        as Hf.
      rewrite GoFacts.slen_append in Hf. simpl in Hf. intuition lia.
Qed.

Lemma Consume_well_formed fuel : forall w r w',
  well_formed w -> Consume zero fuel w = Done r w' -> well_formed w'.
Proof.
  induction fuel as [|f IH]; intros w r w' Hwf; [discriminate|].
  cbn [Consume]. unfold bind at 1.
  pose proof (poll_safe f w Hwf) as Hp.
  destruct (poll f w) as [t w1| | |]; try done.
  destruct Hp as [Hwf1 _]. destruct t.
  - rewrite after_loop_eq. by intros [= _ <-].
  - by apply IH.
  - unfold ret. by intros [= _ <-].
Qed.

Lemma index_elem_of {A} (s : slice A) i x :
  (slen s <= length (arr s))%nat -> index s i = Some x -> x ∈ view s.
Proof.
  intros Hfit. unfold index. case_bool_decide as Hi; [|done].
  intros Hx. apply list_elem_of_lookup. exists (Z.to_nat i).
  unfold view. rewrite lookup_take_lt; [done|]. unfold len in Hi. lia.
Qed.

(** One turn on a non-empty registry, by what the polled channel holds. *)
Lemma poll_nonempty f w r :
  sourcesLock (ego w) = false ->
  slen (sources (ego w)) <> 0%nat ->
  index (sources (ego w)) (advance (ego w)) = Some r ->
  poll f w =
    match receive (Channel w r) with
    | RecvValue value c' =>
        Done (Return value true None) (set_chan r c' (advanced w))
    | RecvClosed =>
        (unsetSource f (Channeled r) >> ret Continue) (advanced w)
    | RecvNotReady => Done Continue (advanced w)
    end.
Proof.
  intros Hlock Hlen Hr.
  unfold poll. unfold bind at 1. unfold sourcesLock_Lock, lock.
  rewrite Hlock. unfold bind at 1. unfold get at 1.
  rewrite bool_decide_false by (unfold len; simpl; lia).
  unfold bind at 1. unfold modify at 1. unfold bind at 1. unfold get at 1.
  replace (index _ _) with (Some r) by (by rewrite <- Hr).
  replace (Channel _ r) with (Channel w r) by done.
  assert (Hlk : sourcesLock (ego (advanced w)) = false) by done.
  destruct (receive (Channel w r)) as [v c'| |].
  - unfold bind, modify.
    replace (set_chan r c' _)
      with (set_sourcesLock true (set_chan r c' (advanced w))) by done.
    by rewrite unlock_locked.
  - replace (index _ _) with (Some r) by (by rewrite <- Hr).
    unfold bind at 1.
    replace (set_nextToReadFrom _ _)
      with (set_sourcesLock true (advanced w)) by done.
    by rewrite unlock_locked.
  - unfold bind.
    replace (set_nextToReadFrom _ _)
      with (set_sourcesLock true (advanced w)) by done.
    by rewrite unlock_locked.
Qed.

Lemma advanced_well_formed w :
  well_formed w -> slen (sources (ego w)) <> 0%nat ->
  well_formed (advanced w) /\
  exists r, index (sources (ego w)) (advance (ego w)) = Some r /\
            r ∈ registry w.
Proof.
  intros (Hlock & Hfit & Hmax & Hcur) Hlen.
  destruct (advance_in_bounds (ego w) Hcur) as [_ Hadv];
    [unfold len; lia|].
  split.
  - unfold well_formed, advanced. simpl. intuition lia.
  - destruct (GoFacts.index_in_bounds (sources (ego w)) (advance (ego w)))
      as [r Hr]; [done..|].
    exists r. split; [done|]. by eapply index_elem_of.
Qed.

(** One turn of the loop from a well-formed state returns: on an empty
    registry it breaks and leaves the state as it is; otherwise it reads
    the channel of the source at the advanced cursor, and goes on by what
    that channel holds. *)
Lemma poll_total f w :
  well_formed w ->
  exists t w',
    poll (2 + f) w = Done t w' /\ well_formed w' /\
    (registry w = [] -> t = Break /\ w' = w) /\
    (registry w <> [] ->
     nextToReadFrom (ego w') = advance (ego w) /\
     exists r,
       index (sources (ego w)) (advance (ego w)) = Some r /\
       match receive (Channel w r) with
       | RecvValue value c' =>
           t = Return value true None /\ w' = set_chan r c' (advanced w)
       | RecvClosed =>
           t = Continue /\
           unsetSource (2 + f) (Channeled r) (advanced w) = Done tt w'
       | RecvNotReady => t = Continue /\ w' = advanced w
       end).
Proof.
  intros Hwf. pose proof Hwf as (Hlock & Hfit & Hmax & Hcur).
  destruct (decide (slen (sources (ego w)) = 0%nat)) as [Hz|Hnz].
  - exists Break, w. split.
    { unfold poll. unfold bind at 1. unfold sourcesLock_Lock, lock.
      rewrite Hlock. unfold bind at 1. unfold get at 1.
      rewrite bool_decide_true by (unfold len; simpl; lia).
      unfold bind. by rewrite unlock_locked. }
    split; [done|]. split; [done|].
    intros Hne. destruct Hne. unfold registry, view. by rewrite Hz.
  - destruct (advanced_well_formed w Hwf Hnz) as (Hwfa & r & Hr & Hin).
    assert (Hne : registry w = [] -> False).
    { intros Hreg. apply Hnz. by apply registry_nil. }
    rewrite (poll_nonempty _ w r) by done.
    destruct (receive (Channel w r)) as [v c'| |] eqn:Hrecv.
    + exists (Return v true None), (set_chan r c' (advanced w)).
      split; [done|]. split; [exact Hwfa|].
      split; [intros Hreg; by destruct (Hne Hreg)|].
      intros _. split; [done|]. exists r. split; [done|].
      by rewrite Hrecv.
    + destruct (unsetSource_ok f (Channeled r) (advanced w))
        as (w' & E & K); [apply Hwfa..|].
      change (S (S f)) with (2 + f)%nat in E.
      exists Continue, w'. split.
      { unfold bind. by rewrite E. }
      split; [by apply (keeps_well_formed (advanced w))|].
      split; [intros Hreg; by destruct (Hne Hreg)|].
      intros _. split; [by rewrite (keeps_cursor _ _ K)|].
      exists r. split; [done|]. by rewrite Hrecv.
    + exists Continue, (advanced w).
      split; [done|]. split; [exact Hwfa|].
      split; [intros Hreg; by destruct (Hne Hreg)|].
      intros _. split; [done|]. exists r. split; [done|].
      by rewrite Hrecv.
Qed.

(** Whenever [Consume] returns, the registry is empty or the cursor is
    on one of its entries. *)
Lemma Consume_cursor fuel : forall w r w',
  well_formed w -> Consume zero fuel w = Done r w' ->
  registry w' = [] \/
  0 <= nextToReadFrom (ego w') < len (sources (ego w')).
Proof.
  induction fuel as [|f IH]; intros w r w' Hwf; [discriminate|].
  pose proof Hwf as (Hlock & Hfit & Hmax & Hcur).
  cbn [Consume]. unfold bind at 1.
  pose proof (poll_safe f w Hwf) as Hp.
  destruct (poll f w) as [t w1| | |] eqn:Hpoll; try done.
  destruct Hp as (Hwf1 & _ & Hadv). destruct t as [| |v b e].
  - apply poll_turn in Hpoll. rewrite after_loop_eq. intros [= _ <-].
    left. unfold registry, view. by rewrite Hpoll.
  - by apply IH.
  - unfold ret. intros [= _ <-]. right.
    destruct (decide (slen (sources (ego w)) = 0%nat)) as [Hz|Hnz].
    { exfalso. revert Hpoll. unfold poll. unfold bind at 1.
      unfold sourcesLock_Lock, lock. rewrite Hlock.
      unfold bind at 1. unfold get at 1.
      rewrite bool_decide_true by (unfold len; simpl; lia).
      unfold bind. by rewrite unlock_locked. }
    destruct (advanced_well_formed w Hwf Hnz) as (_ & q & Hq & _).
    rewrite (poll_nonempty _ w q) in Hpoll by done.
    destruct (advance_in_bounds (ego w) Hcur) as [_ Hb];
      [unfold len; lia|].
    destruct (receive (Channel w q)) as [v' c'| |].
    + injection Hpoll as _ _ _ <-. exact Hb.
    + unfold bind in Hpoll. by destruct (unsetSource _ _ _).
    + discriminate.
Qed.

(** *** The claims on [Consume] *)

(** C4: when the polling loop of [activeMerger.Consume] exits on an empty
    registry, a closed merger yields end-of-stream ([valid = false], no
    error) and an open one yields the "no sources" error.  The error is
    recoverable: the merger is unchanged and still open, [SetSource]
    attaches a new source, and the retry delivers what that source
    holds. *)
Theorem Consume_empty_registry f w :
  well_formed w ->
  registry w = [] ->
  (closed (ego w) = true ->
   Consume zero (S f) w = Done (zero, false, None) w) /\
  (closed (ego w) = false ->
   Consume zero (S f) w = Done (zero, true, errNoSources) w /\
   forall r,
     exists w1,
       SetSource (Channeled r) w = Done None w1 /\
       registry w1 = [r] /\ closed (ego w1) = false /\
       forall k v rest c,
         heap w !! r = Some (MkChan k (v :: rest) c) ->
         exists w2, Consume zero (S f) w1 = Done (v, true, None) w2).
Proof.
  intros (Hlock & Hfit & _ & _) Hreg.
  assert (Hlen : slen (sources (ego w)) = 0%nat) by by apply registry_nil.
  split; intros Hc.
  - rewrite Consume_empty by done. by rewrite Hc.
  - split; [rewrite Consume_empty by done; by rewrite Hc|].
    intros r. eexists. split; [by apply SetSource_channeled|].
    assert (Hreg1 : registry (set_sources (append (sources (ego w)) [r]) w)
                    = [r]).
    { unfold registry. simpl. rewrite GoFacts.view_append by done.
      unfold registry in Hreg. by rewrite Hreg. }
    split; [done|]. split; [done|].
    intros k v rest c Hheap. eexists.
    apply Consume_single_ready with (rest := rest) (c := c) (k := k);
      try done.
    simpl. by apply GoFacts.append_fits.
Qed.

(** C8: on every poll attempt the cursor becomes
    [(cursor + 1) mod len(registry)]; with a non-empty registry that
    value lies in [0, len(registry)) and the registry has an entry
    there.  A turn of the loop from a well-formed merger returns, with
    the mutex released and the merger well-formed, also when it detaches
    a source: on an empty registry it breaks, otherwise it leaves the
    cursor on the advanced position and has read the channel of the
    source there; [Consume] is that turn followed by what the turn says.
    So no turn of [Consume] indexes out of bounds: [Consume] never
    panics and never waits on its own mutex, and whenever it returns the
    registry is empty or the cursor is on one of its entries.  The turn
    starts by taking the registry mutex: with the mutex held by someone
    else it does nothing but wait. *)
Theorem Consume_cursor_in_bounds w :
  well_formed w ->
  (registry w <> [] ->
   advance (ego w)
     = (nextToReadFrom (ego w) + 1) mod len (sources (ego w)) /\
   0 <= advance (ego w) < len (sources (ego w)) /\
   is_Some (index (sources (ego w)) (advance (ego w)))) /\
  (forall f,
     exists t w',
       poll (2 + f) w = Done t w' /\ well_formed w' /\
       Consume zero (3 + f) w
       = match t with
         | Break => after_loop zero w'
         | Continue => Consume zero (2 + f) w'
         | Return value valid err => Done (value, valid, err) w'
         end /\
       (registry w = [] -> t = Break /\ w' = w) /\
       (registry w <> [] ->
        nextToReadFrom (ego w') = advance (ego w) /\
        exists r,
          index (sources (ego w)) (advance (ego w)) = Some r /\
          match receive (Channel w r) with
          | RecvValue value c' =>
              t = Return value true None /\
              w' = set_chan r c' (advanced w)
          | RecvClosed =>
              t = Continue /\
              unsetSource (2 + f) (Channeled r) (advanced w) = Done tt w'
          | RecvNotReady => t = Continue /\ w' = advanced w
          end)) /\
  (forall fuel,
     match Consume zero fuel w with
     | Panics _ _ | Blocks _ => False
     | Done _ w' =>
         well_formed w' /\
         (registry w' = [] \/
          0 <= nextToReadFrom (ego w') < len (sources (ego w')))
     | OutOfFuel => True
     end) /\
  (forall f, poll f (set_sourcesLock true w) = Blocks (set_sourcesLock true w)).
Proof.
  intros Hwf. pose proof Hwf as (Hlock & Hfit & Hmax & Hcur).
  assert (Hne : registry w <> [] -> slen (sources (ego w)) <> 0%nat).
  { intros H1 H2. apply H1. by apply registry_nil. }
  split; [|split; [|split; [|intros f; by apply poll_takes_lock]]].
  - intros Hreg. apply Hne in Hreg.
    destruct (advance_in_bounds (ego w)) as [E B];
      [done | unfold len; lia |].
    split; [done|]. split; [done|]. by apply GoFacts.index_in_bounds.
  - intros f. destruct (poll_total f w Hwf) as (t & w' & E & Hwf' & H0 & H1).
    exists t, w'. split; [done|]. split; [done|]. split; [|done].
    change (3 + f)%nat with (S (2 + f)). cbn [Consume].
    unfold bind at 1. rewrite E. by destruct t.
  - intros fuel. pose proof (Consume_safe fuel w Hwf) as Hs.
    destruct (Consume zero fuel w) as [r w'| | |] eqn:E; try done.
    split; [by eapply Consume_well_formed|by eapply Consume_cursor].
Qed.

(** C10: whenever [activeMerger.Consume] returns an error it is the
    "no sources" error of an open merger with an empty registry, and the
    tuple carries [valid = true] with the zero value.  A source holding
    the zero value makes [Consume] return the same value and the same
    flag with no error, so the flag alone does not tell them apart. *)
Theorem Consume_error_carries_valid :
  (forall fuel w value valid msg w',
     Consume zero fuel w = Done (value, valid, Some msg) w' ->
     value = zero /\ valid = true /\ Some msg = errNoSources /\
     closed (ego w') = false /\ registry w' = []) /\
  (forall f ac k,
     exists w',
       Consume zero (S f)
         (MkWorld [MkChan k [zero] false] []
            (MkActive false (MkSlice [0%nat] 1) ac false 0))
       = Done (zero, true, None) w').
Proof.
  split.
  - intros fuel w value valid msg w' H.
    apply Consume_result in H
      as [[_ ?]|[(_ & _ & _ & _ & ?)|(Hlen & -> & Hc & -> & ->)]];
      try discriminate.
    repeat split; try done. unfold registry, view. by rewrite Hlen.
  - intros f ac k. eexists.
    by apply Consume_single_ready
      with (r := 0%nat) (rest := []) (c := false) (k := k).
Qed.

End WithT.
End ActiveMergerFacts.

(* ===================================================================== *)
(** ** channeledLazyMerger: detach, close and read *)
(* ===================================================================== *)

Module LazyMergerFacts.
Import LazyMerger.
Section WithT.
Context {T : Type} (zero : T).
Implicit Types (w : world T) (s : Producer).

Lemma lazy_Close_unfold f :
  Close (T:=T) (S f) =
    (sourcesLock_Lock >> close_loop f >> sourcesLock_Unlock >>
     ChanneledInput_Close').
Proof. reflexivity. Qed.

Lemma close_loop_unfold f :
  close_loop (T:=T) (S f) =
    (let* w := get in
     if bool_decide (len (sources (ego w)) > 0)
     then
       match index (sources (ego w)) 0 with
       | None => panic IndexOutOfRange
       | Some s =>
           sourcesLock_Unlock >> unsetSource f s >> sourcesLock_Lock >>
           close_loop f
       end
     else ret tt).
Proof. reflexivity. Qed.

Lemma lazy_unsetSource_unfold f s :
  unsetSource (T:=T) (S f) s =
    (let* c := Closed in
     if c then ret tt
     else
       sourcesLock_Lock >>
       remove_source s >>
       let* w := get in
       if autoclose (ego w) && bool_decide (len (sources (ego w)) = 0)
       then sourcesLock_Unlock >> Close f
       else sourcesLock_Unlock).
Proof. reflexivity. Qed.

Lemma lock_free w :
  sourcesLock (ego w) = false ->
  sourcesLock_Lock w = Done tt (set_sourcesLock true w).
Proof. intros H. unfold sourcesLock_Lock, lock. by rewrite H. Qed.

Lemma lazy_unlock_locked w :
  sourcesLock (ego w) = false ->
  sourcesLock_Unlock (set_sourcesLock true w) = Done tt w.
Proof. destruct w as [ts [c srcs ac ov lk ol]]. simpl. by intros ->. Qed.

Lemma closed_input_id w :
  chclosed (input (ego w)) = true -> closed_input w = w.
Proof.
  destruct w as [ts [[k b c] srcs ac ov lk ol]]. simpl. by intros ->.
Qed.

(** [Close] on an empty registry only closes the shared buffer. *)
Lemma lazy_Close_empty f w :
  sourcesLock (ego w) = false -> slen (sources (ego w)) = 0%nat ->
  Close (S (S f)) w = Done tt (closed_input w).
Proof.
  intros Hlock Hlen. rewrite lazy_Close_unfold.
  unfold bind at 1. rewrite lock_free by done.
  unfold bind at 1. rewrite close_loop_unfold.
  unfold bind at 1. unfold get at 1.
  rewrite bool_decide_false by (unfold len; simpl; lia).
  unfold ret, bind. by rewrite lazy_unlock_locked.
Qed.

Lemma lazy_unsetSource_closed f s w :
  chclosed (input (ego w)) = true -> unsetSource (S f) s w = Done tt w.
Proof.
  intros H. rewrite lazy_unsetSource_unfold. unfold bind, Closed.
  unfold ChanneledInput_Closed. by rewrite H.
Qed.

(** The effect of [unsetSource] on an open merger. *)
Lemma lazy_unsetSource_open f s w :
  chclosed (input (ego w)) = false -> sourcesLock (ego w) = false ->
  unsetSource (S (S (S f))) s w =
    Done tt
      (let w1 := removed s w in
       if autoclose (ego w1) && bool_decide (len (sources (ego w1)) = 0)
       then closed_input w1 else w1).
Proof.
  intros Hopen Hlock. rewrite lazy_unsetSource_unfold.
  unfold bind at 1. unfold Closed, ChanneledInput_Closed. rewrite Hopen.
  unfold bind at 1. rewrite lock_free by done.
  unfold bind at 1. unfold remove_source, modify.
  unfold bind at 1. unfold get at 1.
  assert (Hw1 : removed s (set_sourcesLock true w)
                = set_sourcesLock true (removed s w)).
  { unfold removed. simpl. by destruct (find_first _ _). }
  assert (Hlk : sourcesLock (ego (removed s w)) = false).
  { unfold removed. by destruct (find_first _ _). }
  rewrite Hw1. cbv zeta.
  replace (autoclose (ego (set_sourcesLock true (removed s w))))
    with (autoclose (ego (removed s w))) by done.
  replace (sources (ego (set_sourcesLock true (removed s w))))
    with (sources (ego (removed s w))) by done.
  destruct (autoclose (ego (removed s w))
            && bool_decide (len (sources (ego (removed s w))) = 0))
    eqn:Hauto.
  - unfold bind. rewrite lazy_unlock_locked by done.
    apply andb_prop in Hauto as [_ Hlen]. apply bool_decide_eq_true in Hlen.
    apply lazy_Close_empty; [done | unfold len in Hlen; lia].
  - by apply lazy_unlock_locked.
Qed.

(** What [Close] and [unsetSource] leave alone. *)
Record keeps w w' : Prop := MkKeeps {
  keeps_lock : sourcesLock (ego w') = false;
  keeps_fits : (slen (sources (ego w')) <= length (arr (sources (ego w'))))%nat;
  keeps_tasks : tasks w' = tasks w;
  keeps_autoclose : autoclose (ego w') = autoclose (ego w);
  keeps_overflow : overflowBuffer (ego w') = overflowBuffer (ego w);
  keeps_overflowLock : overflowBufferLock (ego w') = overflowBufferLock (ego w);
  keeps_buf : buf (input (ego w')) = buf (input (ego w));
  keeps_closed :
    chclosed (input (ego w)) = true -> chclosed (input (ego w')) = true;
}.

Lemma lazy_keeps_refl w :
  sourcesLock (ego w) = false ->
  (slen (sources (ego w)) <= length (arr (sources (ego w))))%nat ->
  keeps w w.
Proof. intros. by constructor. Qed.

Lemma lazy_keeps_trans w1 w2 w3 : keeps w1 w2 -> keeps w2 w3 -> keeps w1 w3.
Proof. intros [] []. constructor; try congruence; auto. Qed.

(** Detaching the source at the front of the registry. *)
Lemma removed_front s w n :
  (slen (sources (ego w)) <= length (arr (sources (ego w))))%nat ->
  slen (sources (ego w)) = S n ->
  index (sources (ego w)) 0 = Some s ->
  removed s w = set_sources (delete_at (sources (ego w)) 0) w /\
  slen (delete_at (sources (ego w)) 0) = n /\
  (n <= length (arr (delete_at (sources (ego w)) 0)))%nat /\
  view (delete_at (sources (ego w)) 0) = drop 1 (view (sources (ego w))).
Proof.
  intros Hfit Hlen Hidx.
  assert (Hfind : find_first (fun source => bool_decide (source = s))
                    (sources (ego w)) = Some 0%nat).
  { unfold index in Hidx. case_bool_decide; [|done]. simpl in Hidx.
    unfold find_first, view. rewrite Hlen.
    destruct (arr (sources (ego w))) as [|x l]; [done|].
    simpl in *. injection Hidx as ->. by rewrite bool_decide_true. }
  unfold removed. rewrite Hfind. split; [done|].
  rewrite GoFacts.delete_at_slen, GoFacts.delete_at_arr_length,
    GoFacts.view_delete_at by lia.
  rewrite Hlen. repeat split; try lia; done.
Qed.

Lemma index_front w n :
  (slen (sources (ego w)) <= length (arr (sources (ego w))))%nat ->
  slen (sources (ego w)) = S n ->
  exists s, index (sources (ego w)) 0 = Some s.
Proof.
  intros Hfit Hlen. apply GoFacts.index_in_bounds; [done|].
  unfold len. lia.
Qed.

(** The loop of [Close], entered with the mutex held: it empties the
    registry and leaves with the mutex held. *)
Lemma close_loop_ok n : forall k w,
  sourcesLock (ego w) = false ->
  (slen (sources (ego w)) <= length (arr (sources (ego w))))%nat ->
  slen (sources (ego w)) = n ->
  (chclosed (input (ego w)) = true -> n = 0%nat) ->
  exists w',
    close_loop (n + 3 + k) (set_sourcesLock true w)
      = Done tt (set_sourcesLock true w')
    /\ keeps w w' /\ slen (sources (ego w')) = 0%nat.
Proof.
  induction n as [|n IH]; intros k w Hlock Hfit Hlen Hinv.
  - exists w. split; [|split; [by apply lazy_keeps_refl | done]].
    replace (0 + 3 + k)%nat with (S (2 + k)) by lia.
    rewrite close_loop_unfold. unfold bind, get.
    by rewrite bool_decide_false by (unfold len; simpl; lia).
  - destruct (index_front w n Hfit Hlen) as [s Hs].
    destruct (removed_front s w n Hfit Hlen Hs) as (Hrem & Hn & Hfit' & _).
    assert (Hopen : chclosed (input (ego w)) = false).
    { destruct (chclosed (input (ego w))); [|done]. by specialize (Hinv eq_refl). }
    set (w1 := removed s w).
    set (w2 := if autoclose (ego w1)
                    && bool_decide (len (sources (ego w1)) = 0)
               then closed_input w1 else w1).
    assert (Hw1 : sourcesLock (ego w1) = false /\
                  slen (sources (ego w1)) = n /\
                  (n <= length (arr (sources (ego w1))))%nat /\
                  keeps w w1).
    { unfold w1. rewrite Hrem. simpl. rewrite Hn.
      repeat split; try done. simpl. lia. }
    destruct Hw1 as (Hlk1 & Hn1 & Hfit1 & K1).
    assert (Hw2 : sourcesLock (ego w2) = false /\
                  slen (sources (ego w2)) = n /\
                  (n <= length (arr (sources (ego w2))))%nat /\
                  keeps w1 w2 /\
                  (chclosed (input (ego w2)) = true -> n = 0%nat)).
    { unfold w2. destruct (autoclose (ego w1) && _) eqn:Hauto.
      - apply andb_prop in Hauto as [_ Hz].
        apply bool_decide_eq_true in Hz. unfold len in Hz.
        repeat split; try done; simpl; lia.
      - repeat split; try done; try lia.
        unfold w1. rewrite Hrem. simpl. by rewrite Hopen. }
    destruct Hw2 as (Hlk2 & Hn2 & Hfit2 & K2 & Hinv2).
    destruct (IH k w2) as (w' & E & K & Hz); try done; [lia|].
    exists w'. split; [|split; [|done]].
    2:{ eapply lazy_keeps_trans; [exact K1|]. by eapply lazy_keeps_trans. }
    replace (S n + 3 + k)%nat with (S (S (S (S (n + k))))) by lia.
    rewrite close_loop_unfold. unfold bind at 1. unfold get at 1.
    replace (sources (ego (set_sourcesLock true w)))
      with (sources (ego w)) by done.
    rewrite bool_decide_true by (unfold len; lia).
    rewrite Hs. unfold bind at 1. rewrite lazy_unlock_locked by done.
    unfold bind at 1. rewrite lazy_unsetSource_open by done.
    fold w1. cbv zeta. fold w2.
    unfold bind at 1. rewrite lock_free by done.
    replace (S (S (S (n + k)))) with (n + 3 + k)%nat by lia.
    exact E.
Qed.

(** [Close] returns, from any number of attached sources, with the
    registry empty and the shared buffer closed. *)
Lemma lazy_Close_ok k w :
  well_formed w ->
  exists w',
    Close (slen (sources (ego w)) + 4 + k) w = Done tt w' /\
    slen (sources (ego w')) = 0%nat /\
    chclosed (input (ego w')) = true /\
    keeps w w'.
Proof.
  intros (Hlock & Holock & Hfit & Hinv).
  destruct (close_loop_ok (slen (sources (ego w))) k w)
    as (w' & E & K & Hz); try done.
  exists (closed_input w'). split; [|split; [done|split; [done|]]].
  - replace (slen (sources (ego w)) + 4 + k)%nat
      with (S (slen (sources (ego w)) + 3 + k)) by lia.
    rewrite lazy_Close_unfold. unfold bind at 1. rewrite lock_free by done.
    unfold bind at 1. rewrite E.
    unfold bind at 1. rewrite lazy_unlock_locked by apply K. reflexivity.
  - destruct K. by constructor.
Qed.

(** Detaching the only source attached. *)
Lemma lazy_removed_only s w :
  (slen (sources (ego w)) <= length (arr (sources (ego w))))%nat ->
  registry w = [s] ->
  removed s w = set_sources (delete_at (sources (ego w)) 0) w /\
  slen (delete_at (sources (ego w)) 0) = 0%nat /\
  registry (removed s w) = [].
Proof.
  intros Hfit Hreg.
  assert (Hlen : slen (sources (ego w)) = 1%nat).
  { rewrite <- (GoFacts.length_view (sources (ego w))) by done.
    unfold registry in Hreg. by rewrite Hreg. }
  assert (Hrem : removed s w
                 = set_sources (delete_at (sources (ego w)) 0) w).
  { unfold removed, find_first. unfold registry in Hreg. rewrite Hreg.
    simpl. by rewrite bool_decide_true. }
  assert (Hz : slen (delete_at (sources (ego w)) 0) = 0%nat).
  { rewrite GoFacts.delete_at_slen by lia. lia. }
  split; [done|]. split; [done|].
  rewrite Hrem. unfold registry, view. simpl. by rewrite Hz.
Qed.

Lemma lazy_removed_same s w :
  sourcesLock (ego (removed s w)) = sourcesLock (ego w) /\
  overflowBufferLock (ego (removed s w)) = overflowBufferLock (ego w) /\
  input (ego (removed s w)) = input (ego w) /\
  autoclose (ego (removed s w)) = autoclose (ego w) /\
  overflowBuffer (ego (removed s w)) = overflowBuffer (ego w) /\
  tasks (removed s w) = tasks w.
Proof. unfold removed. by destruct (find_first _ _). Qed.

Lemma lazy_unsetSource_only f s w :
  sourcesLock (ego w) = false ->
  (slen (sources (ego w)) <= length (arr (sources (ego w))))%nat ->
  chclosed (input (ego w)) = false ->
  registry w = [s] ->
  unsetSource (S (S (S f))) s w =
    Done tt (if autoclose (ego w)
             then closed_input (removed s w)
             else removed s w).
Proof.
  intros Hlock Hfit Hopen Hreg. rewrite lazy_unsetSource_open by done.
  destruct (lazy_removed_only s w Hfit Hreg) as (Hrem & Hz & _).
  destruct (lazy_removed_same s w) as (_ & _ & _ & Hac & _).
  cbv zeta. rewrite Hac.
  assert (Hlen : len (sources (ego (removed s w))) = 0).
  { rewrite Hrem. unfold len. simpl. by rewrite Hz. }
  rewrite bool_decide_true by done. by rewrite andb_true_r.
Qed.

(** *** Attaching *)

Lemma lazy_SetSource_closed s w :
  chclosed (input (ego w)) = true -> sourcesLock (ego w) = false ->
  SetSource s w = Done errClosed w.
Proof.
  intros Hc Hlock. unfold SetSource. unfold bind at 1.
  rewrite lock_free by done. unfold bind at 1.
  unfold Closed, ChanneledInput_Closed. simpl. rewrite Hc.
  unfold bind. by rewrite lazy_unlock_locked.
Qed.

Lemma SetSource_open s w :
  chclosed (input (ego w)) = false -> sourcesLock (ego w) = false ->
  SetSource s w =
    Done None
      (MkWorld (tasks w ++ [s])
         (ego (set_sources (append (sources (ego w)) [s]) w))).
Proof.
  intros Hc Hlock. unfold SetSource. unfold bind at 1.
  rewrite lock_free by done. unfold bind at 1.
  unfold Closed, ChanneledInput_Closed. simpl. rewrite Hc.
  unfold bind at 1. unfold append_source, modify.
  replace (set_sources _ (set_sourcesLock true w))
    with (set_sourcesLock true
            (set_sources (append (sources (ego w)) [s]) w)) by done.
  unfold bind at 1. rewrite lazy_unlock_locked by done.
  reflexivity.
Qed.

Lemma NewChanneledLazyMerger_well_formed capacity ac :
  well_formed (NewChanneledLazyMerger (T:=T) capacity ac).
Proof. unfold well_formed. simpl. auto with lia. Qed.

(** *** Well-formedness is kept by every method *)

Lemma lazy_removed_fits s w :
  (slen (sources (ego w)) <= length (arr (sources (ego w))))%nat ->
  (slen (sources (ego (removed s w)))
     <= length (arr (sources (ego (removed s w)))))%nat.
Proof.
  intros Hfit. unfold removed.
  destruct (find_first _ _) as [i|] eqn:Hfind; [|done].
  apply GoFacts.find_first_lt in Hfind.
  rewrite GoFacts.length_view in Hfind by done. simpl.
  rewrite GoFacts.delete_at_slen, GoFacts.delete_at_arr_length by done.
  lia.
Qed.

Lemma lazy_unsetSource_well_formed f s w :
  well_formed w ->
  exists w', unsetSource (S (S (S f))) s w = Done tt w' /\ well_formed w'.
Proof.
  intros Hwf. pose proof Hwf as (Hlock & Holock & Hfit & Hinv).
  destruct (chclosed (input (ego w))) eqn:Hc.
  - exists w. split; [by apply lazy_unsetSource_closed | done].
  - eexists. split; [by apply lazy_unsetSource_open|].
    destruct (lazy_removed_same s w) as (Hlk & Holk & Hin & _).
    pose proof (lazy_removed_fits s w Hfit) as Hfit1.
    cbv zeta.
    destruct (autoclose _ && bool_decide _) eqn:Hauto.
    + apply andb_prop in Hauto as [_ Hz]. apply bool_decide_eq_true in Hz.
      unfold well_formed, len in *. simpl.
      rewrite Hlk, Holk. intuition lia.
    + unfold well_formed. rewrite Hlk, Holk, Hin, Hc. intuition done.
Qed.

Lemma lazy_Close_well_formed k w :
  well_formed w ->
  exists w',
    Close (slen (sources (ego w)) + 4 + k) w = Done tt w' /\ well_formed w'.
Proof.
  intros Hwf. pose proof Hwf as (_ & Holock & _).
  destruct (lazy_Close_ok k w Hwf) as (w' & E & Hz & Hc & K).
  exists w'. split; [done|].
  destruct K as [K1 K2 _ _ _ K6 _ _].
  unfold well_formed. rewrite K6. intuition lia.
Qed.

Lemma lazy_SetSource_well_formed s w :
  well_formed w -> exists e w', SetSource s w = Done e w' /\ well_formed w'.
Proof.
  intros Hwf. pose proof Hwf as (Hlock & Holock & Hfit & Hinv).
  destruct (chclosed (input (ego w))) eqn:Hc.
  - exists errClosed, w. split; [by apply lazy_SetSource_closed | done].
  - eexists None, _. split; [by apply SetSource_open|].
    unfold well_formed. simpl. rewrite Hc.
    pose proof (GoFacts.append_fits (sources (ego w)) [s] Hfit).
    intuition done.
Qed.

Lemma lazy_Consume_well_formed w r w' :
  well_formed w -> Consume zero w = Done r w' -> well_formed w'.
Proof.
  destruct w as [ts [[k b c] srcs ac ov sl ol]].
  intros (Hlock & Holock & Hfit & Hinv). simpl in *. subst sl ol.
  unfold Consume, bind, receive_input, receive, get. simpl.
  destruct b as [|v rest].
  - destruct c; [|discriminate]. simpl.
    destruct ov as [|o ov]; simpl; unfold ret; intros [= _ <-]; by repeat split.
  - simpl. unfold ret. intros [= _ <-]. by repeat split.
Qed.

(** *** Reading *)

Local Abbreviation state k ts b c srcs ac ov sl :=
  (MkWorld ts (MkLazy (MkChan k b c) srcs ac ov sl false)).

Lemma Consume_buffered k ts v rest c srcs ac ov sl :
  Consume zero (state k ts (v :: rest) c srcs ac ov sl)
  = Done (v, true, None) (state k ts rest c srcs ac ov sl).
Proof. reflexivity. Qed.

Lemma Consume_overflow k ts srcs ac o ov sl :
  Consume zero (state k ts [] true srcs ac (o :: ov) sl)
  = Done (o, true, None) (state k ts [] true srcs ac ov sl).
Proof.
  unfold Consume, bind, receive_input, receive, get. simpl.
  reflexivity.
Qed.

Lemma Consume_exhausted k ts srcs ac sl :
  Consume zero (state k ts [] true srcs ac [] sl)
  = Done (zero, false, None) (state k ts [] true srcs ac [] sl).
Proof. reflexivity. Qed.

Lemma Consume_waits k ts srcs ac ov sl ol :
  let w := MkWorld ts (MkLazy (MkChan k [] false) srcs ac ov sl ol) in
  Consume zero w = Blocks w.
Proof. reflexivity. Qed.

Lemma Consume_invalid w value err w' :
  Consume zero w = Done (value, false, err) w' ->
  buf (input (ego w)) = [] /\ chclosed (input (ego w)) = true /\
  overflowBuffer (ego w) = [] /\
  value = zero /\ err = None /\ w' = w.
Proof.
  destruct w as [ts [[k b c] srcs ac ov sl ol]].
  unfold Consume, bind, receive_input, receive, get. simpl.
  destruct b as [|v rest]; [|by intros [=]].
  destruct c; [|by intros [=]]. simpl.
  destruct ov as [|o ov]; simpl.
  - unfold ret. by intros [= <- <- <-].
  - unfold overflowBufferLock_Lock, lock. simpl.
    destruct ol; [by intros [=]|]. simpl. by intros [=].
Qed.

Lemma drain_overflow k ts srcs ac sl ov :
  drain zero (length ov + 1) (state k ts [] true srcs ac ov sl)
  = Done ov (state k ts [] true srcs ac [] sl).
Proof.
  induction ov as [|o ov IH]; [reflexivity|].
  cbn [length Nat.add drain]. unfold bind at 1.
  rewrite Consume_overflow. cbv beta iota.
  unfold bind at 1. by rewrite IH.
Qed.

Lemma drain_buffer k ts srcs ac sl ov b :
  drain zero (length b + (length ov + 1)) (state k ts b true srcs ac ov sl)
  = Done (b ++ ov) (state k ts [] true srcs ac [] sl).
Proof.
  induction b as [|v b IH]; [apply drain_overflow|].
  cbn [length Nat.add drain]. unfold bind at 1.
  rewrite Consume_buffered. cbv beta iota.
  unfold bind at 1. by rewrite IH.
Qed.

(** C1: [Consume] of the lazy merger reads the shared buffer and returns
    a buffered value without touching the overflow buffer; on an open,
    empty buffer it waits, whatever the overflow buffer holds.  When the
    read reports end-of-stream and the overflow buffer is non-empty it
    pops the oldest overflow entry and returns it with [valid = true].
    It reports end-of-stream only when the shared buffer is closed and
    drained and the overflow buffer is empty, and it does so then.
    Reading on therefore delivers the buffered values, then the overflow
    entries oldest first, then end-of-stream. *)
Theorem Consume_buffer_then_overflow :
  (forall k ts v rest c srcs ac ov sl,
     Consume zero (state k ts (v :: rest) c srcs ac ov sl)
     = Done (v, true, None) (state k ts rest c srcs ac ov sl)) /\
  (forall k ts srcs ac ov sl ol,
     let w := MkWorld ts (MkLazy (MkChan k [] false) srcs ac ov sl ol) in
     Consume zero w = Blocks w) /\
  (forall k ts srcs ac o ov sl,
     Consume zero (state k ts [] true srcs ac (o :: ov) sl)
     = Done (o, true, None) (state k ts [] true srcs ac ov sl)) /\
  (forall k ts srcs ac sl,
     Consume zero (state k ts [] true srcs ac [] sl)
     = Done (zero, false, None) (state k ts [] true srcs ac [] sl)) /\
  (forall w value err w',
     Consume zero w = Done (value, false, err) w' ->
     buf (input (ego w)) = [] /\ chclosed (input (ego w)) = true /\
     overflowBuffer (ego w) = [] /\ w' = w) /\
  (forall k ts b ov srcs ac sl,
     drain zero (length b + (length ov + 1)) (state k ts b true srcs ac ov sl)
     = Done (b ++ ov) (state k ts [] true srcs ac [] sl)).
Proof.
  split; [apply Consume_buffered|].
  split; [apply Consume_waits|].
  split; [apply Consume_overflow|].
  split; [apply Consume_exhausted|].
  split.
  - intros w value err w' H. apply Consume_invalid in H. tauto.
  - intros. apply drain_buffer.
Qed.

End WithT.
End LazyMergerFacts.

(* ===================================================================== *)
(** ** multiplexer: broadcast and outputs *)
(* ===================================================================== *)

Module MultiplexerFacts.
Import Multiplexer.
Section WithT.
Context {T : Type}.
Implicit Types (m : multiplexer T) (outs : list (chan T)) (p : pull T).
Implicit Types (c : chan T) (readers : nat -> M (multiplexer T) unit).
Local Abbreviation yields := (fmap (M:=list) (fun v : T => Yield v true None)).

Lemma insert_middle {A} (l1 l2 : list A) x y :
  <[length l1 := y]> (l1 ++ x :: l2) = l1 ++ y :: l2.
Proof.
  rewrite <- (Nat.add_0_r (length l1)). by rewrite insert_app_r.
Qed.

(** *** Readers that act on the output about to be written *)

(** Readers that turn the output about to be written into [g] of it
    and touch nothing else. *)
Local Definition reads_by (g : chan T -> chan T) readers : Prop :=
  forall i m c,
    outputs m !! i = Some c ->
    readers i m
    = Done tt (MkMux (upstream m) (<[i := g c]> (outputs m)) (trace m)).

Lemma alone_reads : reads_by id alone.
Proof.
  intros i m c Hc. unfold alone, ret. rewrite list_insert_id by done.
  by destruct m.
Qed.

Lemma keep_up_reads : reads_by relieved keep_up.
Proof.
  intros i m c Hc. unfold keep_up, relieved, output_Read. rewrite Hc.
  destruct (has_room c); [|done].
  rewrite list_insert_id by done. by destruct m.
Qed.

(** One value goes to every output, first to last, when the readers
    leave each output open and with room. *)
Lemma write_all readers g ups (value : T) todo : forall done tr,
  reads_by g readers ->
  Forall (fun c => chclosed (g c) = false /\ has_room (g c) = true) todo ->
  range_loop (fun i => readers i >> output_Write i value)
    (length done) (length todo) (MkMux ups (done ++ todo) tr)
  = Done tt
      (MkMux ups (done ++ ((fun c => queued value (g c)) <$> todo))
         (tr ++ ((fun i => Wrote i value)
                   <$> seq (length done) (length todo)))).
Proof.
  induction todo as [|c todo IH]; intros done tr Hr Hopen.
  - simpl. by rewrite !app_nil_r.
  - apply Forall_cons in Hopen as [[Hc Hroom] Hopen].
    cbn [length range_loop]. unfold bind at 1. unfold bind at 1.
    rewrite (Hr _ _ c) by (cbn [outputs]; by rewrite list_lookup_middle).
    cbn [outputs upstream trace]. rewrite insert_middle.
    unfold output_Write at 1. cbn [outputs upstream trace].
    rewrite list_lookup_middle by done.
    unfold ChanneledInput_Write, send. rewrite Hc, Hroom.
    rewrite insert_middle.
    specialize (IH (done ++ [queued value (g c)])
                  (tr ++ [Wrote (length done) value]) Hr Hopen).
    rewrite length_app in IH. simpl in IH.
    rewrite Nat.add_1_r in IH. rewrite <- !app_assoc in IH. simpl in IH.
    rewrite IH. reflexivity.
Qed.

Lemma write_all_fresh readers g ups (value : T) b cap (acc acc' : list T) tr :
  reads_by g readers ->
  g (MkChan cap acc false) = MkChan cap acc' false ->
  Z.of_nat (length acc') < cap ->
  range_loop (fun i => readers i >> output_Write i value) 0 b
    (MkMux ups (replicate b (MkChan cap acc false)) tr)
  = Done tt
      (MkMux ups (replicate b (MkChan cap (acc' ++ [value]) false))
         (tr ++ broadcast b value)).
Proof.
  intros Hr Hg Hroom.
  pose proof (write_all readers g ups value
                (replicate b (MkChan cap acc false)) [] tr Hr) as H.
  rewrite length_replicate in H. simpl in H.
  rewrite fmap_replicate, Hg in H. apply H.
  apply Forall_replicate. rewrite Hg. split; [done|].
  unfold has_room. simpl. by rewrite bool_decide_true.
Qed.

Lemma pipe_loop_unfold readers f :
  pipe_loop readers (S f) =
    (let* r := Consume in
     let '(value, valid, err) := r in
     if bool_decide (err <> None) || negb valid
     then ret tt
     else
       let* m := get in
       range_loop (fun i => readers i >> output_Write i value)
         0 (length (outputs m)) >>
       pipe_loop readers f).
Proof. reflexivity. Qed.

(** A turn of the loop on a value. *)
Lemma pipe_loop_value readers f (v : T) more outs tr :
  pipe_loop readers (S f) (MkMux (Yield v true None :: more) outs tr)
  = (range_loop (fun i => readers i >> output_Write i v) 0 (length outs) >>
     pipe_loop readers f) (MkMux more outs tr).
Proof.
  rewrite pipe_loop_unfold.
  unfold bind at 1. unfold Consume at 1. cbn [upstream outputs trace].
  cbv beta iota. rewrite bool_decide_false by (intros H; by apply H).
  cbn [negb orb]. unfold bind at 1. unfold get at 1. done.
Qed.

(** The loop ends on a stopping pull the way that pull says. *)
Lemma pipe_loop_stops readers f p rest outs tr :
  stops p = true ->
  pipe_loop readers (S f) (MkMux (p :: rest) outs tr)
  = exit_of p (MkMux rest outs tr).
Proof.
  intros Hstop. rewrite pipe_loop_unfold. unfold bind, Consume. simpl.
  destruct p as [value valid err|]; [|done].
  simpl in Hstop. by rewrite Hstop.
Qed.

(** Nobody reads: the values are queued while there is room. *)
Lemma pipe_loop_queues b cap f more (vals : list T) : forall acc tr,
  Z.of_nat (length acc + length vals) <= cap ->
  pipe_loop alone (length vals + f)
    (MkMux (yields vals ++ more) (replicate b (MkChan cap acc false)) tr)
  = pipe_loop alone f
      (MkMux more (replicate b (MkChan cap (acc ++ vals) false))
         (tr ++ concat (broadcast b <$> vals))).
Proof.
  induction vals as [|v vals IH]; intros acc tr Hfit.
  - simpl. by rewrite !app_nil_r.
  - cbn [length Nat.add fmap list_fmap app]. rewrite pipe_loop_value.
    rewrite length_replicate. unfold bind at 1.
    rewrite (write_all_fresh alone id _ _ _ _ acc acc)
      by (done || apply alone_reads || (simpl in Hfit; lia)).
    etrans; [apply (IH (acc ++ [v]) (tr ++ broadcast b v))|].
    { rewrite length_app. simpl in *. lia. }
    simpl. by rewrite <- !app_assoc.
Qed.

(** Nobody reads and the outputs are full: the task waits in the write
    to the first output. *)
Lemma pipe_loop_waits b cap f (v : T) more acc tr :
  (0 < b)%nat -> cap <= Z.of_nat (length acc) ->
  pipe_loop alone (S f)
    (MkMux (Yield v true None :: more) (replicate b (MkChan cap acc false)) tr)
  = Blocks (MkMux more (replicate b (MkChan cap acc false)) tr).
Proof.
  intros Hb Hfull. rewrite pipe_loop_value. rewrite length_replicate.
  destruct b as [|b]; [lia|].
  unfold bind at 1. cbn [range_loop]. unfold bind at 1. unfold bind at 1.
  unfold alone at 1, ret at 1.
  unfold output_Write. cbn [outputs]. simpl replicate. simpl lookup.
  unfold ChanneledInput_Write, send, has_room. simpl.
  by rewrite bool_decide_false by lia.
Qed.

(** What the readers that keep up leave in an output of capacity [cap]
    that received [l]: its last [cap] values. *)
Lemma relieved_full cap (a : T) acc :
  Z.of_nat (length (a :: acc)) = cap ->
  relieved (MkChan cap (a :: acc) false) = MkChan cap acc false.
Proof.
  intros Hlen. unfold relieved, has_room. simpl buf. simpl chcap.
  by rewrite bool_decide_false by lia.
Qed.

Lemma relieved_room cap acc :
  Z.of_nat (length acc) < cap ->
  relieved (MkChan cap acc false) = MkChan (T:=T) cap acc false.
Proof.
  intros Hlen. unfold relieved, has_room. simpl.
  by rewrite bool_decide_true by lia.
Qed.

Lemma pipe_loop_keeps_up b cap f more (vals : list T) : forall acc tr,
  1 <= cap -> Z.of_nat (length acc) <= cap ->
  pipe_loop keep_up (length vals + f)
    (MkMux (yields vals ++ more) (replicate b (MkChan cap acc false)) tr)
  = pipe_loop keep_up f
      (MkMux more
         (replicate b
            (MkChan cap
               (drop (length (acc ++ vals) - Z.to_nat cap) (acc ++ vals))
               false))
         (tr ++ concat (broadcast b <$> vals))).
Proof.
  induction vals as [|v vals IH]; intros acc tr Hcap Hfit.
  - simpl. rewrite !app_nil_r.
    replace (length acc - Z.to_nat cap)%nat with 0%nat by lia. done.
  - cbn [length Nat.add fmap list_fmap app]. rewrite pipe_loop_value.
    rewrite length_replicate. unfold bind at 1.
    destruct (decide (Z.of_nat (length acc) < cap)) as [Hroom|Hfull].
    + rewrite (write_all_fresh keep_up relieved _ _ _ _ acc acc)
        by (done || apply keep_up_reads || by apply relieved_room).
      etrans; [apply (IH (acc ++ [v]) (tr ++ broadcast b v))|].
      { done. } { rewrite length_app. simpl. lia. }
      simpl. by rewrite <- !app_assoc.
    + destruct acc as [|a acc]; [simpl in *; lia|].
      rewrite (write_all_fresh keep_up relieved _ _ _ _ (a :: acc) acc)
        by (apply keep_up_reads || (apply relieved_full; simpl in *; lia)
            || (simpl in *; lia)).
      etrans; [apply (IH (acc ++ [v]) (tr ++ broadcast b v))|].
      { done. } { rewrite length_app. simpl in *. lia. }
      rewrite <- !app_assoc. simpl.
      replace (S (length (acc ++ v :: vals)) - Z.to_nat cap)%nat
        with (S (length (acc ++ v :: vals) - Z.to_nat cap))
        by (rewrite length_app; cbn [length] in *; lia).
      done.
Qed.

(** *** The deferred closes *)

(** The deferred closes run after the loop, last output first, whether
    the loop returned or panicked. *)
Lemma deferred_closes_run (body : M (multiplexer T) unit) m p m1 todo :
  forall done,
  body m = exit_of p m1 ->
  outputs m1 = done ++ todo ->
  deferred_closes (length done) (length todo) body m
  = exit_of p
      (MkMux (upstream m1) (done ++ (ChanneledInput_Close <$> todo))
         (trace m1
            ++ (ClosedOutput <$> reverse (seq (length done) (length todo))))).
Proof.
  induction todo as [|c todo IH]; intros done Hbody Houts.
  - simpl. rewrite Hbody, !app_nil_r. rewrite app_nil_r in Houts.
    rewrite <- Houts. by destruct m1.
  - cbn [length deferred_closes]. unfold defer.
    specialize (IH (done ++ [c]) Hbody).
    rewrite length_app in IH. simpl in IH. rewrite Nat.add_1_r in IH.
    rewrite IH by (by rewrite <- app_assoc).
    rewrite <- !app_assoc. simpl.
    destruct p as [value valid err|]; simpl;
      unfold output_Close; cbn [outputs upstream trace];
      rewrite list_lookup_middle by done;
      rewrite insert_middle;
      rewrite reverse_cons, fmap_app, <- !app_assoc; done.
Qed.

(** They do not run while the task waits. *)
Lemma deferred_closes_wait (body : M (multiplexer T) unit) m m1 n :
  forall i,
  body m = Blocks m1 -> deferred_closes i n body m = Blocks m1.
Proof.
  induction n as [|n IH]; intros i Hbody; [done|].
  cbn [deferred_closes]. unfold defer. by rewrite (IH (S i)).
Qed.

Lemma pipeData_exit readers f m p m1 :
  pipe_loop readers f m = exit_of p m1 ->
  length (outputs m1) = length (outputs m) ->
  pipeData readers f m
  = exit_of p
      (MkMux (upstream m1) (ChanneledInput_Close <$> outputs m1)
         (trace m1 ++ closes (length (outputs m)))).
Proof.
  intros Hloop Hlen. unfold pipeData.
  pose proof (deferred_closes_run (pipe_loop readers f) m p m1
                (outputs m1) [] Hloop eq_refl) as H.
  simpl in H. by rewrite Hlen in H.
Qed.

(** What a reader gets from a closed output: its values in order, then
    end-of-stream. *)
Lemma reads_closed cap (vals : list T) :
  reads (S (length vals)) (MkChan cap vals true) = (vals, true).
Proof.
  induction vals as [|v vals IH]; [done|].
  change (reads (S (length (v :: vals))) (MkChan cap (v :: vals) true))
    with (let '(vs, ended) := reads (S (length vals)) (MkChan cap vals true)
          in (v :: vs, ended)).
  by rewrite IH.
Qed.

(** *** Readers of any kind *)

(** An open output that holds what is left of the values [pre] written
    to it. *)
Local Definition holds (pre : list T) c : Prop :=
  chclosed c = false /\ buf c `suffix_of` pre.

Lemma holds_read pre c c' : holds pre c -> read_from c c' -> holds pre c'.
Proof.
  intros [Ho Hs] (_ & Hc & Hb). split; [congruence|]. by etrans.
Qed.

Lemma holds_all pre outs outs' :
  Forall (holds pre) outs -> Forall2 read_from outs outs' ->
  Forall (holds pre) outs'.
Proof.
  intros Hall Hrd. induction Hrd as [|c c' l l' Hc _ IH]; [done|].
  apply Forall_cons in Hall as [H1 H2].
  apply Forall_cons. split; [by eapply holds_read|by apply IH].
Qed.

Lemma holds_queued pre (v : T) c : holds pre c -> holds (pre ++ [v]) (queued v c).
Proof. intros [Ho Hs]. split; [done|]. simpl. by apply suffix_app. Qed.

Lemma holds_open pre outs :
  Forall (holds pre) outs -> Forall (fun c => chclosed c = false) outs.
Proof. intros H. eapply Forall_impl; [exact H|]. by intros c [? _]. Qed.

Lemma only_read_alone : only_read (T:=T) alone.
Proof.
  intros i m. exists m. repeat split; try done.
  apply Forall_Forall2_diag, Forall_forall. intros c _. by repeat split.
Qed.

Lemma read_from_taken c : read_from c (taken_from c).
Proof.
  unfold taken_from, receive. destruct c as [k [|v l] cl]; simpl.
  - by destruct cl.
  - repeat split; simpl; try done. by apply suffix_cons_r.
Qed.

Lemma read_from_refl c : read_from c c.
Proof. by repeat split. Qed.

Lemma read_from_insert outs i c c' :
  outs !! i = Some c -> read_from c c' ->
  Forall2 read_from outs (<[i := c']> outs).
Proof.
  intros Hi Hrd. apply Forall2_same_length_lookup_2.
  { by rewrite length_insert. }
  intros j x y Hx Hy. destruct (decide (i = j)) as [->|Hne].
  - rewrite list_lookup_insert_eq in Hy by (by eapply lookup_lt_Some).
    congruence.
  - rewrite list_lookup_insert_ne in Hy by done.
    replace y with x by congruence. apply read_from_refl.
Qed.

Lemma only_read_keep_up : only_read (T:=T) keep_up.
Proof.
  intros i m. unfold keep_up, output_Read.
  destruct (outputs m !! i) as [c|] eqn:Hc.
  - destruct (has_room c).
    + exists m. repeat split; try done.
      apply Forall_Forall2_diag, Forall_forall. intros x _.
      apply read_from_refl.
    + eexists. split; [done|]. repeat split; try done. simpl.
      eapply read_from_insert; [done|apply read_from_taken].
  - exists m. repeat split; try done.
    apply Forall_Forall2_diag, Forall_forall. intros x _.
    apply read_from_refl.
Qed.

(** One value on its way to every output, whatever the readers do: it
    reaches them all, or the task waits in the write to an output that
    is at capacity. *)
Lemma write_any readers pre (v : T) (n : nat) : forall todo done m,
  length todo = n ->
  only_read readers ->
  outputs m = done ++ todo ->
  Forall (holds (pre ++ [v])) done -> Forall (holds pre) todo ->
  (exists m',
     range_loop (fun i => readers i >> output_Write i v)
       (length done) n m = Done tt m' /\
     upstream m' = upstream m /\
     trace m' = trace m ++ ((fun i => Wrote i v) <$> seq (length done) n) /\
     length (outputs m') = length (outputs m) /\
     Forall (holds (pre ++ [v])) (outputs m')) \/
  (exists m' j c,
     range_loop (fun i => readers i >> output_Write i v)
       (length done) n m = Blocks m' /\
     upstream m' = upstream m /\ (j < n)%nat /\
     trace m' = trace m ++ ((fun i => Wrote i v) <$> seq (length done) j) /\
     length (outputs m') = length (outputs m) /\
     Forall (fun c => chclosed c = false) (outputs m') /\
     outputs m' !! (length done + j)%nat = Some c /\ has_room c = false).
Proof.
  induction n as [|n IH]; intros todo done m Hn Hr Houts Hdone Htodo.
  - destruct todo; [|done]. left. exists m. simpl. rewrite !app_nil_r in *.
    repeat split; try done. by rewrite Houts.
  - destruct todo as [|c todo]; [done|]. injection Hn as Hn.
    destruct (Hr (length done) m) as (m1 & E1 & Hup1 & Htr1 & Hrd).
    rewrite Houts in Hrd.
    apply Forall2_app_inv_l in Hrd as (done1 & rest1 & Hd1 & Hr1 & Eo1).
    apply Forall2_cons_inv_l in Hr1 as (c1 & todo1 & Hc1 & Ht1 & ->).
    apply Forall_cons in Htodo as [Hc Htodo].
    pose proof (Forall2_length _ _ _ Hd1) as Hlen1.
    pose proof (Forall2_length _ _ _ Ht1) as Hlen2.
    pose proof (holds_all _ _ _ Hdone Hd1) as Hdone1.
    pose proof (holds_all _ _ _ Htodo Ht1) as Htodo1.
    pose proof (holds_read _ _ _ Hc Hc1) as Hh1.
    assert (Hlens : length (outputs m1) = length (outputs m)).
    { rewrite Eo1, Houts, !length_app. simpl. lia. }
    set (m2 := MkMux (upstream m1) (done1 ++ queued v c1 :: todo1)
                 (trace m1 ++ [Wrote (length done1) v])).
    assert (Estep :
      range_loop (fun i => readers i >> output_Write i v) (length done) (S n) m
      = if has_room c1
        then range_loop (fun i => readers i >> output_Write i v)
               (S (length done1)) n m2
        else Blocks m1).
    { cbn [range_loop]. unfold bind at 1. unfold bind at 1.
      rewrite E1. unfold output_Write at 1. rewrite Eo1, Hlen1.
      rewrite list_lookup_middle by done.
      unfold ChanneledInput_Write, send. rewrite (proj1 Hh1).
      destruct (has_room c1); [|done]. by rewrite insert_middle. }
    rewrite Estep. clear Estep.
    destruct (has_room c1) eqn:Hroom.
    + destruct (IH todo1 (done1 ++ [queued v c1]) m2) as
        [(m' & E & Hup & Htr & Hl & Hall)
        |(m' & j & c' & E & Hup & Hj & Htr & Hl & Hall & Hi & Hfull)].
      { lia. } { done. }
      { unfold m2. simpl. by rewrite <- app_assoc. }
      { apply Forall_app. split; [done|].
        apply Forall_singleton. by apply holds_queued. }
      { done. }
      * left. exists m'. rewrite length_app in E, Htr. simpl in E, Htr.
        rewrite Nat.add_1_r in E, Htr.
        split; [exact E|]. split; [by rewrite Hup|]. split.
        { rewrite Htr. unfold m2. simpl. rewrite Htr1, Hlen1.
          by rewrite <- app_assoc. }
        split; [|done]. rewrite Hl. unfold m2. simpl.
        rewrite <- Hlens, Eo1, !length_app. done.
      * right. exists m', (S j), c'.
        rewrite length_app in E, Htr, Hi. simpl in E, Htr, Hi.
        rewrite Nat.add_1_r in E, Htr, Hi.
        split; [exact E|]. split; [by rewrite Hup|].
        split; [lia|]. split.
        { rewrite Htr. unfold m2. simpl. rewrite Htr1, Hlen1.
          by rewrite <- app_assoc. }
        split.
        { rewrite Hl. unfold m2. simpl.
          rewrite <- Hlens, Eo1, !length_app. done. }
        split; [done|]. split; [|done].
        by rewrite Hlen1, <- Nat.add_succ_comm.
    + right. exists m1, 0%nat, c1.
      split; [done|]. split; [done|]. split; [lia|].
      split; [simpl; by rewrite app_nil_r|]. split; [done|].
      split.
      { rewrite Eo1. apply Forall_app. split; [by eapply holds_open|].
        apply Forall_cons. split; [apply Hh1|by eapply holds_open]. }
      split; [|done]. rewrite Eo1, Nat.add_0_r, Hlen1.
      by apply list_lookup_middle.
Qed.

Lemma broadcast_snoc b pre (v : T) :
  concat (broadcast b <$> (pre ++ [v]))
  = concat (broadcast b <$> pre) ++ broadcast b v.
Proof. rewrite fmap_app, concat_app. simpl. by rewrite app_nil_r. Qed.

Lemma broadcast_take b n (v : T) :
  (n <= b)%nat ->
  (fun i => Wrote i v) <$> seq 0 n = take n (broadcast b v).
Proof.
  intros Hn. unfold broadcast. rewrite <- fmap_take, take_seq.
  by rewrite Nat.min_l.
Qed.

(** The loop of [pipeData], whatever the readers do: every value pulled
    before the stopping pull reaches every output, in order, or the task
    waits in a write with everything before it written. *)
Lemma pipe_any readers b p rest k (vals : list T) : forall pre m,
  only_read readers -> stops p = true ->
  upstream m = yields vals ++ p :: rest ->
  trace m = concat (broadcast b <$> pre) ->
  length (outputs m) = b ->
  Forall (holds pre) (outputs m) ->
  (exists m',
     pipe_loop readers (S (length vals) + k) m = exit_of p m' /\
     upstream m' = rest /\
     trace m' = concat (broadcast b <$> (pre ++ vals)) /\
     length (outputs m') = b /\
     Forall (holds (pre ++ vals)) (outputs m')) \/
  (exists m' j i v c,
     pipe_loop readers (S (length vals) + k) m = Blocks m' /\
     vals !! j = Some v /\ (i < b)%nat /\
     trace m'
     = concat (broadcast b <$> (pre ++ take j vals)) ++ take i (broadcast b v) /\
     length (outputs m') = b /\
     Forall (fun c => chclosed c = false) (outputs m') /\
     outputs m' !! i = Some c /\ has_room c = false).
Proof.
  induction vals as [|v vals IH]; intros pre m Hr Hstop Hup Htr Hlen Hall;
    destruct m as [ups outs tr];
    cbn [upstream trace outputs] in Hup, Htr, Hlen, Hall; subst ups.
  - left. cbn [length Nat.add fmap list_fmap app].
    rewrite pipe_loop_stops by done.
    eexists. split; [done|]. rewrite app_nil_r. by repeat split.
  - cbn [length Nat.add]. rewrite fmap_cons, <- app_comm_cons.
    rewrite pipe_loop_value.
    destruct (write_any readers pre v (length outs) outs []
                (MkMux (yields vals ++ p :: rest) outs tr) eq_refl Hr eq_refl)
      as [(m2 & E & Hup2 & Htr2 & Hl2 & Hall2)
         |(m2 & n & c & E & Hup2 & Hn & Htr2 & Hl2 & Hopen & Hi & Hfull)];
      [done|done| |];
      cbn [length upstream trace outputs] in E, Hup2, Htr2, Hl2.
    + destruct (IH (pre ++ [v]) m2 Hr Hstop Hup2)
        as [(m' & E' & ? & Htr' & ? & Hall')
           |(m' & j & i & v' & c & E' & Hj & ? & Htr' & ? & ? & ? & ?)];
        [|lia|done| |].
      { rewrite Htr2, broadcast_snoc, Htr. by subst b. }
      * left. exists m'. rewrite <- app_assoc in Htr', Hall'.
        split; [unfold bind at 1; rewrite E; exact E'|]. by repeat split.
      * right. exists m', (S j), i, v', c.
        rewrite <- app_assoc in Htr'.
        split; [unfold bind at 1; rewrite E; exact E'|]. by repeat split.
    + right. exists m2, 0%nat, n, v, c. simpl in Hi.
      split; [by unfold bind at 1; rewrite E|]. split; [done|].
      split; [lia|]. split.
      { rewrite Htr2, app_nil_r, Htr. f_equal.
        apply broadcast_take. lia. }
      split; [lia|]. by repeat split.
Qed.

(** C6: [pipeData] on a new multiplexer whose upstream yields [vals]
    and then a stopping pull (end-of-stream, an error, or a panic of
    the upstream [Get]).
    - Whatever the readers of the outputs do, the writes happen in the
      order of the values, each value to output 0 first.  Either
      [pipeData] leaves the way the stopping pull says, having written
      every value to every output and closed every output, last output
      first, each output holding what its reader has not taken yet; or
      it waits in the write of a value to an output that is at capacity,
      with every write before that one done and no output closed.
    - With nobody reading it returns when the values fit the capacity,
      and waits in the write of the first value that does not fit.
    - With readers that take a value whenever their output is at
      capacity it returns for every number of values, the capacity being
      at least 1 (an output of capacity 0 is always at capacity).
    A reader of a closed output gets what it holds, in order, followed
    by end-of-stream. *)
Theorem pipeData_broadcasts max_len capacity (b : nat) (vals : list T)
    p rest k :
  stops p = true -> 0 <= capacity -> Z.of_nat b <= max_len ->
  exists m0,
    NewMultiplexer max_len capacity (Z.of_nat b) (yields vals ++ p :: rest)
    = Some m0 /\
    (forall readers, only_read readers ->
       (exists m',
          pipeData readers (S (length vals) + k) m0 = exit_of p m' /\
          upstream m' = rest /\
          trace m' = concat (broadcast b <$> vals) ++ closes b /\
          length (outputs m') = b /\
          Forall (fun c => chclosed c = true /\ buf c `suffix_of` vals)
            (outputs m')) \/
       (exists m' j i v c,
          pipeData readers (S (length vals) + k) m0 = Blocks m' /\
          vals !! j = Some v /\ (i < b)%nat /\
          trace m'
          = concat (broadcast b <$> take j vals) ++ take i (broadcast b v) /\
          length (outputs m') = b /\
          Forall (fun c => chclosed c = false) (outputs m') /\
          outputs m' !! i = Some c /\ has_room c = false)) /\
    (Z.of_nat (length vals) <= capacity ->
     pipeData alone (S (length vals) + k) m0
     = exit_of p
         (MkMux rest (replicate b (MkChan capacity vals true))
            (concat (broadcast b <$> vals) ++ closes b))) /\
    (capacity < Z.of_nat (length vals) -> (0 < b)%nat ->
     pipeData alone (S (length vals) + k) m0
     = Blocks
         (MkMux (yields (drop (S (Z.to_nat capacity)) vals) ++ p :: rest)
            (replicate b (MkChan capacity (take (Z.to_nat capacity) vals) false))
            (concat (broadcast b <$> take (Z.to_nat capacity) vals)))) /\
    (1 <= capacity ->
     pipeData keep_up (S (length vals) + k) m0
     = exit_of p
         (MkMux rest
            (replicate b
               (MkChan capacity
                  (drop (length vals - Z.to_nat capacity) vals) true))
            (concat (broadcast b <$> vals) ++ closes b))) /\
    (forall l : list T,
       reads (S (length l)) (MkChan capacity l true) = (l, true)).
Proof.
  intros Hstop Hcap Hb.
  set (m0 := MkMux (yields vals ++ p :: rest)
               (replicate b (MkChan capacity [] false)) []).
  exists m0. split.
  { unfold NewMultiplexer. rewrite bool_decide_true by lia.
    by rewrite Nat2Z.id. }
  assert (Hfuel : (S (length vals) + k = length vals + S k)%nat) by lia.
  split; [|split; [|split; [|split]]].
  - intros readers Hr.
    destruct (pipe_any readers b p rest k vals [] m0 Hr Hstop)
      as [(m' & E & Hup & Htr & Hl & Hall)
         |(m' & j & i & v & c & E & Hj & Hi & Htr & Hl & Hopen & Hc & Hfull)];
      try done.
    { unfold m0. simpl. apply length_replicate. }
    { unfold m0. simpl. apply Forall_replicate. split; [done|].
      apply suffix_nil. }
    + left. eexists. split.
      { apply pipeData_exit; [exact E|].
        rewrite Hl. unfold m0. simpl. by rewrite length_replicate. }
      simpl. rewrite length_replicate, length_fmap.
      split; [done|]. split; [by rewrite Htr|]. split; [done|].
      apply Forall_fmap. eapply Forall_impl; [exact Hall|].
      intros x [? ?]. by split.
    + right. exists m', j, i, v, c. split; [|done].
      unfold pipeData. by apply deferred_closes_wait.
  - intros Hfit.
    assert (E : pipe_loop alone (S (length vals) + k) m0
                = exit_of p (MkMux rest (replicate b (MkChan capacity vals false))
                               (concat (broadcast b <$> vals)))).
    { rewrite Hfuel. unfold m0.
      rewrite pipe_loop_queues by (simpl; lia).
      by rewrite pipe_loop_stops. }
    rewrite (pipeData_exit _ _ _ _ _ E)
      by (unfold m0; simpl; by rewrite !length_replicate).
    unfold m0. simpl. by rewrite fmap_replicate, length_replicate.
  - intros Hmore Hpos. set (n := Z.to_nat capacity).
    destruct (lookup_lt_is_Some_2 vals n) as [v Hv]; [lia|].
    unfold pipeData. apply deferred_closes_wait.
    assert (Hsplit : yields vals ++ p :: rest
                     = yields (take n vals)
                         ++ Yield v true None
                         :: (yields (drop (S n) vals) ++ p :: rest)).
    { rewrite <- (take_drop_middle vals n v Hv) at 1.
      by rewrite fmap_app, fmap_cons, <- app_assoc. }
    unfold m0. rewrite Hsplit.
    replace (S (length vals) + k)%nat
      with (length (take n vals) + S (length vals - n + k))%nat
      by (rewrite length_take; lia).
    rewrite pipe_loop_queues by (rewrite length_take; simpl; lia).
    simpl. apply pipe_loop_waits; [done|].
    rewrite length_take. lia.
  - intros Hone.
    assert (E : pipe_loop keep_up (S (length vals) + k) m0
                = exit_of p
                    (MkMux rest
                       (replicate b
                          (MkChan capacity
                             (drop (length vals - Z.to_nat capacity) vals)
                             false))
                       (concat (broadcast b <$> vals)))).
    { rewrite Hfuel. unfold m0.
      rewrite pipe_loop_keeps_up by (simpl; lia).
      by rewrite pipe_loop_stops. }
    rewrite (pipeData_exit _ _ _ _ _ E)
      by (unfold m0; simpl; by rewrite !length_replicate).
    unfold m0. simpl. by rewrite fmap_replicate, length_replicate.
  - intros l. apply reads_closed.
Qed.

(** C9: [Out(index)] returns the output at position [index] when
    [0 <= index < B], [B] being the number of outputs, and panics with
    an index-out-of-range fault otherwise; [NewMultiplexer] with [B]
    branches, [B] a length that [make] accepts, creates [B] outputs. *)
Theorem Out_in_range_or_panics m (index : Z) :
  (0 <= index < Z.of_nat (length (outputs m)) ->
   exists o, outputs m !! Z.to_nat index = Some o /\ Out index m = Done o m) /\
  (~ 0 <= index < Z.of_nat (length (outputs m)) ->
   Out index m = Panics IndexOutOfRange m) /\
  (forall max_len capacity branches src,
     0 <= branches <= max_len ->
     exists m0, NewMultiplexer max_len capacity branches src = Some m0 /\
                Z.of_nat (length (outputs m0)) = branches).
Proof.
  split; [|split].
  - intros Hin.
    destruct (lookup_lt_is_Some_2 (outputs m) (Z.to_nat index)) as [o Ho];
      [lia|].
    exists o. split; [done|]. unfold Out.
    by rewrite bool_decide_true, Ho by done.
  - intros Hout. unfold Out. by rewrite bool_decide_false by done.
  - intros max_len capacity branches src Hb. eexists. split.
    + unfold NewMultiplexer. by rewrite bool_decide_true by lia.
    + simpl. rewrite length_replicate. lia.
Qed.

End WithT.
End MultiplexerFacts.

(* ===================================================================== *)
(** ** Both mergers: close, autoclose and attach *)
(* ===================================================================== *)

Module MergerFacts.
Module A := ActiveMerger.
Module L := LazyMerger.
Module AF := ActiveMergerFacts.
Module LF := LazyMergerFacts.
Section WithT.
Context {T : Type}.

(** C2, on the active merger: three producers are attached to a new
    merger and [Close] is called.  The range of [Close] reads its array
    while [unsetSource] shifts it, so the second producer is never
    passed to [unsetSource]: [Close] returns with the merger closed and
    that producer still in the registry. *)
Theorem activeMerger_Close_leaves_a_source (ac : bool) (h : list (chan T)) :
  exists w',
    (A.SetSource (Channeled 0) >> A.SetSource (Channeled 1) >>
     A.SetSource (Channeled 2) >> A.Close 3) (A.NewActiveMerger ac h)
    = Done tt w' /\
    A.registry w' = [1%nat] /\
    A.closed (A.ego w') = true.
Proof. destruct ac; eexists; (split; [reflexivity|]); by split. Qed.

(** The lazy merger's [Close] does detach every source: from any
    well-formed state it returns with an empty registry and the merger
    closed. *)
Lemma lazyMerger_Close_detaches_all k (w : L.world T) :
  L.well_formed w ->
  exists w',
    L.Close (slen (L.sources (L.ego w)) + 4 + k) w = Done tt w' /\
    L.registry w' = [] /\
    chclosed (L.input (L.ego w')) = true.
Proof.
  intros Hwf. destruct (LF.lazy_Close_ok k w Hwf) as (w' & E & Hz & Hc & _).
  exists w'. split; [done|]. split; [|done].
  unfold L.registry, view. by rewrite Hz.
Qed.

(** C3: on a merger with [autoclose] set, detaching the only attached
    source closes the merger; every later [unsetSource], [SetSource] and
    [Close] returns and leaves the closed merger as it is, so it is
    closed once.  Without [autoclose] the same detach leaves the merger
    open with an empty registry, and [SetSource] then attaches a new
    source. *)
Theorem autoclose_on_last_detach :
  (forall f (w : A.world T) r,
     A.well_formed w -> A.closed (A.ego w) = false -> A.registry w = [r] ->
     exists w1,
       A.unsetSource (2 + f) (Channeled r) w = Done tt w1 /\
       A.registry w1 = [] /\
       A.closed (A.ego w1) = A.autoclose (A.ego w) /\
       (A.autoclose (A.ego w) = true ->
        (forall s, A.unsetSource (1 + f) s w1 = Done tt w1) /\
        (forall s, A.SetSource s w1 = Done errClosed w1) /\
        A.Close (1 + f) w1 = Done tt w1) /\
       (A.autoclose (A.ego w) = false ->
        forall s, exists w2,
          A.SetSource s w1 = Done None w2 /\
          A.closed (A.ego w2) = false /\
          A.registry w2 = [match s with
                           | Channeled r' => r'
                           | Plain _ => length (A.heap w)
                           end])) /\
  (forall f (w : L.world T) s,
     L.well_formed w -> chclosed (L.input (L.ego w)) = false ->
     L.registry w = [s] ->
     exists w1,
       L.unsetSource (3 + f) s w = Done tt w1 /\
       L.registry w1 = [] /\
       chclosed (L.input (L.ego w1)) = L.autoclose (L.ego w) /\
       (L.autoclose (L.ego w) = true ->
        (forall s', L.unsetSource (1 + f) s' w1 = Done tt w1) /\
        (forall s', L.SetSource s' w1 = Done errClosed w1) /\
        L.Close (2 + f) w1 = Done tt w1) /\
       (L.autoclose (L.ego w) = false ->
        forall s', exists w2,
          L.SetSource s' w1 = Done None w2 /\
          chclosed (L.input (L.ego w2)) = false /\
          L.registry w2 = [s'])).
Proof.
  split.
  - intros f w r (Hlock & Hfit & _ & _) Hopen Hreg.
    destruct (AF.removed_only r w Hfit Hreg) as (Hrem & Hz & Hnil).
    destruct (AF.removed_same (Channeled r) w)
      as (Hlk0 & Hcl0 & _ & _ & Hheap0 & _).
    set (w0 := A.removed (Channeled r) w) in *.
    assert (Hz0 : slen (A.sources (A.ego w0)) = 0%nat)
      by (by rewrite Hrem).
    rewrite Hlock in Hlk0. rewrite Hopen in Hcl0.
    exists (if A.autoclose (A.ego w) then A.set_closed true w0 else w0).
    split; [by apply AF.unsetSource_only|].
    destruct (A.autoclose (A.ego w)).
    + split; [done|]. split; [done|]. split; [|done]. intros _.
      split; [|split].
      * intros s. by apply AF.unsetSource_closed.
      * intros s. by apply AF.SetSource_closed.
      * etrans; [by apply AF.Close_empty|]. reflexivity.
    + split; [done|]. split; [done|]. split; [done|]. intros _ s.
      assert (Hview : forall x,
                view (append (A.sources (A.ego w0)) [x]) = [x]).
      { intros x. rewrite GoFacts.view_append by lia.
        unfold A.registry in Hnil. by rewrite Hnil. }
      destruct s as [r'|p]; eexists.
      * split; [by apply AF.SetSource_channeled|]. split; [done|].
        apply Hview.
      * split; [by apply AF.SetSource_plain|]. split; [done|].
        rewrite <- Hheap0. apply Hview.
  - intros f w s (Hlock & Holock & Hfit & _) Hopen Hreg.
    destruct (LF.lazy_removed_only s w Hfit Hreg) as (Hrem & Hz & Hnil).
    destruct (LF.lazy_removed_same s w) as (Hlk0 & _ & Hin0 & _).
    set (w0 := L.removed s w) in *.
    assert (Hz0 : slen (L.sources (L.ego w0)) = 0%nat)
      by (by rewrite Hrem).
    rewrite Hlock in Hlk0.
    assert (Hcl0 : chclosed (L.input (L.ego w0)) = false)
      by (by rewrite Hin0).
    exists (if L.autoclose (L.ego w) then L.closed_input w0 else w0).
    split; [by apply LF.lazy_unsetSource_only|].
    destruct (L.autoclose (L.ego w)).
    + split; [done|]. split; [done|]. split; [|done]. intros _.
      split; [|split].
      * intros s'. by apply LF.lazy_unsetSource_closed.
      * intros s'. by apply LF.lazy_SetSource_closed.
      * etrans; [by apply LF.lazy_Close_empty|]. reflexivity.
    + split; [done|]. split; [done|]. split; [done|]. intros _ s'.
      eexists. split; [by apply LF.SetSource_open|]. split; [done|].
      unfold L.registry. simpl.
      rewrite GoFacts.view_append by lia.
      unfold L.registry in Hnil. by rewrite Hnil.
Qed.

(** C5: [SetSource] on a closed merger returns the "already closed"
    error and changes nothing, the registry included; this holds for the
    active and for the lazy merger. *)
Theorem SetSource_on_closed :
  (forall (w : A.world T) s,
     A.closed (A.ego w) = true ->
     A.SetSource s w = Done errClosed w) /\
  (forall (w : L.world T) s,
     chclosed (L.input (L.ego w)) = true ->
     L.sourcesLock (L.ego w) = false ->
     L.SetSource s w = Done errClosed w).
Proof.
  split; intros w s; [apply AF.SetSource_closed | apply LF.lazy_SetSource_closed].
Qed.

(** C7: [Close] called twice.  The first call returns with the merger
    closed; the second returns as well, without panic, and leaves the
    state exactly as the first call left it. *)
Theorem Close_twice :
  (forall f (w : A.world T),
     A.well_formed w ->
     exists w1,
       A.Close (3 + f) w = Done tt w1 /\
       A.closed (A.ego w1) = true /\
       A.Close (3 + f) w1 = Done tt w1) /\
  (forall k (w : L.world T),
     L.well_formed w ->
     exists w1,
       L.Close (slen (L.sources (L.ego w)) + 4 + k) w = Done tt w1 /\
       chclosed (L.input (L.ego w1)) = true /\
       L.Close (slen (L.sources (L.ego w)) + 4 + k) w1 = Done tt w1).
Proof.
  split.
  - intros f w (Hlock & Hfit & _ & _).
    destruct (AF.Close_ok f w Hlock Hfit) as (w' & E & K).
    exists (A.set_closed true w'). split; [done|]. split; [done|].
    destruct K as [Hlock' Hfit' _ _ _ _ _ _ _].
    destruct (AF.Close_ok f (A.set_closed true w')) as (w2 & E2 & K2);
      [done..|].
    etrans; [exact E2|]. f_equal.
    rewrite (AF.keeps_closed _ _ K2) by done.
    by apply AF.set_closed_id.
  - intros k w Hwf.
    destruct (LF.lazy_Close_ok k w Hwf) as (w1 & E & Hz & Hc & K).
    exists w1. split; [done|]. split; [done|].
    replace (slen (L.sources (L.ego w)) + 4 + k)%nat
      with (S (S (slen (L.sources (L.ego w)) + 2 + k))) by lia.
    rewrite LF.lazy_Close_empty by (done || apply K).
    by rewrite LF.closed_input_id.
Qed.

End WithT.
End MergerFacts.

(* ===================================================================== *)
(** ** The statements at concrete mergers and multiplexers *)
(* ===================================================================== *)

Module Instances.
Module A := ActiveMerger.
Module L := LazyMerger.
Module X := Multiplexer.

(** A new active merger, open and with nothing attached. *)
Definition active_new : A.world nat := A.NewActiveMerger false [].

(** An active merger with sources 0, 1, 2 attached, the cursor on 1. *)
Definition active_three : A.world nat :=
  A.MkWorld [MkChan 2 [] false; MkChan 2 [] false; MkChan 2 [7%nat] false] []
    (A.MkActive false (MkSlice [0; 1; 2]%nat 3) false false 1).

(** Active mergers with one source attached, with and without
    autoclose, and a closed one. *)
Definition active_one (ac : bool) : A.world nat :=
  A.MkWorld [MkChan 2 [] true] [] (A.MkActive false (MkSlice [0%nat] 1) ac false 0).
Definition active_closed : A.world nat :=
  A.MkWorld [] [] (A.MkActive true make0 false false 0).

(** Lazy mergers: one source attached; two sources attached; closed and
    drained. *)
Definition lazy_one (ac : bool) : L.world nat :=
  L.MkWorld [Plain 0] (L.MkLazy (MkChan 2 [] false) (MkSlice [Plain 0] 1) ac [] false false).
Definition lazy_two : L.world nat :=
  L.MkWorld [Plain 0; Channeled 1]
    (L.MkLazy (MkChan 4 [3%nat] false) (MkSlice [Plain 0; Channeled 1] 2)
       true [] false false).
Definition lazy_closed : L.world nat :=
  L.MkWorld [] (L.MkLazy (MkChan 2 [] true) make0 false [] false false).

(** A multiplexer with two outputs. *)
Definition mux_two : X.multiplexer nat :=
  X.MkMux [] [NewChanneledInput 1; NewChanneledInput 1] [].

Lemma active_three_well_formed : A.well_formed active_three.
Proof. unfold A.well_formed, max_int, len. simpl. lia. Qed.

Lemma active_one_well_formed ac : A.well_formed (active_one ac).
Proof. unfold A.well_formed, max_int, len. simpl. lia. Qed.

Lemma lazy_one_well_formed ac : L.well_formed (lazy_one ac).
Proof. unfold L.well_formed. simpl. repeat split; (lia || done). Qed.

Lemma lazy_two_well_formed : L.well_formed lazy_two.
Proof. unfold L.well_formed. simpl. repeat split; (lia || done). Qed.

Lemma Consume_buffer_then_overflow_witness :
  L.Consume 0%nat lazy_closed = Done (0%nat, false, None) lazy_closed /\
  (buf (L.input (L.ego lazy_closed)) = [] /\
   chclosed (L.input (L.ego lazy_closed)) = true /\
   L.overflowBuffer (L.ego lazy_closed) = [] /\
   lazy_closed = lazy_closed).
Proof.
  split; [reflexivity|].
  apply (proj1 (proj2 (proj2 (proj2 (proj2
           (LazyMergerFacts.Consume_buffer_then_overflow 0%nat)))))
           lazy_closed 0%nat None lazy_closed).
  reflexivity.
Defined.

Lemma autoclose_on_last_detach_witness :
  (A.well_formed (active_one true) /\
   A.closed (A.ego (active_one true)) = false /\
   A.registry (active_one true) = [0%nat] /\
   exists w1,
     A.unsetSource 2 (Channeled 0) (active_one true) = Done tt w1 /\
     A.registry w1 = [] /\ A.closed (A.ego w1) = true) /\
  (L.well_formed (lazy_one false) /\
   chclosed (L.input (L.ego (lazy_one false))) = false /\
   L.registry (lazy_one false) = [Plain 0] /\
   exists w1,
     L.unsetSource 3 (Plain 0) (lazy_one false) = Done tt w1 /\
     L.registry w1 = [] /\ chclosed (L.input (L.ego w1)) = false).
Proof.
  split.
  - split; [apply active_one_well_formed|]. do 2 (split; [reflexivity|]).
    destruct (proj1 MergerFacts.autoclose_on_last_detach 0%nat
                (active_one true) 0%nat (active_one_well_formed true)
                eq_refl eq_refl) as (w1 & E & R & C & _).
    exists w1. auto.
  - split; [apply lazy_one_well_formed|]. do 2 (split; [reflexivity|]).
    destruct (proj2 MergerFacts.autoclose_on_last_detach 0%nat
                (lazy_one false) (Plain 0) (lazy_one_well_formed false)
                eq_refl eq_refl) as (w1 & E & R & C & _).
    exists w1. auto.
Defined.

Lemma Consume_empty_registry_witness :
  A.well_formed active_new /\ A.registry active_new = [] /\
  A.closed (A.ego active_new) = false /\
  A.Consume 0%nat 1 active_new = Done (0%nat, true, errNoSources) active_new.
Proof.
  assert (Hwf : A.well_formed active_new)
    by apply ActiveMergerFacts.NewActiveMerger_well_formed.
  split; [exact Hwf|]. do 2 (split; [reflexivity|]).
  apply (proj2 (ActiveMergerFacts.Consume_empty_registry 0%nat 0%nat
                  active_new Hwf eq_refl)).
  reflexivity.
Defined.

Lemma SetSource_on_closed_witness :
  (A.closed (A.ego active_closed) = true /\
   A.SetSource (Plain 3) active_closed = Done errClosed active_closed) /\
  (chclosed (L.input (L.ego lazy_closed)) = true /\
   L.sourcesLock (L.ego lazy_closed) = false /\
   L.SetSource (Plain 3) lazy_closed = Done errClosed lazy_closed).
Proof.
  split.
  - split; [reflexivity|].
    apply (proj1 MergerFacts.SetSource_on_closed). reflexivity.
  - do 2 (split; [reflexivity|]).
    apply (proj2 MergerFacts.SetSource_on_closed); reflexivity.
Defined.

Lemma pipeData_broadcasts_witness :
  X.stops (X.Yield 0%nat false None) = true /\ 0 <= 1 /\ Z.of_nat 2 <= 8 /\
  exists m0,
    X.NewMultiplexer 8 1 2
      [X.Yield 5%nat true None; X.Yield 6%nat true None;
       X.Yield 0%nat false None] = Some m0 /\
    X.pipeData X.alone 3 m0
    = Blocks
        (X.MkMux [X.Yield 0%nat false None]
           [MkChan 1 [5%nat] false; MkChan 1 [5%nat] false]
           [X.Wrote 0 5%nat; X.Wrote 1 5%nat]) /\
    X.pipeData X.keep_up 3 m0
    = Done tt
        (X.MkMux [] [MkChan 1 [6%nat] true; MkChan 1 [6%nat] true]
           [X.Wrote 0 5%nat; X.Wrote 1 5%nat; X.Wrote 0 6%nat;
            X.Wrote 1 6%nat; X.ClosedOutput 1; X.ClosedOutput 0]) /\
    X.reads 2 (MkChan 1 [6%nat] true) = ([6%nat], true).
Proof.
  assert (Hcap : 0 <= 1) by lia.
  assert (Hlen : Z.of_nat 2 <= 8) by (simpl; lia).
  assert (Hmore : 1 < Z.of_nat (length [5; 6]%nat)) by (simpl; lia).
  assert (Hone : 1 <= 1) by lia.
  split; [reflexivity|]. split; [exact Hcap|]. split; [exact Hlen|].
  destruct (MultiplexerFacts.pipeData_broadcasts 8 1 2 [5; 6]%nat
              (X.Yield 0%nat false None) [] 0 eq_refl Hcap Hlen)
    as (m0 & E & _ & _ & Hwaits & Hkeeps & Hreads).
  exists m0. split; [exact E|]. split; [|split].
  - exact (Hwaits Hmore (Nat.lt_0_succ 1)).
  - exact (Hkeeps Hone).
  - exact (Hreads [6%nat]).
Defined.

Lemma Close_twice_witness :
  (A.well_formed active_three /\
   exists w1,
     A.Close 3 active_three = Done tt w1 /\
     A.closed (A.ego w1) = true /\
     A.Close 3 w1 = Done tt w1) /\
  (L.well_formed lazy_two /\
   exists w1,
     L.Close 6 lazy_two = Done tt w1 /\
     chclosed (L.input (L.ego w1)) = true /\
     L.Close 6 w1 = Done tt w1).
Proof.
  split.
  - split; [apply active_three_well_formed|].
    exact (proj1 MergerFacts.Close_twice 0%nat active_three
             active_three_well_formed).
  - split; [apply lazy_two_well_formed|].
    exact (proj2 MergerFacts.Close_twice 0%nat lazy_two
             lazy_two_well_formed).
Defined.

Lemma Consume_cursor_in_bounds_witness :
  A.well_formed active_three /\
  A.registry active_three <> [] /\
  (A.advance (A.ego active_three) = (1 + 1) mod 3 /\
   0 <= A.advance (A.ego active_three) < 3 /\
   is_Some (index (A.sources (A.ego active_three))
              (A.advance (A.ego active_three)))) /\
  exists t w',
    A.poll 2 active_three = Done t w' /\
    A.well_formed w' /\
    A.nextToReadFrom (A.ego w') = A.advance (A.ego active_three) /\
    A.Consume 0%nat 3 active_three
    = match t with
      | A.Break => A.after_loop 0%nat w'
      | A.Continue => A.Consume 0%nat 2 w'
      | A.Return value valid err => Done (value, valid, err) w'
      end.
Proof.
  split; [apply active_three_well_formed|].
  assert (Hne : A.registry active_three <> []) by discriminate.
  split; [exact Hne|].
  destruct (ActiveMergerFacts.Consume_cursor_in_bounds 0%nat
              active_three active_three_well_formed)
    as (Hadv & Hturn & _).
  split; [exact (Hadv Hne)|].
  destruct (Hturn 0%nat) as (t & w' & E & Hwf' & EC & _ & Hcur).
  exists t, w'. split; [exact E|]. split; [exact Hwf'|].
  split; [exact (proj1 (Hcur Hne))|exact EC].
Defined.

Lemma Out_in_range_or_panics_witness :
  (0 <= 1 < Z.of_nat (length (X.outputs mux_two)) /\
   exists o, X.outputs mux_two !! Z.to_nat 1 = Some o /\
             X.Out 1 mux_two = Done o mux_two) /\
  (~ 0 <= 5 < Z.of_nat (length (X.outputs mux_two)) /\
   X.Out 5 mux_two = Panics IndexOutOfRange mux_two) /\
  (~ 0 <= -1 < Z.of_nat (length (X.outputs mux_two)) /\
   X.Out (-1) mux_two = Panics IndexOutOfRange mux_two).
Proof.
  assert (H1 : 0 <= 1 < Z.of_nat (length (X.outputs mux_two)))
    by (simpl; lia).
  assert (H5 : ~ 0 <= 5 < Z.of_nat (length (X.outputs mux_two)))
    by (simpl; lia).
  assert (Hm : ~ 0 <= -1 < Z.of_nat (length (X.outputs mux_two)))
    by (simpl; lia).
  split; [split; [exact H1|]|split; (split; [assumption|])].
  - exact (proj1 (MultiplexerFacts.Out_in_range_or_panics mux_two 1) H1).
  - exact (proj1 (proj2 (MultiplexerFacts.Out_in_range_or_panics mux_two 5)) H5).
  - exact (proj1 (proj2 (MultiplexerFacts.Out_in_range_or_panics mux_two (-1))) Hm).
Defined.

Lemma Consume_error_carries_valid_witness :
  A.Consume 0%nat 1 active_new
    = Done (0%nat, true, errNoSources) active_new /\
  (0%nat = 0%nat /\ true = true /\
   errNoSources = errNoSources /\
   A.closed (A.ego active_new) = false /\ A.registry active_new = []).
Proof.
  split; [reflexivity|].
  apply (proj1 (ActiveMergerFacts.Consume_error_carries_valid 0%nat)
           1%nat active_new 0%nat true _ active_new).
  reflexivity.
Defined.

(** *** Runs *)

(** [Close] of the active merger empties a registry of one or two
    sources; the lazy merger's empties one of three. *)
Example active_Close_two :
  A.Close 3 (A.MkWorld [] [] (A.MkActive false (MkSlice [4; 5]%nat 2) false false 0)
             : A.world nat)
  = Done tt (A.MkWorld [] [] (A.MkActive true (MkSlice [5; 5]%nat 0) false false 0)).
Proof. reflexivity. Qed.

Example lazy_Close_three :
  (L.SetSource (Plain 0) >> L.SetSource (Plain 1) >> L.SetSource (Channeled 2) >>
   L.Close 7 >> get) (L.NewChanneledLazyMerger (T:=nat) 4 true)
  = let w := L.MkWorld [Plain 0; Plain 1; Channeled 2]
               (L.MkLazy (MkChan 4 [] true)
                  (MkSlice [Channeled 2; Channeled 2; Channeled 2] 0)
                  true [] false false) in
    Done w w.
Proof. reflexivity. Qed.

(** Three ready sources are read in rotation, starting after the cursor. *)
Example active_round_robin :
  (let* x := A.Consume 0%nat 1 in
   let* y := A.Consume 0%nat 1 in
   let* z := A.Consume 0%nat 1 in
   ret (x.1.1, y.1.1, z.1.1))
    (A.MkWorld [MkChan 2 [10; 11]%nat false; MkChan 2 [20]%nat false;
                MkChan 2 [30]%nat false] []
       (A.MkActive false (MkSlice [0; 1; 2]%nat 3) false false 0))
  = Done (20%nat, 30%nat, 10%nat)
      (A.MkWorld [MkChan 2 [11%nat] false; MkChan 2 [] false; MkChan 2 [] false] []
         (A.MkActive false (MkSlice [0; 1; 2]%nat 3) false false 0)).
Proof. reflexivity. Qed.

(** A drained, closed source is detached by the poll and, with autoclose,
    the merger ends the stream. *)
Example active_autoclose_on_drained_source :
  A.Consume 0%nat 3 (active_one true)
  = Done (0%nat, false, None)
      (A.MkWorld [MkChan 2 [] true] []
         (A.MkActive true (MkSlice [0%nat] 0) true false 0)).
Proof. reflexivity. Qed.

(** Buffered values first, then the overflow entries, then end-of-stream. *)
Example lazy_drain :
  L.drain 0%nat 5
    (L.MkWorld [] (L.MkLazy (MkChan 2 [1; 2]%nat true) make0 false [3; 4]%nat
                     false false))
  = Done [1; 2; 3; 4]%nat lazy_closed.
Proof. reflexivity. Qed.

(** A panic of the upstream still closes both outputs. *)
Example pipeData_upstream_panic :
  X.pipeData X.alone 3
    (X.MkMux [X.Yield 5%nat true None; X.GetPanics]
       [NewChanneledInput 1; NewChanneledInput 1] [])
  = Panics ExplicitPanic
      (X.MkMux [] [MkChan 1 [5%nat] true; MkChan 1 [5%nat] true]
         [X.Wrote 0 5%nat; X.Wrote 1 5%nat; X.ClosedOutput 1; X.ClosedOutput 0]).
Proof. reflexivity. Qed.

End Instances.

(* ===================================================================== *)
(** ** Detaching, seen on the registry *)
(* ===================================================================== *)

Module RegistryFacts.
Section Lists.
Context {A : Type} `{EqDecision A}.
Implicit Types (l : list A) (s : slice A) (x : A).

Lemma remove_first_elem_of x y l : y ∈ remove_first x l -> y ∈ l.
Proof.
  induction l as [|z l IH]; simpl; [done|].
  case_decide; rewrite !elem_of_cons; [auto|]. intros [->|?]; auto.
Qed.

Lemma remove_first_absent x l : x ∉ l -> remove_first x l = l.
Proof.
  induction l as [|z l IH]; simpl; [done|].
  rewrite elem_of_cons. intros Hx. case_decide as Hz; [by destruct Hx; left|].
  f_equal. apply IH. intros Hin. apply Hx. by right.
Qed.

Lemma remove_first_length x l :
  x ∈ l -> S (length (remove_first x l)) = length l.
Proof.
  induction l as [|z l IH]; simpl; [by rewrite elem_of_nil|].
  rewrite elem_of_cons. intros Hx. case_decide as Hz; [done|].
  simpl. f_equal. apply IH. destruct Hx as [->|Hx]; [done|exact Hx].
Qed.

Lemma remove_first_app_absent x l : x ∉ l -> remove_first x (l ++ [x]) = l.
Proof.
  induction l as [|z l IH]; simpl.
  - intros _. by rewrite decide_True.
  - rewrite elem_of_cons. intros Hx.
    case_decide as Hz; [by destruct Hx; left|].
    f_equal. apply IH. intros Hin. apply Hx. by right.
Qed.

(** The search of [unsetSource] followed by its deletion, on lists. *)
Lemma find_from_remove_first (p : A -> bool) x l k :
  (forall y, p y = bool_decide (y = x)) ->
  match find_from p l k with
  | Some i => (k <= i)%nat /\ (i - k < length l)%nat /\
              take (i - k) l ++ drop (S (i - k)) l = remove_first x l
  | None => remove_first x l = l
  end.
Proof.
  intros Hp. revert k. induction l as [|y l IH]; intros k; simpl; [done|].
  rewrite Hp. case_bool_decide as Hy.
  - rewrite decide_True by done. rewrite Nat.sub_diag. simpl.
    split; [lia|]. split; [lia|]. by rewrite drop_0.
  - rewrite decide_False by done. specialize (IH (S k)).
    destruct (find_from p l (S k)) as [i|].
    + destruct IH as (Hle & Hlt & IH). split; [lia|]. split; [lia|].
      replace (i - k)%nat with (S (i - S k)) by lia. simpl. by rewrite IH.
    + by rewrite IH.
Qed.

(** The same on a slice: the in-place deletion leaves exactly the list
    without the first occurrence. *)
Lemma view_removed (p : A -> bool) x s :
  (slen s <= length (arr s))%nat ->
  (forall y, p y = bool_decide (y = x)) ->
  view (match find_first p s with
        | Some i => delete_at s i
        | None => s
        end) = remove_first x (view s).
Proof.
  intros Hfit Hp. unfold find_first.
  pose proof (find_from_remove_first p x (view s) 0 Hp) as H0.
  destruct (find_from p (view s) 0) as [i|]; [|done].
  destruct H0 as (_ & Hlt & H0). rewrite Nat.sub_0_r in *.
  rewrite GoFacts.length_view in Hlt by done.
  by rewrite GoFacts.view_delete_at.
Qed.
End Lists.

Section Active.
Import ActiveMerger ActiveMergerFacts.
Context {T : Type}.
Implicit Types (w : world T).

Lemma active_registry_removed r w :
  (slen (sources (ego w)) <= length (arr (sources (ego w))))%nat ->
  registry (removed (Channeled r) w) = remove_first r (registry w).
Proof.
  intros Hfit. unfold registry.
  rewrite <- (view_removed
                (fun source => bool_decide (Channeled source = Channeled r))
                r (sources (ego w)) Hfit).
  - unfold removed. by destruct (find_first _ _).
  - intros y. apply bool_decide_ext. split; congruence.
Qed.

Lemma active_registry_removed_plain p w :
  registry (removed (Plain p) w) = registry w.
Proof.
  unfold removed, find_first.
  assert (H : forall l k,
            find_from (fun source : nat =>
                         bool_decide (Channeled source = Plain p)) l k = None).
  { induction l as [|y l IH]; intros k; simpl; [done|].
    try rewrite bool_decide_false by done. apply IH. }
  by rewrite H.
Qed.

Lemma active_unsetSource_effect f r w :
  well_formed w -> closed (ego w) = false ->
  exists w',
    unsetSource (2 + f) (Channeled r) w = Done tt w' /\
    registry w' = remove_first r (registry w) /\
    closed (ego w')
      = autoclose (ego w) && bool_decide (remove_first r (registry w) = []) /\
    well_formed w' /\
    heap w' = heap w /\ tasks w' = tasks w /\
    nextToReadFrom (ego w') = nextToReadFrom (ego w) /\
    autoclose (ego w') = autoclose (ego w).
Proof.
  intros Hwf Hopen. pose proof Hwf as (Hlock & Hfit & _).
  destruct (removed_same (Channeled r) w) as (Hlk & Hcl & Hac & Hnx & Hh & Hts).
  destruct (detached_keeps (Channeled r) w Hlock Hopen Hfit) as [K1 K2].
  pose proof (active_registry_removed r w Hfit) as Hreg.
  destruct (removed_fits (Channeled r) w Hfit) as (Hfit1 & _ & _).
  assert (Hempty : bool_decide (len (sources (ego (removed (Channeled r) w))) = 0)
                   = bool_decide (remove_first r (registry w) = [])).
  { apply bool_decide_ext. rewrite <- Hreg.
    rewrite (registry_nil _ Hfit1). unfold len. lia. }
  assert (Hwf1 : well_formed (removed (Channeled r) w))
    by (by apply (keeps_well_formed w)).
  assert (Hwf2 : well_formed (set_closed true (removed (Channeled r) w)))
    by (by apply (keeps_well_formed w)).
  eexists. split; [by apply unsetSource_open|]. cbv zeta.
  rewrite Hac, Hempty.
  destruct (autoclose (ego w) && bool_decide (remove_first r (registry w) = [])).
  - by repeat (split; [done|]).
  - rewrite Hcl, Hopen. by repeat (split; [done|]).
Qed.

(** X3: on an open active merger [unsetSource] takes the first occurrence
    of the source out of the registry and keeps the others in their
    order; with a source that is not attached the registry is left as it
    is.  The merger is closed afterwards exactly when [autoclose] is set
    and the registry is then empty, whether or not anything was removed.
    The channels, the tasks and the cursor are untouched. *)
Theorem active_unsetSource_registry f r w :
  well_formed w -> closed (ego w) = false ->
  exists w',
    unsetSource (2 + f) (Channeled r) w = Done tt w' /\
    registry w' = remove_first r (registry w) /\
    closed (ego w')
      = autoclose (ego w) && bool_decide (remove_first r (registry w) = []) /\
    well_formed w' /\
    heap w' = heap w /\ tasks w' = tasks w /\
    nextToReadFrom (ego w') = nextToReadFrom (ego w).
Proof.
  intros Hwf Hopen.
  destruct (active_unsetSource_effect f r w Hwf Hopen)
    as (w' & E & ? & ? & ? & ? & ? & ? & _).
  exists w'. by repeat (split; [done|]).
Qed.
End Active.

Section Lazy.
Import LazyMerger LazyMergerFacts.
Context {T : Type}.
Implicit Types (w : world T).

Lemma lazy_registry_removed s w :
  (slen (sources (ego w)) <= length (arr (sources (ego w))))%nat ->
  registry (removed s w) = remove_first s (registry w).
Proof.
  intros Hfit. unfold registry.
  rewrite <- (view_removed (fun source => bool_decide (source = s))
                s (sources (ego w)) Hfit) by done.
  unfold removed. by destruct (find_first _ _).
Qed.

Lemma lazy_unsetSource_effect f s w :
  well_formed w -> chclosed (input (ego w)) = false ->
  exists w',
    unsetSource (3 + f) s w = Done tt w' /\
    registry w' = remove_first s (registry w) /\
    chclosed (input (ego w'))
      = autoclose (ego w) && bool_decide (remove_first s (registry w) = []) /\
    well_formed w' /\
    buf (input (ego w')) = buf (input (ego w)) /\
    overflowBuffer (ego w') = overflowBuffer (ego w) /\
    tasks w' = tasks w /\
    autoclose (ego w') = autoclose (ego w).
Proof.
  intros Hwf Hopen. pose proof Hwf as (Hlock & Holock & Hfit & _).
  destruct (lazy_removed_same s w) as (Hlk & Holk & Hin & Hac & Hov & Hts).
  pose proof (lazy_registry_removed s w Hfit) as Hreg.
  pose proof (lazy_removed_fits s w Hfit) as Hfit1.
  assert (Hz : slen (sources (ego (removed s w))) = 0%nat
               <-> remove_first s (registry w) = []).
  { rewrite <- Hreg. unfold registry. split.
    - unfold view. by intros ->.
    - intros Hv. rewrite <- (GoFacts.length_view _ Hfit1). by rewrite Hv. }
  assert (Hempty : bool_decide (len (sources (ego (removed s w))) = 0)
                   = bool_decide (remove_first s (registry w) = [])).
  { apply bool_decide_ext. rewrite <- Hz. unfold len. lia. }
  eexists. split; [by apply lazy_unsetSource_open|]. cbv zeta.
  rewrite Hac, Hempty.
  destruct (autoclose (ego w) && bool_decide (remove_first s (registry w) = []))
    eqn:Hauto.
  - apply andb_prop in Hauto as [_ He]. apply bool_decide_eq_true in He.
    apply Hz in He.
    unfold well_formed. simpl. rewrite Hlk, Holk, Hin, Hov, Hts.
    repeat split; try done; lia.
  - unfold well_formed. rewrite Hlk, Holk, Hin, Hov, Hts, Hopen.
    repeat split; try done.
Qed.

(** X4: the same for the lazy merger: [unsetSource] on an open merger
    removes the first occurrence of the source and nothing else from the
    registry, and closes the shared buffer exactly when [autoclose] is set
    and the registry is then empty; what is buffered, the overflow buffer
    and the started tasks are untouched. *)
Theorem lazy_unsetSource_registry f s w :
  well_formed w -> chclosed (input (ego w)) = false ->
  exists w',
    unsetSource (3 + f) s w = Done tt w' /\
    registry w' = remove_first s (registry w) /\
    chclosed (input (ego w'))
      = autoclose (ego w) && bool_decide (remove_first s (registry w) = []) /\
    well_formed w' /\
    buf (input (ego w')) = buf (input (ego w)) /\
    overflowBuffer (ego w') = overflowBuffer (ego w) /\
    tasks w' = tasks w.
Proof.
  intros Hwf Hopen.
  destruct (lazy_unsetSource_effect f s w Hwf Hopen)
    as (w' & E & ? & ? & ? & ? & ? & ? & _).
  exists w'. by repeat (split; [done|]).
Qed.
End Lazy.
End RegistryFacts.

(* ===================================================================== *)
(** ** activeMerger: what the polling loop does with its sources *)
(* ===================================================================== *)

Module ActivePolling.
Import ActiveMerger ActiveMergerFacts Polling.
Section WithT.
Context {T : Type} (zero : T).
Implicit Types (w : world T).

Lemma Consume_polls_on fuel : forall w,
  well_formed w ->
  registry w <> [] ->
  (forall r, r ∈ registry w -> waiting w r) ->
  Consume zero fuel w = OutOfFuel.
Proof.
  induction fuel as [|f IH]; intros w Hwf Hne Hwait; [done|].
  pose proof Hwf as (Hlock & Hfit & _).
  assert (Hlen : slen (sources (ego w)) <> 0%nat).
  { intros Hz. apply Hne. by apply registry_nil. }
  destruct (advanced_well_formed w Hwf Hlen) as (Hwf' & r & Hr & Hin).
  cbn [Consume]. unfold bind at 1.
  rewrite (poll_nonempty f w r) by done.
  rewrite (Hwait r Hin). by apply IH.
Qed.

(** X1: while every attached source is open and has nothing to offer,
    [Consume] keeps polling: it returns for no amount of fuel. *)
Theorem Consume_busy_waits fuel w :
  well_formed w ->
  registry w <> [] ->
  (forall r, r ∈ registry w -> waiting w r) ->
  Consume zero fuel w = OutOfFuel.
Proof. apply Consume_polls_on. Qed.

(** *** Rotation *)

Lemma after_cursor_advanced w i :
  well_formed w -> slen (sources (ego w)) <> 0%nat ->
  after_cursor (advanced w) i = after_cursor w (1 + i).
Proof.
  intros (_ & _ & _ & Hcur) Hlen.
  destruct (advance_in_bounds (ego w) Hcur) as [Hadv _];
    [unfold len; lia|].
  unfold after_cursor, advanced. simpl. rewrite Hadv.
  rewrite Z.add_mod_idemp_l by (unfold len; lia).
  f_equal. f_equal. lia.
Qed.

Lemma after_cursor_1 w :
  well_formed w -> slen (sources (ego w)) <> 0%nat ->
  after_cursor w 1 = index (sources (ego w)) (advance (ego w)).
Proof.
  intros (_ & _ & _ & Hcur) Hlen.
  destruct (advance_in_bounds (ego w) Hcur) as [Hadv _];
    [unfold len; lia|].
  unfold after_cursor. by rewrite Hadv.
Qed.

(** X2: [Consume] polls the registry in rotation, starting one position
    after the cursor.  When the sources at the first [j] positions have
    nothing to offer and the next one holds a value, [Consume] returns
    that value with [valid] set and no error, takes it off that source's
    channel, leaves the cursor on that position and changes nothing
    else. *)
Theorem Consume_first_ready (j : nat) : forall f w r v rest cl k,
  well_formed w ->
  registry w <> [] ->
  (forall i : nat, (i < j)%nat ->
     exists q, after_cursor w (1 + Z.of_nat i) = Some q /\ waiting w q) ->
  after_cursor w (1 + Z.of_nat j) = Some r ->
  heap w !! r = Some (MkChan k (v :: rest) cl) ->
  Consume zero (S j + f) w =
    Done (v, true, None)
      (set_chan r (MkChan k rest cl)
         (set_nextToReadFrom
            ((nextToReadFrom (ego w) + (1 + Z.of_nat j))
               mod len (sources (ego w))) w)).
Proof.
  induction j as [|j IH]; intros f w r v rest cl k Hwf Hne Hskip Hr Hheap.
  - pose proof Hwf as (Hlock & Hfit & _ & Hcur).
    assert (Hlen : slen (sources (ego w)) <> 0%nat).
    { intros Hz. apply Hne. by apply registry_nil. }
    rewrite Z.add_0_r in *. rewrite after_cursor_1 in Hr by done.
    destruct (advance_in_bounds (ego w) Hcur) as [Hadv _];
      [unfold len; lia|].
    cbn [Nat.add Consume]. unfold bind at 1.
    rewrite (poll_nonempty f w r) by done.
    unfold receive, Channel. rewrite Hheap. simpl.
    unfold advanced. by rewrite Hadv.
  - pose proof Hwf as (Hlock & Hfit & _ & Hcur).
    assert (Hlen : slen (sources (ego w)) <> 0%nat).
    { intros Hz. apply Hne. by apply registry_nil. }
    destruct (advanced_well_formed w Hwf Hlen) as (Hwf' & q0 & Hq0 & _).
    destruct (Hskip 0%nat) as (q & Hq & Hwq); [lia|].
    rewrite Z.add_0_r, after_cursor_1 in Hq by done.
    rewrite Hq0 in Hq. injection Hq as ->.
    change (S (S j) + f)%nat with (S (S j + f)).
    cbn [Consume]. unfold bind at 1.
    rewrite (poll_nonempty (S j + f) w q) by done.
    unfold waiting in Hwq. rewrite Hwq.
    rewrite (IH f (advanced w) r v rest cl k); try done.
    + destruct (advance_in_bounds (ego w) Hcur) as [Hadv _];
        [unfold len; lia|].
      assert (HX : (advance (ego w) + (1 + Z.of_nat j))
                     mod len (sources (ego w))
                   = (nextToReadFrom (ego w) + (1 + Z.of_nat (S j)))
                       mod len (sources (ego w))).
      { rewrite Hadv, Z.add_mod_idemp_l by (unfold len; lia).
        f_equal. lia. }
      unfold advanced. simpl. by rewrite HX.
    + intros i Hi. rewrite after_cursor_advanced by done.
      destruct (Hskip (S i)) as (q' & Hq' & Hw'); [lia|].
      exists q'. split; [|done]. rewrite <- Hq'. f_equal. lia.
    + rewrite after_cursor_advanced by done. rewrite <- Hr. f_equal. lia.
Qed.

(** *** Sources that have ended *)

(** A turn that finds its source closed and drained detaches it and
    polls on. *)
Lemma Consume_drained_turn F w :
  well_formed w -> closed (ego w) = false ->
  registry w <> [] ->
  (forall r, r ∈ registry w -> drained w r) ->
  exists r w1,
    r ∈ registry w /\
    Consume zero (S (2 + F)) w = Consume zero (2 + F) w1 /\
    registry w1 = remove_first r (registry w) /\
    closed (ego w1)
      = autoclose (ego w) && bool_decide (remove_first r (registry w) = []) /\
    well_formed w1 /\ heap w1 = heap w /\
    autoclose (ego w1) = autoclose (ego w).
Proof.
  intros Hwf Hopen Hne Hdr. pose proof Hwf as (Hlock & Hfit & _).
  assert (Hlen : slen (sources (ego w)) <> 0%nat).
  { intros Hz. apply Hne. by apply registry_nil. }
  destruct (advanced_well_formed w Hwf Hlen) as (Hwf' & r & Hr & Hin).
  destruct (RegistryFacts.active_unsetSource_effect F r (advanced w) Hwf' Hopen)
    as (w1 & E1 & Hreg1 & Hcl1 & Hwf1 & Hheap1 & _ & _ & Hac1).
  exists r, w1. split; [done|]. split; [|done].
  cbn [Consume]. unfold bind at 1.
  rewrite (poll_nonempty _ w r) by done.
  rewrite (Hdr r Hin). unfold bind at 1. by rewrite E1.
Qed.

Lemma Consume_detaches_drained (n : nat) : forall f w,
  well_formed w -> closed (ego w) = false ->
  length (registry w) = S n ->
  (forall r, r ∈ registry w -> drained w r) ->
  exists w',
    Consume zero (S n + 2 + f) w
    = Done (if autoclose (ego w) then (zero, false, None)
            else (zero, true, errNoSources)) w' /\
    registry w' = [] /\
    closed (ego w') = autoclose (ego w).
Proof.
  induction n as [|n IH]; intros f w Hwf Hopen Hn Hdr.
  - destruct (Consume_drained_turn f w) as
      (r & w1 & Hin & E & Hreg1 & Hcl1 & Hwf1 & Hheap1 & Hac1); try done.
    { intros Hz. by rewrite Hz in Hn. }
    pose proof (RegistryFacts.remove_first_length r (registry w) Hin) as Hl.
    rewrite Hn in Hl. injection Hl as Hl. rewrite <- Hreg1 in Hl.
    apply nil_length_inv in Hl.
    rewrite <- Hreg1, Hl, bool_decide_true, andb_true_r in Hcl1 by done.
    exists w1. split; [|done].
    change (1 + 2 + f)%nat with (S (2 + f)). rewrite E.
    destruct Hwf1 as (Hlock1 & Hfit1 & _).
    change (2 + f)%nat with (S (S f)).
    rewrite Consume_empty; [|done|by apply registry_nil].
    by rewrite Hcl1.
  - destruct (Consume_drained_turn (S n + f) w) as
      (r & w1 & Hin & E & Hreg1 & Hcl1 & Hwf1 & Hheap1 & Hac1); try done.
    { intros Hz. by rewrite Hz in Hn. }
    pose proof (RegistryFacts.remove_first_length r (registry w) Hin) as Hl.
    rewrite Hn in Hl. injection Hl as Hl. rewrite <- Hreg1 in Hl.
    assert (Hne : registry w1 <> []) by (intros Hz; by rewrite Hz in Hl).
    rewrite <- Hreg1, bool_decide_false, andb_false_r in Hcl1 by done.
    destruct (IH f w1) as (w' & E' & Hreg' & Hcl'); try done.
    { intros q Hq. rewrite Hreg1 in Hq.
      apply RegistryFacts.remove_first_elem_of in Hq.
      specialize (Hdr q Hq). unfold drained, Channel in *.
      by rewrite Hheap1. }
    exists w'. rewrite <- Hac1. split; [|done].
    replace (S (S n) + 2 + f)%nat with (S (2 + (S n + f))) by lia.
    rewrite E.
    replace (2 + (S n + f))%nat with (S n + 2 + f)%nat by lia.
    exact E'.
Qed.

(** X5: when every attached source is closed and drained, [Consume] of an
    open merger detaches them all and returns: end-of-stream with the
    merger closed if [autoclose] is set, the "no sources" error with the
    merger still open otherwise.  The registry is empty afterwards. *)
Theorem Consume_all_drained (n : nat) f w :
  well_formed w -> closed (ego w) = false ->
  length (registry w) = S n ->
  (forall r, r ∈ registry w -> drained w r) ->
  exists w',
    Consume zero (S n + 2 + f) w
    = Done (if autoclose (ego w) then (zero, false, None)
            else (zero, true, errNoSources)) w' /\
    registry w' = [] /\
    closed (ego w') = autoclose (ego w).
Proof. apply Consume_detaches_drained. Qed.

End WithT.
End ActivePolling.

(* ===================================================================== *)
(** ** activeMerger: which sources [Close] detaches *)
(* ===================================================================== *)

Module ActiveCloseFacts.
Import ActiveMerger ActiveMergerFacts Polling.
Section WithT.
Context {T : Type}.
Implicit Types (w : world T).

(** Where the entries of the array are after an in-place deletion. *)
Lemma delete_at_lookup {A} (s : slice A) k j :
  (slen s <= length (arr s))%nat -> (k < slen s)%nat ->
  arr (delete_at s k) !! j =
    if decide (j < k)%nat then arr s !! j
    else if decide (j < slen s - 1)%nat then arr s !! S j
    else arr s !! j.
Proof.
  intros Hfit Hk. rewrite GoFacts.delete_at_in_place by done. simpl.
  case_decide as H1.
  - rewrite lookup_app_l by (rewrite length_take; lia).
    by rewrite lookup_take_lt.
  - rewrite lookup_app_r by (rewrite length_take; lia).
    rewrite length_take_le by lia.
    assert (Hl : length (drop (S k) (view s)) = (slen s - S k)%nat).
    { rewrite length_drop, GoFacts.length_view by done. done. }
    case_decide as H2.
    + rewrite lookup_app_l by lia. rewrite lookup_drop. unfold view.
      rewrite lookup_take_lt by lia. f_equal. lia.
    + rewrite lookup_app_r by lia. rewrite Hl, lookup_drop. f_equal. lia.
Qed.

Lemma find_first_lookup {A} (p : A -> bool) (s : slice A) k :
  (slen s <= length (arr s))%nat ->
  find_first p s = Some k ->
  (k < slen s)%nat /\ exists x, arr s !! k = Some x /\ p x = true.
Proof.
  intros Hfit Hfind. pose proof (GoFacts.find_first_lt _ _ _ Hfind) as Hlt.
  rewrite GoFacts.length_view in Hlt by done. split; [done|].
  apply GoFacts.find_from_bounds in Hfind as (_ & x & Hx & Hp).
  rewrite Nat.sub_0_r in Hx. exists x. split; [|done].
  unfold view in Hx. by rewrite lookup_take_lt in Hx.
Qed.

Lemma front_only_unsetSource n x f y w :
  front_only n x w -> y <> x ->
  (slen (sources (ego w)) <= n)%nat ->
  exists w',
    unsetSource (S (S f)) (Channeled y) w = Done tt w' /\
    front_only n x w' /\
    length (arr (sources (ego w'))) = length (arr (sources (ego w))) /\
    (slen (sources (ego w')) <= n)%nat.
Proof.
  intros (Hopen & Hlock & Hfit & Hpos & H0 & Hrest) Hyx Hn.
  eexists. split; [by apply unsetSource_open|]. cbv zeta.
  unfold removed.
  destruct (find_first _ (sources (ego w))) as [k|] eqn:Hfind.
  - destruct (find_first_lookup _ _ _ Hfit Hfind) as (Hk & z & Hz & Hp).
    apply bool_decide_eq_true in Hp. injection Hp as ->.
    assert (Hk0 : k <> 0%nat).
    { intros ->. rewrite H0 in Hz. by injection Hz. }
    assert (Hslen : slen (delete_at (sources (ego w)) k)
                    = (slen (sources (ego w)) - 1)%nat)
      by (by apply GoFacts.delete_at_slen).
    assert (Hcap : length (arr (delete_at (sources (ego w)) k))
                   = length (arr (sources (ego w))))
      by (by apply GoFacts.delete_at_arr_length).
    assert (Hnz : bool_decide (len (sources (ego (set_sources
                      (delete_at (sources (ego w)) k) w))) = 0) = false).
    { apply bool_decide_eq_false. unfold len. simpl. rewrite Hslen. lia. }
    rewrite Hnz, andb_false_r. simpl.
    split; [|split; [done|lia]].
    unfold front_only. simpl. rewrite Hslen, Hcap.
    repeat split; try done; try lia.
    + rewrite delete_at_lookup by done. by rewrite decide_True by lia.
    + intros j Hj. rewrite delete_at_lookup by done.
      repeat case_decide; apply Hrest; lia.
  - assert (Hnz : bool_decide (len (sources (ego w)) = 0) = false).
    { apply bool_decide_eq_false. unfold len. lia. }
    rewrite Hnz, andb_false_r. by repeat split.
Qed.

Lemma front_only_range n x f : forall m i w,
  front_only n x w ->
  (1 <= i)%nat -> (i + m <= n)%nat ->
  (n <= length (arr (sources (ego w))))%nat ->
  (slen (sources (ego w)) <= n)%nat ->
  exists w',
    range_loop
      (fun i =>
         let* w := get in
         match arr (sources (ego w)) !! i with
         | Some s => unsetSource (S (S f)) (Channeled s)
         | None => panic IndexOutOfRange
         end) i m w = Done tt w' /\
    front_only n x w'.
Proof.
  induction m as [|m IH]; intros i w Hfo Hi Him Hcap Hn.
  - by exists w.
  - destruct (lookup_lt_is_Some_2 (arr (sources (ego w))) i) as [y Hy];
      [lia|].
    assert (Hyx : y <> x).
    { intros ->. destruct Hfo as (_ & _ & _ & _ & _ & Hrest).
      apply (Hrest i); [lia|done]. }
    destruct (front_only_unsetSource n x f y w Hfo Hyx Hn)
      as (w1 & E1 & Hfo1 & Hcap1 & Hn1).
    destruct (IH (S i) w1) as (w2 & E2 & Hfo2); try done; try lia.
    exists w2. split; [|done].
    eapply range_loop_step; [|exact E2].
    by rewrite (Close_visit _ _ y).
Qed.

(** X6: [Close] on an open active merger with three or more sources
    attached, the second of which occurs only once: the range of [Close]
    reads the array that [unsetSource] shifts under it, and the second
    source is never handed to [unsetSource].  [Close] returns with the
    merger closed and that source still first in the registry. *)
Theorem Close_keeps_second f w x0 x1 x2 rest :
  well_formed w -> closed (ego w) = false ->
  registry w = x0 :: x1 :: x2 :: rest ->
  x1 ∉ x2 :: rest ->
  exists w',
    Close (3 + f) w = Done tt w' /\
    closed (ego w') = true /\
    exists rest', registry w' = x1 :: rest'.
Proof.
  intros (Hlock & Hfit & _) Hopen Hreg Hx1.
  set (n := slen (sources (ego w))).
  assert (Hn : n = S (S (S (length rest)))).
  { unfold n. rewrite <- (GoFacts.length_view _ Hfit).
    unfold registry in Hreg. by rewrite Hreg. }
  assert (Hlook : forall j, (j < n)%nat ->
            arr (sources (ego w)) !! j = (x0 :: x1 :: x2 :: rest) !! j).
  { intros j Hj. rewrite <- Hreg. unfold registry, view.
    by rewrite lookup_take_lt. }
  (* iteration 0 detaches [x0] *)
  assert (H0 : arr (sources (ego w)) !! 0%nat = Some x0)
    by (rewrite Hlook by lia; done).
  assert (Hfind : find_first
                    (fun source => bool_decide (Channeled source = Channeled x0))
                    (sources (ego w)) = Some 0%nat).
  { unfold find_first. unfold registry in Hreg. rewrite Hreg. simpl.
    by rewrite bool_decide_true. }
  set (w1 := set_sources (delete_at (sources (ego w)) 0) w).
  assert (E0 : unsetSource (S (S f)) (Channeled x0) w = Done tt w1).
  { rewrite unsetSource_open by done. cbv zeta. unfold removed.
    rewrite Hfind. fold w1.
    assert (Hnz : bool_decide (len (sources (ego w1)) = 0) = false).
    { apply bool_decide_eq_false. unfold w1, len. simpl.
      rewrite GoFacts.delete_at_slen by (fold n; lia). fold n. lia. }
    by rewrite Hnz, andb_false_r. }
  assert (Hfo : front_only n x1 w1).
  { unfold front_only, w1. simpl.
    rewrite GoFacts.delete_at_slen, GoFacts.delete_at_arr_length
      by (fold n; lia).
    fold n. repeat split; try done; try lia.
    - rewrite delete_at_lookup by (fold n; lia).
      rewrite decide_False, decide_True by (fold n; lia).
      rewrite Hlook by lia. done.
    - intros j Hj. rewrite delete_at_lookup by (fold n; lia).
      rewrite decide_False by lia. fold n.
      assert (Hnot : forall i, (2 <= i < n)%nat ->
                arr (sources (ego w)) !! i <> Some x1).
      { intros i Hi. rewrite Hlook by lia.
        destruct i as [|[|i]]; [lia..|]. simpl. intros Hin.
        apply Hx1. by eapply list_elem_of_lookup_2. }
      case_decide; apply Hnot; lia. }
  destruct (front_only_range n x1 f (n - 1) 1 w1) as (w2 & E2 & Hfo2);
    try done; try lia.
  { unfold w1. simpl.
    rewrite GoFacts.delete_at_arr_length by (fold n; lia). fold n. lia. }
  { unfold w1. simpl.
    rewrite GoFacts.delete_at_slen by (fold n; lia). fold n. lia. }
  exists (set_closed true w2). split; [|split; [done|]].
  - change (3 + f)%nat with (S (S (S f))).
    rewrite Close_unfold. unfold bind at 1. unfold get at 1.
    unfold bind at 1. fold n.
    replace n with (S (n - 1)) at 1 by lia.
    rewrite (range_loop_step _ 0 (n - 1) w w1 (Done tt w2));
      [reflexivity| |exact E2].
    by rewrite (Close_visit _ _ x0).
  - destruct Hfo2 as (_ & _ & Hfit2 & Hpos2 & Hx & _).
    unfold registry, view. simpl.
    destruct (arr (sources (ego w2))) as [|y l]; [done|].
    injection Hx as ->.
    destruct (slen (sources (ego w2))) as [|m]; [lia|].
    simpl. by eexists.
Qed.

(** X7: with one or two sources attached, [Close] of an open active
    merger does detach them all: it returns with the registry empty and
    the merger closed. *)
Theorem Close_detaches_up_to_two f w :
  well_formed w -> closed (ego w) = false ->
  (length (registry w) <= 2)%nat ->
  exists w',
    Close (3 + f) w = Done tt w' /\
    closed (ego w') = true /\
    registry w' = [].
Proof.
  intros (Hlock & Hfit & _) Hopen Hlen.
  destruct w as [h ts [c [a n] ac lk nx]].
  simpl in Hlock, Hfit, Hopen. subst c lk.
  unfold registry, view in Hlen. simpl in Hlen.
  rewrite length_take_le in Hlen by done.
  destruct n as [|[|[|n]]]; [| | |lia].
  - exists (MkWorld h ts (MkActive true (MkSlice a 0) ac false nx)).
    by split.
  - destruct a as [|x a]; [simpl in Hfit; lia|].
    exists (MkWorld h ts (MkActive true (MkSlice (x :: a) 0) ac false nx)).
    split; [|done].
    change (3 + f)%nat with (S (S (S f))).
    rewrite Close_unfold. unfold bind at 1. unfold get at 1.
    unfold bind at 1. simpl slen.
    erewrite range_loop_step
      with (r := Done tt (MkWorld h ts
                   (MkActive ac (MkSlice (x :: a) 0) ac false nx)));
      [by destruct ac| |reflexivity].
    rewrite (Close_visit _ _ x) by done.
    rewrite unsetSource_open by done. cbv zeta.
    unfold removed, find_first, view. simpl.
    rewrite bool_decide_true by done. simpl.
    rewrite andb_true_r. by destruct ac.
  - destruct a as [|x [|y a]]; [simpl in Hfit; lia..|].
    exists (MkWorld h ts (MkActive true (MkSlice (y :: y :: a) 0) ac false nx)).
    split; [|done].
    change (3 + f)%nat with (S (S (S f))).
    rewrite Close_unfold. unfold bind at 1. unfold get at 1.
    unfold bind at 1. simpl slen.
    erewrite range_loop_step
      with (r := Done tt (MkWorld h ts
                   (MkActive ac (MkSlice (y :: y :: a) 0) ac false nx)));
      [by destruct ac| |].
    { rewrite (Close_visit _ _ x) by done.
      rewrite unsetSource_open by done. cbv zeta.
      unfold removed, find_first, view. simpl.
      rewrite bool_decide_true by done. simpl.
      by rewrite andb_false_r. }
    eapply range_loop_step; [|reflexivity].
    rewrite (Close_visit _ _ y) by done.
    rewrite unsetSource_open by done. cbv zeta.
    unfold removed, find_first, view. simpl.
    rewrite bool_decide_true by done. simpl.
    rewrite andb_true_r. by destruct ac.
Qed.

End WithT.
End ActiveCloseFacts.

(* ===================================================================== *)
(** ** channeledLazyMerger: the [merge] task *)
(* ===================================================================== *)

Module MergeTaskFacts.
Import LazyMerger LazyMergerFacts Task MergeTask.
Import Multiplexer (Yield, GetPanics).
Section WithT.
Context {T : Type} (zero : T).
Implicit Types (w : world T) (s : Producer) (src : list (Multiplexer.pull T)).
Local Abbreviation lift := (Task.lift (T:=T)).
Local Abbreviation yields := (fmap (M:=list) (fun v : T => Yield v true None)).

Lemma merge_closed f s w src :
  chclosed (input (ego w)) = true ->
  merge (S f) s (MkTask w src) = Done tt (MkTask w src).
Proof.
  intros Hc. cbn [merge]. unfold bind, Task.lift, Closed, ChanneledInput_Closed.
  simpl. by rewrite Hc.
Qed.

(** What is buffered and the values [vals] fit the shared buffer. *)
Local Definition fits w (vals : list T) : Prop :=
  Z.of_nat (length (buf (input (ego w))) + length vals)
  <= chcap (input (ego w)).

Lemma fits_room w v (vals : list T) :
  fits w (v :: vals) -> has_room (input (ego w)) = true.
Proof.
  unfold fits, has_room. intros H. apply bool_decide_eq_true.
  simpl in H. lia.
Qed.

Lemma fits_sent w v (vals : list T) : fits w (v :: vals) -> fits (sent v w) vals.
Proof. unfold fits. simpl. rewrite length_app. simpl. lia. Qed.

Lemma merge_value f s w v src :
  chclosed (input (ego w)) = false -> has_room (input (ego w)) = true ->
  merge (S f) s (MkTask w (Yield v true None :: src))
  = recovering (lift (to_overflow v)) (merge f s) (MkTask (sent v w) src).
Proof.
  intros Hc Hroom. cbn [merge].
  unfold bind at 1. unfold Task.lift at 1. unfold Closed, ChanneledInput_Closed.
  cbn [merger source]. rewrite Hc. cbv beta iota.
  unfold bind at 1. unfold Task.Get_source. cbn [merger source]. cbv beta iota.
  unfold after_Get. simpl negb. cbv iota.
  rewrite bool_decide_false by (intros H; by apply H).
  unfold recovering, bind, Task.lift at 2, send, Go.send.
  cbn [negb merger source]. cbv beta iota. by rewrite Hc, Hroom.
Qed.

(** With the shared buffer full, [merge] waits in its send with the value
    it has pulled. *)
Lemma merge_full f s w v src :
  chclosed (input (ego w)) = false -> has_room (input (ego w)) = false ->
  merge (S f) s (MkTask w (Yield v true None :: src))
  = Blocks (MkTask w src).
Proof.
  intros Hc Hroom. cbn [merge].
  unfold bind at 1. unfold Task.lift at 1. unfold Closed, ChanneledInput_Closed.
  cbn [merger source]. rewrite Hc. cbv beta iota.
  unfold bind at 1. unfold Task.Get_source. cbn [merger source]. cbv beta iota.
  unfold after_Get. simpl negb. cbv iota.
  rewrite bool_decide_false by (intros H; by apply H).
  unfold recovering, bind, Task.lift at 2, send, Go.send.
  cbn [negb merger source]. cbv beta iota. by rewrite Hc, Hroom.
Qed.

Lemma merge_end f s w x e src :
  chclosed (input (ego w)) = false ->
  merge (S f) s (MkTask w (Yield x false e :: src))
  = lift (unsetSource f s) (MkTask w src).
Proof.
  intros Hc. cbn [merge].
  unfold bind at 1. unfold Task.lift at 1. unfold Closed, ChanneledInput_Closed.
  cbn [merger source]. rewrite Hc. reflexivity.
Qed.

Lemma merge_error f s w v e src :
  chclosed (input (ego w)) = false ->
  merge (S f) s (MkTask w (Yield v true (Some e) :: src))
  = Done tt (MkTask w src).
Proof.
  intros Hc. cbn [merge].
  unfold bind at 1. unfold Task.lift at 1. unfold Closed, ChanneledInput_Closed.
  cbn [merger source]. rewrite Hc. cbv beta iota.
  unfold bind at 1. unfold Task.Get_source. cbn [merger source]. cbv beta iota.
  unfold after_Get. simpl negb. cbv iota.
  by rewrite bool_decide_true.
Qed.

Lemma merge_panic f s w src :
  chclosed (input (ego w)) = false ->
  merge (S f) s (MkTask w (GetPanics :: src))
  = Panics ExplicitPanic (MkTask w src).
Proof.
  intros Hc. cbn [merge].
  unfold bind at 1. unfold Task.lift at 1. unfold Closed, ChanneledInput_Closed.
  cbn [merger source]. rewrite Hc. reflexivity.
Qed.

Lemma to_overflow_free v w :
  overflowBufferLock (ego w) = false ->
  to_overflow v w = Done tt (overflowed v w).
Proof.
  destruct w as [ts [c srcs ac ov sl ol]]. simpl. intros ->. reflexivity.
Qed.

Lemma after_Get_value (continue : M (task (world T)) unit) f s v :
  after_Get continue f s (v, true, None)
  = recovering (lift (to_overflow v)) (lift (send v) >> continue).
Proof.
  unfold after_Get. simpl negb. cbv iota.
  by rewrite bool_decide_false by (intros H; by apply H).
Qed.

Lemma send_closed_recovered (continue : M (task (world T)) unit) v w src :
  chclosed (input (ego w)) = true -> overflowBufferLock (ego w) = false ->
  recovering (lift (to_overflow v)) (lift (send v) >> continue) (MkTask w src)
  = Done tt (MkTask (overflowed v w) src).
Proof.
  intros Hc Hol. unfold recovering, bind, Task.lift, send, Go.send.
  cbn [merger source]. rewrite Hc.
  cbn [merger source]. by rewrite to_overflow_free.
Qed.

Lemma sent_well_formed v w :
  well_formed w -> chclosed (input (ego w)) = false -> well_formed (sent v w).
Proof. intros (? & ? & ? & ?) Hc. by repeat split. Qed.

(** The values before the end of the source go to the shared buffer in
    order; at the end of the source [merge] detaches it. *)
Lemma merge_relays s (vals : list T) : forall f w x e src,
  well_formed w -> chclosed (input (ego w)) = false -> fits w vals ->
  exists w',
    merge (length vals + 4 + f) s
      (MkTask w (yields vals ++ Yield x false e :: src))
    = Done tt (MkTask w' src) /\
    registry w' = remove_first s (registry w) /\
    chclosed (input (ego w'))
      = autoclose (ego w) && bool_decide (remove_first s (registry w) = []) /\
    buf (input (ego w')) = buf (input (ego w)) ++ vals /\
    overflowBuffer (ego w') = overflowBuffer (ego w) /\
    well_formed w' /\ tasks w' = tasks w.
Proof.
  induction vals as [|v vals IH]; intros f w x e src Hwf Hopen Hfit.
  - destruct (RegistryFacts.lazy_unsetSource_effect f s w Hwf Hopen)
      as (w' & E & Hreg & Hcl & Hwf' & Hbuf & Hov & Hts & _).
    exists w'. rewrite app_nil_r. split; [|done].
    change (length [] + 4 + f)%nat with (S (3 + f)). simpl fmap. simpl app.
    rewrite merge_end by done. unfold Task.lift. cbn [merger source]. by rewrite E.
  - destruct (IH f (sent v w) x e src) as
      (w' & E & Hreg & Hcl & Hbuf & Hov & Hwf' & Hts);
      [by apply sent_well_formed | done | by apply fits_sent |].
    exists w'. split; [|split; [done|split; [done|split; [|done]]]].
    + change (length (v :: vals) + 4 + f)%nat with (S (length vals + 4 + f)).
      rewrite fmap_cons, <- app_comm_cons, merge_value
        by (done || by eapply fits_room).
      unfold recovering. by rewrite E.
    + rewrite Hbuf. simpl. by rewrite <- app_assoc.
Qed.

(** X8: run on an open lazy merger whose shared buffer has room for
    them, [merge] forwards the values its source yields before
    end-of-stream to the shared buffer, in order and behind what is
    buffered already, then detaches the source: its first occurrence
    leaves the registry, and the merger is closed exactly when
    [autoclose] is set and the registry is then empty.  The overflow
    buffer is not touched and nothing after the end-of-stream is pulled. *)
Theorem merge_forwards_then_detaches s (vals : list T) f w x e src :
  well_formed w -> chclosed (input (ego w)) = false ->
  Z.of_nat (length (buf (input (ego w))) + length vals)
  <= chcap (input (ego w)) ->
  exists w',
    merge (length vals + 4 + f) s
      (MkTask w (yields vals ++ Yield x false e :: src))
    = Done tt (MkTask w' src) /\
    registry w' = remove_first s (registry w) /\
    chclosed (input (ego w'))
      = autoclose (ego w) && bool_decide (remove_first s (registry w) = []) /\
    buf (input (ego w')) = buf (input (ego w)) ++ vals /\
    overflowBuffer (ego w') = overflowBuffer (ego w).
Proof.
  intros Hwf Hopen Hfit.
  destruct (merge_relays s vals f w x e src Hwf Hopen Hfit)
    as (w' & ? & ? & ? & ? & ? & _).
  exists w'. by repeat (split; [done|]).
Qed.

(** Reading a closed merger to the end. *)
Lemma drain_closed w :
  well_formed w -> chclosed (input (ego w)) = true ->
  exists w',
    drain zero (length (buf (input (ego w)))
                + (length (overflowBuffer (ego w)) + 1)) w
    = Done (buf (input (ego w)) ++ overflowBuffer (ego w)) w' /\
    Consume zero w' = Done (zero, false, None) w'.
Proof.
  destruct w as [ts [[k b c] srcs ac ov sl ol]].
  intros (Hlock & Holock & _) Hc. simpl in *. subst c ol.
  eexists. split; [apply drain_buffer | apply Consume_exhausted].
Qed.

(** X9: one source attached to a new lazy merger with [autoclose], the
    source yielding no more values than the shared buffer holds: after
    [SetSource], the [merge] task forwards the values of the source and,
    at its end, detaches it, which closes the merger.  Reading the merger
    then delivers exactly those values in order, followed by
    end-of-stream. *)
Theorem merge_single_source capacity s (vals : list T) x e src f :
  Z.of_nat (length vals) <= capacity ->
  exists w1 w2 w3,
    SetSource s (NewChanneledLazyMerger capacity true) = Done None w1 /\
    tasks w1 = [s] /\ registry w1 = [s] /\
    merge (length vals + 4 + f) s
      (MkTask w1 (yields vals ++ Yield x false e :: src))
    = Done tt (MkTask w2 src) /\
    registry w2 = [] /\ chclosed (input (ego w2)) = true /\
    drain zero (length vals + 1) w2 = Done vals w3 /\
    Consume zero w3 = Done (zero, false, None) w3.
Proof.
  intros Hfit.
  set (w1 := MkWorld [s]
               (MkLazy (NewChanneledInput capacity) (MkSlice [s] 1) true []
                  false false)
             : world T).
  assert (Hwf1 : well_formed w1) by (unfold well_formed; simpl; auto with lia).
  destruct (merge_relays s vals f w1 x e src Hwf1 eq_refl)
    as (w2 & E & Hreg & Hcl & Hbuf & Hov & Hwf2 & _); [exact Hfit|].
  assert (Hrm : remove_first s (registry w1) = []).
  { unfold registry, view. simpl. by rewrite decide_True. }
  rewrite Hrm in Hreg, Hcl. simpl in Hcl, Hbuf, Hov.
  destruct (drain_closed w2 Hwf2 Hcl) as (w3 & Ed & Eend).
  rewrite Hbuf, Hov, app_nil_r in Ed. simpl in Ed.
  exists w1, w2, w3. by repeat (split; [done|]).
Qed.

(** X10: a [Close] that comes while [merge] holds a value it has pulled
    but not yet sent.  The send then hits the closed buffer, the deferred
    closure recovers the panic and appends the value to the overflow
    buffer, and [merge] returns; what was buffered is untouched.  Reading
    the merger delivers the buffered values, then the overflow entries
    with the rescued value last, then end-of-stream.  A [merge] that finds
    the merger closed at the head of its loop pulls nothing. *)
Theorem merge_rescues_value_on_close k f s w (v : T) src :
  well_formed w -> chclosed (input (ego w)) = false ->
  exists w' w'',
    merge_interleaved (Close (slen (sources (ego w)) + 4 + k)) f s
      (MkTask w (Yield v true None :: src))
    = Done tt (MkTask w' src) /\
    chclosed (input (ego w')) = true /\ registry w' = [] /\
    buf (input (ego w')) = buf (input (ego w)) /\
    overflowBuffer (ego w') = overflowBuffer (ego w) ++ [v] /\
    drain zero (length (buf (input (ego w)))
                + (length (overflowBuffer (ego w)) + 2)) w'
    = Done (buf (input (ego w)) ++ overflowBuffer (ego w) ++ [v]) w'' /\
    Consume zero w'' = Done (zero, false, None) w'' /\
    merge (S f) s (MkTask w' src) = Done tt (MkTask w' src).
Proof.
  intros Hwf Hopen.
  destruct (lazy_Close_ok k w Hwf) as (wc & Ec & Hz & Hcl & K).
  pose proof Hwf as (_ & Holock & _).
  destruct K as [Klock Kfit _ _ Kov Kol Kbuf _].
  set (w' := overflowed v wc).
  assert (Hwf' : well_formed w').
  { unfold well_formed, w'. simpl. rewrite Kol. repeat split; try done; lia. }
  assert (Hcl' : chclosed (input (ego w')) = true) by done.
  destruct (drain_closed w' Hwf' Hcl') as (w'' & Ed & Eend).
  exists w', w''. split; [|split; [done|split; [|split; [done|split;
    [by unfold w'; simpl; rewrite Kov|split; [|split; [done|]]]]]]].
  - unfold merge_interleaved.
    unfold bind at 1. unfold Task.lift at 1. unfold Closed, ChanneledInput_Closed.
    cbn [merger source]. rewrite Hopen. cbv beta iota.
    unfold bind at 1. unfold Task.Get_source. cbn [merger source]. cbv beta iota.
    unfold bind at 1. unfold Task.lift at 1. cbn [merger source]. rewrite Ec.
    cbn [merger source]. rewrite after_Get_value.
    apply send_closed_recovered; [done | by rewrite Kol].
  - unfold registry, view, w'. simpl. by rewrite Hz.
  - unfold w' in Ed. simpl in Ed. rewrite Kbuf, Kov in Ed.
    rewrite length_app in Ed. simpl in Ed.
    replace (length (overflowBuffer (ego w)) + 1 + 1)%nat
      with (length (overflowBuffer (ego w)) + 2)%nat in Ed by lia.
    exact Ed.
  - by apply merge_closed.
Qed.

(** X11: an error of the source ends [merge] without detaching the
    source.  The values before the error, for which the shared buffer
    has room, are forwarded; the value that came with the error is
    dropped; the source stays in the registry and the merger stays open,
    also with [autoclose]. *)
Theorem merge_error_leaves_source_attached s (vals : list T) :
  forall f w v e src,
  well_formed w -> chclosed (input (ego w)) = false ->
  Z.of_nat (length (buf (input (ego w))) + length vals)
  <= chcap (input (ego w)) ->
  exists w',
    merge (S (length vals) + f) s
      (MkTask w (yields vals ++ Yield v true (Some e) :: src))
    = Done tt (MkTask w' src) /\
    registry w' = registry w /\
    chclosed (input (ego w')) = false /\
    buf (input (ego w')) = buf (input (ego w)) ++ vals /\
    overflowBuffer (ego w') = overflowBuffer (ego w).
Proof.
  induction vals as [|u vals IH]; intros f w v e src Hwf Hopen Hfit.
  - exists w. rewrite app_nil_r. split; [|done].
    simpl fmap. simpl app. by apply merge_error.
  - destruct (IH f (sent u w) v e src) as (w' & E & Hreg & Hcl & Hbuf & Hov);
      [by apply sent_well_formed | done | by apply fits_sent |].
    exists w'. split; [|split; [done|split; [done|split; [|done]]]].
    + change (S (length (u :: vals)) + f)%nat with (S (S (length vals) + f)).
      rewrite fmap_cons, <- app_comm_cons, merge_value
        by (done || by eapply fits_room).
      unfold recovering. by rewrite E.
    + rewrite Hbuf. simpl. by rewrite <- app_assoc.
Qed.

(** X12: a panic of the source's [Get].  In the first iteration nothing
    is deferred yet and the panic leaves [merge].  After at least one
    value has been forwarded (the shared buffer having room for the
    values), the closure deferred with the last forwarded value recovers
    the panic and appends that value to the overflow buffer: [merge]
    returns normally, the source stays attached, and the last forwarded
    value is now both in the shared buffer and in the overflow buffer. *)
Theorem merge_recovers_panic_of_Get s (vals : list T) : forall f w v src,
  well_formed w -> chclosed (input (ego w)) = false ->
  Z.of_nat (length (buf (input (ego w))) + S (length vals))
  <= chcap (input (ego w)) ->
  merge (S f) s (MkTask w (GetPanics :: src))
  = Panics ExplicitPanic (MkTask w src) /\
  exists w',
    merge (S (S (length vals)) + f) s
      (MkTask w (yields (vals ++ [v]) ++ GetPanics :: src))
    = Done tt (MkTask w' src) /\
    registry w' = registry w /\
    chclosed (input (ego w')) = false /\
    buf (input (ego w')) = buf (input (ego w)) ++ vals ++ [v] /\
    overflowBuffer (ego w') = overflowBuffer (ego w) ++ [v].
Proof.
  induction vals as [|u vals IH]; intros f w v src Hwf Hopen Hfit.
  all: split; [by apply merge_panic|].
  - pose proof Hwf as (_ & Holock & _).
    exists (overflowed v (sent v w)). split; [|done].
    simpl fmap. simpl app.
    change (S (S (length [])) + f)%nat with (S (S f)).
    rewrite merge_value by (done || by apply (fits_room w v [])).
    unfold recovering.
    rewrite merge_panic by done.
    unfold Task.lift. cbn [merger source]. by rewrite to_overflow_free.
  - destruct (IH f (sent u w) v src) as (_ & w' & E & Hreg & Hcl & Hbuf & Hov);
      [by apply sent_well_formed | done | |].
    { apply (fits_sent w u (v :: vals)). unfold fits. simpl in *. lia. }
    exists w'. split; [|split; [done|split; [done|split; [|done]]]].
    + change (S (S (length (u :: vals))) + f)%nat
        with (S (S (S (length vals)) + f)).
      rewrite <- app_comm_cons, fmap_cons, <- app_comm_cons, merge_value
        by (done || (apply (fits_room w u (v :: vals));
                     unfold fits; simpl in *; lia)).
      unfold recovering. by rewrite E.
    + rewrite Hbuf. simpl. by rewrite <- app_assoc.
Qed.

(** X19: with the shared buffer full, [merge] pulls the next value and
    waits in its send, holding the value; nothing else changes.  Once a
    reader has taken the oldest buffered value, the woken send queues the
    held value behind what is left, and [merge] goes on: here to the end
    of its source, where it detaches the source.  Nothing is lost and
    the order is kept. *)
Theorem merge_waits_for_room f s w (v b0 : T) bs x e src :
  well_formed w -> chclosed (input (ego w)) = false ->
  buf (input (ego w)) = b0 :: bs ->
  Z.of_nat (length (b0 :: bs)) = chcap (input (ego w)) ->
  merge (S f) s (MkTask w (Yield v true None :: Yield x false e :: src))
  = Blocks (MkTask w (Yield x false e :: src)) /\
  exists w1 w2,
    Consume zero w = Done (b0, true, None) w1 /\
    buf (input (ego w1)) = bs /\
    woken (4 + f) s v (MkTask w1 (Yield x false e :: src))
    = Done tt (MkTask w2 src) /\
    buf (input (ego w2)) = bs ++ [v] /\
    registry w2 = remove_first s (registry w) /\
    overflowBuffer (ego w2) = overflowBuffer (ego w).
Proof.
  intros Hwf Hopen Hbuf Hfull. split.
  { apply merge_full; [done|]. unfold has_room.
    rewrite Hbuf. apply bool_decide_eq_false. lia. }
  destruct w as [ts [[k b c] srcs ac ov sl ol]].
  cbn [input ego buf chcap chclosed] in Hopen, Hbuf, Hfull. subst b c k.
  pose proof Hwf as (Hlock & Holock & Hfit & Hinv).
  cbn [ego sourcesLock overflowBufferLock] in Hlock, Holock. subst sl ol.
  set (cap := Z.of_nat (length (b0 :: bs))).
  set (w1 := MkWorld ts (MkLazy (MkChan cap bs false) srcs ac ov false false)).
  assert (Hwf1 : well_formed w1) by done.
  assert (Hroom : has_room (input (ego w1)) = true).
  { unfold has_room, w1, cap. simpl. apply bool_decide_eq_true. lia. }
  destruct (merge_relays s [] f (sent v w1) x e src) as
    (w2 & E & Hreg & _ & Hb2 & Hov & _).
  { by apply sent_well_formed. } { done. }
  { unfold fits, sent, w1, cap. simpl. rewrite length_app. simpl. lia. }
  exists w1, w2. split; [done|]. split; [done|]. split.
  { assert (Hopen1 : chclosed (input (ego w1)) = false) by done.
    unfold woken. rewrite after_Get_value.
    unfold recovering, bind, Task.lift, send, Go.send.
    cbn [merger source]. rewrite Hopen1, Hroom.
    fold (sent v w1).
    change (merge (4 + f) s (MkTask (sent v w1) (Yield x false e :: src))
            = Done tt (MkTask w2 src)) in E.
    by rewrite E. }
  split; [by rewrite Hb2, app_nil_r|]. by split.
Qed.

End WithT.
End MergeTaskFacts.

(* ===================================================================== *)
(** ** activeMerger: the task that forwards a producer without channel *)
(* ===================================================================== *)

Module ForwardTaskFacts.
Import ActiveMerger ActiveMergerFacts Polling ActivePolling Task ForwardTask.
Import Multiplexer (Yield, GetPanics).
Section WithT.
Context {T : Type} (zero : T).
Implicit Types (w : world T) (src : list (Multiplexer.pull T)).
Local Abbreviation lift := (Task.lift (T:=T)).
Local Abbreviation yields := (fmap (M:=list) (fun v : T => Yield v true None)).
Local Abbreviation delivered :=
  (fmap (M:=list) (fun v : T => (v, true, @None string))).

Lemma forward_end f chp w x e src :
  closed (ego w) = false ->
  forward (S f) chp (MkTask w (Yield x false e :: src))
  = Done tt (MkTask (set_chan chp (ChanneledInput_Close (Channel w chp)) w) src).
Proof.
  intros Hc. cbn [forward].
  unfold bind at 1. unfold Task.lift at 1. unfold Closed.
  cbn [merger source]. rewrite Hc. reflexivity.
Qed.

Lemma forward_error f chp w v e src :
  closed (ego w) = false ->
  forward (S f) chp (MkTask w (Yield v true (Some e) :: src))
  = Done tt (MkTask w src).
Proof.
  intros Hc. cbn [forward].
  unfold bind at 1. unfold Task.lift at 1. unfold Closed.
  cbn [merger source]. rewrite Hc. cbv beta iota.
  unfold bind at 1. unfold Task.Get_source. cbn [merger source]. cbv beta iota.
  rewrite bool_decide_true by done. reflexivity.
Qed.

(** On its own the task pulls a value and waits in the send, the value
    on offer in the wrapper. *)
Lemma forward_offers f chp w v src :
  closed (ego w) = false -> heap w !! chp = Some (MkChan 0 [] false) ->
  forward (S f) chp (MkTask w (Yield v true None :: src))
  = Blocks (MkTask (set_chan chp (MkChan 0 [v] false) w) src).
Proof.
  intros Hc Hh. cbn [forward].
  unfold bind at 1. unfold Task.lift at 1. unfold Closed.
  cbn [merger source]. rewrite Hc. cbv beta iota.
  unfold bind at 1. unfold Task.Get_source. cbn [merger source]. cbv beta iota.
  rewrite bool_decide_false by (intros H; by apply H).
  cbn [negb]. cbv beta iota.
  unfold bind at 1. unfold Task.lift, send_to, bind, offer.
  cbn [merger source]. rewrite Hh. cbn [chclosed].
  unfold handed_over. cbn [heap set_chan].
  rewrite list_lookup_insert_eq by (by eapply lookup_lt_Some).
  reflexivity.
Qed.

(** Once the value has been taken, the woken task is back at the head
    of its loop. *)
Lemma woken_taken f chp w cl src :
  heap w !! chp = Some (MkChan 0 [] cl) ->
  woken f chp (MkTask w src) = forward f chp (MkTask w src).
Proof.
  intros Hh. unfold woken, bind, Task.lift, handed_over.
  cbn [merger source]. by rewrite Hh.
Qed.

Lemma set_chan_twice chp (c1 c2 : chan T) w :
  set_chan chp c2 (set_chan chp c1 w) = set_chan chp c2 w.
Proof. unfold set_chan. simpl. by rewrite list_insert_insert_eq. Qed.

Lemma set_chan_lookup chp (c c' : chan T) w :
  heap w !! chp = Some c -> heap (set_chan chp c' w) !! chp = Some c'.
Proof.
  intros Hh. simpl. apply list_lookup_insert_eq. by eapply lookup_lt_Some.
Qed.

Lemma set_chan_same chp (c : chan T) w :
  heap w !! chp = Some c -> set_chan chp c w = w.
Proof.
  intros Hh. destruct w as [h ts e]. unfold set_chan. simpl in *.
  by rewrite list_insert_id.
Qed.

(** The reader takes the value on offer: the wrapper is empty again and
    the cursor is on it. *)
Lemma Consume_takes_offer f chp w v :
  well_formed w -> registry w = [chp] ->
  heap w !! chp = Some (MkChan 0 [] false) ->
  Consume zero (S f) (set_chan chp (MkChan 0 [v] false) w)
  = Done (v, true, None) (set_nextToReadFrom 0 w).
Proof.
  intros (Hlock & Hfit & _) Hreg Hh.
  rewrite (Consume_single_ready zero f _ chp v [] false 0); try done.
  - f_equal. destruct w as [h ts e]. unfold set_chan, set_nextToReadFrom.
    simpl in *. rewrite list_insert_insert_eq. by rewrite list_insert_id.
  - by apply (set_chan_lookup _ _ _ _ Hh).
Qed.

(** The state in which the reader has been handed [vals]. *)
Local Definition handed (vals : list T) w : world T :=
  match vals with
  | [] => w
  | _ :: _ => set_nextToReadFrom 0 w
  end.

Lemma handed_cons v (vals : list T) w :
  handed vals (set_nextToReadFrom 0 w) = handed (v :: vals) w.
Proof. by destruct vals. Qed.

(** The task beside a reader: every value the producer yields before
    the pull [stop], on which the task returns, is handed to the reader
    in order. *)
Lemma relay_hands_over f chp stop src (fin : world T -> world T)
    (vals : list T) : forall w job,
  (forall w', closed (ego w') = false ->
     forward (S f) chp (MkTask w' (stop :: src)) = Done tt (MkTask (fin w') src)) ->
  well_formed w -> closed (ego w) = false -> registry w = [chp] ->
  heap w !! chp = Some (MkChan 0 [] false) ->
  job (MkTask w (yields vals ++ stop :: src))
  = forward (S f) chp (MkTask w (yields vals ++ stop :: src)) ->
  relay zero (S (length vals)) (S f) chp job
    (MkTask w (yields vals ++ stop :: src))
  = Done (delivered vals) (MkTask (fin (handed vals w)) src).
Proof.
  induction vals as [|v vals IH]; intros w job Hend Hwf Hopen Hreg Hh Hjob.
  - cbn [length relay fmap list_fmap app] in *.
    unfold bind at 1. unfold until_waits. rewrite Hjob, Hend by done.
    reflexivity.
  - cbn [length]. change (relay zero (S (S (length vals))) (S f) chp job)
      with (let* returned := until_waits job in
            if returned then ret []
            else
              let* r := lift (Consume zero (S f)) in
              let* rest := relay zero (S (length vals)) (S f) chp
                             (woken (S f) chp) in
              ret (r :: rest)).
    rewrite fmap_cons, <- app_comm_cons in *.
    unfold bind at 1. unfold until_waits. rewrite Hjob.
    rewrite forward_offers by done. cbv beta iota.
    unfold bind at 1. unfold Task.lift at 1. cbn [merger source].
    rewrite Consume_takes_offer by done.
    assert (Hwf1 : well_formed (set_nextToReadFrom 0 w)).
    { unfold well_formed, max_int in *. simpl. intuition lia. }
    unfold bind at 1.
    rewrite (IH (set_nextToReadFrom 0 w) (woken (S f) chp)); try done.
    + by rewrite (handed_cons v).
    + by apply (woken_taken _ _ _ false).
Qed.

(** X13: a producer without channel attached to a new active merger.
    [SetSource] wraps it in a fresh channel of capacity 0, registers the
    wrapper and starts the forwarding task.  On its own the task pulls
    the first value and waits in the send.  Beside a reader that calls
    [Consume] whenever the task waits, every value of the producer is
    handed to the reader, in order, and at the end of the producer the
    task closes the wrapper and returns.  The next [Consume] detaches
    the wrapper and returns end-of-stream with the merger closed if
    [autoclose] is set, and the "no sources" error otherwise. *)
Theorem forward_single_source ac (h : list (chan T)) p (vals : list T)
    x e src f :
  exists w1 w2 w3,
    SetSource (Plain p) (NewActiveMerger ac h) = Done None w1 /\
    tasks w1 = [(p, length h)] /\ registry w1 = [length h] /\
    heap w1 !! length h = Some (MkChan 0 [] false) /\
    (forall v rest,
       forward (S f) (length h) (MkTask w1 (Yield v true None :: rest))
       = Blocks (MkTask (set_chan (length h) (MkChan 0 [v] false) w1) rest)) /\
    relay zero (S (length vals)) (S f) (length h) (forward (S f) (length h))
      (MkTask w1 (yields vals ++ Yield x false e :: src))
    = Done (delivered vals) (MkTask w2 src) /\
    heap w2 !! length h = Some (MkChan 0 [] true) /\
    Consume zero (3 + f) w2
    = Done (if ac then (zero, false, None) else (zero, true, errNoSources)) w3 /\
    registry w3 = [] /\ closed (ego w3) = ac.
Proof.
  set (chp := length h).
  set (w1 := MkWorld (h ++ [NewChanneledInput 0]) [(p, chp)]
               (MkActive false (MkSlice [chp] 1) ac false 0) : world T).
  assert (E1 : SetSource (Plain p) (NewActiveMerger ac h) = Done None w1).
  { by rewrite SetSource_plain. }
  assert (Hh1 : heap w1 !! chp = Some (MkChan 0 [] false)).
  { unfold w1, chp. simpl. by rewrite list_lookup_middle. }
  assert (Hwf1 : well_formed w1).
  { unfold well_formed, max_int, len. simpl. lia. }
  set (fin := fun w : world T =>
                set_chan chp (ChanneledInput_Close (Channel w chp)) w).
  set (w2 := fin (handed vals w1)).
  assert (Hh : heap (handed vals w1) !! chp = Some (MkChan 0 [] false)).
  { by destruct vals. }
  assert (Hh2 : heap w2 !! chp = Some (MkChan 0 [] true)).
  { unfold w2, fin, Channel. rewrite Hh.
    by apply (set_chan_lookup _ _ _ _ Hh). }
  assert (Hwf2 : well_formed w2).
  { unfold w2, fin. destruct vals; unfold well_formed, max_int, len; simpl; lia. }
  destruct (Consume_detaches_drained zero 0 f w2) as (w3 & E3 & Hreg3 & Hcl3);
    try done.
  { unfold w2. by destruct vals. }
  { unfold w2. by destruct vals. }
  { intros r Hr.
    assert (Hreg2 : registry w2 = [chp]) by (unfold w2; by destruct vals).
    rewrite Hreg2 in Hr. apply list_elem_of_singleton in Hr as ->.
    unfold drained, receive, Channel. by rewrite Hh2. }
  assert (Hac : autoclose (ego w2) = ac) by (unfold w2; by destruct vals).
  rewrite Hac in E3, Hcl3.
  exists w1, w2, w3. do 4 (split; [done|]).
  split; [intros v rest; by apply forward_offers|].
  split; [|done].
  apply (relay_hands_over f chp (Yield x false e) src fin vals w1); try done.
  intros w' Hopen. by apply forward_end.
Qed.

(** X14: an error of the producer ends the forwarding task without
    closing the wrapper.  Beside a reader that calls [Consume] whenever
    the task waits, the values before the error are handed to the
    reader, the value that came with the error is dropped, and the task
    returns with the wrapper open and empty.  When the wrapper is the
    only attached source, [Consume] from then on polls it for ever: the
    end of this source is never reported. *)
Theorem forward_error_leaves_wrapper_open chp (vals : list T) f w v e src :
  well_formed w -> closed (ego w) = false ->
  registry w = [chp] -> heap w !! chp = Some (MkChan 0 [] false) ->
  exists w2,
    relay zero (S (length vals)) (S f) chp (forward (S f) chp)
      (MkTask w (yields vals ++ Yield v true (Some e) :: src))
    = Done (delivered vals) (MkTask w2 src) /\
    heap w2 !! chp = Some (MkChan 0 [] false) /\
    registry w2 = [chp] /\ closed (ego w2) = false /\
    forall fuel, Consume zero fuel w2 = OutOfFuel.
Proof.
  intros Hwf Hopen Hreg Hh.
  exists (handed vals w).
  assert (Hh2 : heap (handed vals w) !! chp = Some (MkChan 0 [] false))
    by (by destruct vals).
  assert (Hreg2 : registry (handed vals w) = [chp]) by (by destruct vals).
  assert (Hwf2 : well_formed (handed vals w)).
  { destruct vals; [done|].
    unfold well_formed, max_int in *. simpl. intuition lia. }
  split.
  { apply (relay_hands_over f chp _ src (fun w => w) vals w); try done.
    intros w' Ho. by apply forward_error. }
  split; [done|]. split; [done|]. split; [by destruct vals|].
  intros fuel. apply Consume_polls_on; [done|by rewrite Hreg2|].
  intros r Hr. rewrite Hreg2 in Hr. apply list_elem_of_singleton in Hr as ->.
  unfold waiting, receive, Channel. by rewrite Hh2.
Qed.

End WithT.
End ForwardTaskFacts.

(* ===================================================================== *)
(** ** channeledLazyMerger: what [Close] leaves to the reader *)
(* ===================================================================== *)

Module LazyCloseFacts.
Import LazyMerger LazyMergerFacts MergeTaskFacts.
Section WithT.
Context {T : Type} (zero : T).
Implicit Types (w : world T).

(** X15: [Close] of the lazy merger, from any number of attached sources:
    it returns with the registry empty and the shared buffer closed, and
    it discards nothing.  Reading the merger afterwards delivers the
    values that were buffered, then the entries of the overflow buffer,
    then end-of-stream. *)
Theorem lazy_Close_keeps_buffered k w :
  well_formed w ->
  exists w' w'',
    Close (slen (sources (ego w)) + 4 + k) w = Done tt w' /\
    registry w' = [] /\ chclosed (input (ego w')) = true /\
    tasks w' = tasks w /\
    drain zero (length (buf (input (ego w)))
                + (length (overflowBuffer (ego w)) + 1)) w'
    = Done (buf (input (ego w)) ++ overflowBuffer (ego w)) w'' /\
    Consume zero w'' = Done (zero, false, None) w''.
Proof.
  intros Hwf.
  destruct (lazy_Close_ok k w Hwf) as (w' & E & Hz & Hc & K).
  assert (Hwf' : well_formed w').
  { destruct (lazy_Close_well_formed k w Hwf) as (w1 & E1 & Hwf1).
    rewrite E in E1. by injection E1 as <-. }
  destruct (drain_closed zero w' Hwf' Hc) as (w'' & Ed & Eend).
  rewrite (keeps_buf _ _ K), (keeps_overflow _ _ K) in Ed.
  exists w', w''. split; [done|]. split.
  { unfold registry, view. by rewrite Hz. }
  split; [done|]. split; [apply K|]. by split.
Qed.

End WithT.
End LazyCloseFacts.

(* ===================================================================== *)
(** ** Attach followed by detach *)
(* ===================================================================== *)

Module AttachFacts.
Import RegistryFacts.

Lemma remove_first_middle {A} `{EqDecision A} (x : A) (l t : list A) :
  x ∉ l -> remove_first x (l ++ x :: t) = l ++ t.
Proof.
  induction l as [|z l IH]; simpl.
  - intros _. by rewrite decide_True.
  - rewrite elem_of_cons. intros Hx.
    case_decide as Hz; [by destruct Hx; left|].
    f_equal. apply IH. intros Hin. apply Hx. by right.
Qed.

Lemma app_singleton_not_nil {A} (l : list A) (x : A) : l ++ [x] <> [].
Proof. by destruct l. Qed.

Section Active.
Import ActiveMerger ActiveMergerFacts.
Context {T : Type}.
Implicit Types (w : world T).

(** [SetSource] of a source with a channel on an open merger appends it
    to the registry. *)
Lemma active_attached r w :
  well_formed w -> closed (ego w) = false ->
  len (sources (ego w)) < max_int ->
  exists w1,
    SetSource (Channeled r) w = Done None w1 /\
    well_formed w1 /\ closed (ego w1) = false /\
    registry w1 = registry w ++ [r] /\
    autoclose (ego w1) = autoclose (ego w) /\
    len (sources (ego w1)) = len (sources (ego w)) + 1.
Proof.
  intros Hwf Hopen Hroom. pose proof Hwf as (Hlock & Hfit & Hmax & Hcur).
  exists (set_sources (append (sources (ego w)) [r]) w).
  split; [by apply SetSource_channeled|].
  pose proof (GoFacts.append_fits (sources (ego w)) [r] Hfit) as Hf.
  pose proof (GoFacts.slen_append (sources (ego w)) [r]) as Hs.
  simpl in Hs.
  split.
  { unfold well_formed, len in *. simpl. rewrite Hs. intuition lia. }
  split; [done|]. split.
  { unfold registry. simpl. by apply GoFacts.view_append. }
  split; [done|]. unfold len. simpl. rewrite Hs. lia.
Qed.

(** X16: attach and detach on an open active merger, for a source with a
    channel that is not attached yet.  [SetSource] followed by
    [unsetSource] leaves the registry as it was, and closes the merger
    when [autoclose] is set and nothing else is attached.  A source
    attached twice is registered twice, and one [unsetSource] takes out
    one of the two entries: the source is still attached and the merger
    stays open. *)
Theorem active_attach_detach f r w :
  well_formed w -> closed (ego w) = false ->
  len (sources (ego w)) + 2 <= max_int ->
  r ∉ registry w ->
  (exists w',
     (SetSource (Channeled r) >> unsetSource (2 + f) (Channeled r)) w
     = Done tt w' /\
     registry w' = registry w /\
     closed (ego w') = autoclose (ego w) && bool_decide (registry w = [])) /\
  (exists w',
     (SetSource (Channeled r) >> SetSource (Channeled r) >>
      unsetSource (2 + f) (Channeled r)) w
     = Done tt w' /\
     registry w' = registry w ++ [r] /\
     closed (ego w') = false).
Proof.
  intros Hwf Hopen Hroom Hnew.
  destruct (active_attached r w) as (w1 & E1 & Hwf1 & Ho1 & R1 & A1 & L1);
    [done|done|lia|].
  split.
  - destruct (active_unsetSource_effect f r w1 Hwf1 Ho1)
      as (w' & E & R & C & _).
    exists w'. split; [by unfold bind; rewrite E1|].
    rewrite R1, remove_first_app_absent in R, C by done.
    by rewrite A1 in C.
  - destruct (active_attached r w1) as (w2 & E2 & Hwf2 & Ho2 & R2 & A2 & L2);
      [done|done|lia|].
    destruct (active_unsetSource_effect f r w2 Hwf2 Ho2)
      as (w' & E & R & C & _).
    exists w'. split; [by unfold bind; rewrite E1, E2|].
    rewrite R2, R1, <- app_assoc in R, C. simpl in R, C.
    rewrite remove_first_middle in R, C by done.
    split; [done|]. rewrite C.
    rewrite bool_decide_false by apply app_singleton_not_nil.
    apply andb_false_r.
Qed.

End Active.

Section Lazy.
Import LazyMerger LazyMergerFacts.
Context {T : Type}.
Implicit Types (w : world T).

(** [SetSource] on an open merger appends the source to the registry and
    starts its [merge] task. *)
Lemma lazy_attached s w :
  well_formed w -> chclosed (input (ego w)) = false ->
  exists w1,
    SetSource s w = Done None w1 /\
    well_formed w1 /\ chclosed (input (ego w1)) = false /\
    registry w1 = registry w ++ [s] /\
    tasks w1 = tasks w ++ [s] /\
    autoclose (ego w1) = autoclose (ego w).
Proof.
  intros Hwf Hopen. pose proof Hwf as (Hlock & Holock & Hfit & Hinv).
  eexists. split; [by apply SetSource_open|].
  pose proof (GoFacts.append_fits (sources (ego w)) [s] Hfit) as Hf.
  split.
  { unfold well_formed. simpl. rewrite Hopen. intuition done. }
  split; [done|]. split; [|done].
  unfold registry. simpl. by apply GoFacts.view_append.
Qed.

(** X17: the same on an open lazy merger, for any source that is not
    attached yet.  [SetSource] followed by [unsetSource] leaves the
    registry as it was and closes the merger when [autoclose] is set and
    nothing else is attached.  A source attached twice is registered
    twice and has two [merge] tasks started for it; one [unsetSource]
    takes out one of the two entries, so the source is still attached and
    the merger stays open. *)
Theorem lazy_attach_detach f s w :
  well_formed w -> chclosed (input (ego w)) = false ->
  s ∉ registry w ->
  (exists w',
     (SetSource s >> unsetSource (3 + f) s) w = Done tt w' /\
     registry w' = registry w /\
     chclosed (input (ego w'))
       = autoclose (ego w) && bool_decide (registry w = [])) /\
  (exists w',
     (SetSource s >> SetSource s >> unsetSource (3 + f) s) w = Done tt w' /\
     registry w' = registry w ++ [s] /\
     tasks w' = tasks w ++ [s; s] /\
     chclosed (input (ego w')) = false).
Proof.
  intros Hwf Hopen Hnew.
  destruct (lazy_attached s w Hwf Hopen) as (w1 & E1 & Hwf1 & Ho1 & R1 & T1 & A1).
  split.
  - destruct (lazy_unsetSource_effect f s w1 Hwf1 Ho1)
      as (w' & E & R & C & _).
    exists w'. split; [by unfold bind; rewrite E1|].
    rewrite R1, remove_first_app_absent in R, C by done.
    by rewrite A1 in C.
  - destruct (lazy_attached s w1 Hwf1 Ho1)
      as (w2 & E2 & Hwf2 & Ho2 & R2 & T2 & A2).
    destruct (lazy_unsetSource_effect f s w2 Hwf2 Ho2)
      as (w' & E & R & C & _ & _ & _ & Tk & _).
    exists w'. split; [by unfold bind; rewrite E1, E2|].
    rewrite R2, R1, <- app_assoc in R, C. simpl in R, C.
    rewrite remove_first_middle in R, C by done.
    split; [done|]. split.
    { by rewrite Tk, T2, T1, <- app_assoc. }
    rewrite C. rewrite bool_decide_false by apply app_singleton_not_nil.
    apply andb_false_r.
Qed.

End Lazy.
End AttachFacts.

(* ===================================================================== *)
(** ** multiplexer: the outputs of a new multiplexer *)
(* ===================================================================== *)

Module NewMultiplexerFacts.
Import Multiplexer.
Section WithT.
Context {T : Type}.


End WithT.
End NewMultiplexerFacts.

(* ===================================================================== *)
(** ** The facts above on sample mergers *)
(* ===================================================================== *)

Module SampleRuns.
Module A := ActiveMerger.
Module L := LazyMerger.
Module X := Multiplexer.
Import Task Samples Instances.

Lemma active_idle_well_formed : A.well_formed active_idle.
Proof. unfold A.well_formed, max_int, len. simpl. lia. Qed.

Lemma active_late_well_formed : A.well_formed active_late.
Proof. unfold A.well_formed, max_int, len. simpl. lia. Qed.

Lemma active_drained_well_formed ac : A.well_formed (active_drained ac).
Proof. unfold A.well_formed, max_int, len. simpl. lia. Qed.

Lemma active_wrapper_well_formed : A.well_formed active_wrapper.
Proof. unfold A.well_formed, max_int, len. simpl. lia. Qed.

Lemma active_idle_waiting r :
  r ∈ A.registry active_idle -> Polling.waiting active_idle r.
Proof.
  intros Hr. apply elem_of_cons in Hr as [->|Hr]; [reflexivity|].
  apply elem_of_cons in Hr as [->|Hr]; [reflexivity|].
  by apply elem_of_nil in Hr.
Qed.

Lemma active_drained_drained ac r :
  r ∈ A.registry (active_drained ac) -> Polling.drained (active_drained ac) r.
Proof.
  intros Hr. apply elem_of_cons in Hr as [->|Hr]; [reflexivity|].
  apply elem_of_cons in Hr as [->|Hr]; [reflexivity|].
  by apply elem_of_nil in Hr.
Qed.

Lemma active_late_rotation (i : nat) :
  (i < 2)%nat ->
  exists q, Polling.after_cursor active_late (1 + Z.of_nat i) = Some q /\
            Polling.waiting active_late q.
Proof.
  intros Hi. destruct i as [|[|i]]; [by exists 0%nat|by exists 1%nat|lia].
Qed.

Lemma Consume_busy_waits_witness :
  A.well_formed active_idle /\
  A.registry active_idle <> [] /\
  (forall r, r ∈ A.registry active_idle -> Polling.waiting active_idle r) /\
  A.Consume 0%nat 1000 active_idle = OutOfFuel.
Proof.
  split; [apply active_idle_well_formed|].
  assert (Hne : A.registry active_idle <> []) by discriminate.
  split; [exact Hne|]. split; [apply active_idle_waiting|].
  exact (ActivePolling.Consume_busy_waits 0%nat 1000 active_idle
           active_idle_well_formed Hne active_idle_waiting).
Defined.

Lemma Consume_first_ready_witness :
  A.well_formed active_late /\
  A.registry active_late <> [] /\
  (forall i : nat, (i < 2)%nat ->
     exists q, Polling.after_cursor active_late (1 + Z.of_nat i) = Some q /\
               Polling.waiting active_late q) /\
  Polling.after_cursor active_late (1 + Z.of_nat 2) = Some 2%nat /\
  A.heap active_late !! 2%nat = Some (MkChan 2 [7; 8]%nat false) /\
  A.Consume 0%nat 3 active_late
  = Done (7%nat, true, None)
      (A.MkWorld [MkChan 2 [] false; MkChan 2 [] false; MkChan 2 [8%nat] false] []
         (A.MkActive false (MkSlice [0; 1; 2]%nat 3) false false 2)).
Proof.
  split; [apply active_late_well_formed|].
  assert (Hne : A.registry active_late <> []) by discriminate.
  split; [exact Hne|]. split; [apply active_late_rotation|].
  do 2 (split; [reflexivity|]).
  exact (ActivePolling.Consume_first_ready 0%nat 2 0 active_late 2%nat
           7%nat [8%nat] false 2 active_late_well_formed Hne
           active_late_rotation eq_refl eq_refl).
Defined.

Lemma active_unsetSource_registry_witness :
  A.well_formed active_three /\
  A.closed (A.ego active_three) = false /\
  exists w',
    A.unsetSource 2 (Channeled 1) active_three = Done tt w' /\
    A.registry w' = [0; 2]%nat /\
    A.closed (A.ego w') = false /\
    A.well_formed w' /\
    A.heap w' = A.heap active_three /\ A.tasks w' = A.tasks active_three /\
    A.nextToReadFrom (A.ego w') = 1.
Proof.
  split; [apply active_three_well_formed|]. split; [reflexivity|].
  exact (RegistryFacts.active_unsetSource_registry 0 1%nat active_three
           active_three_well_formed eq_refl).
Defined.

Lemma lazy_unsetSource_registry_witness :
  L.well_formed lazy_two /\
  chclosed (L.input (L.ego lazy_two)) = false /\
  exists w',
    L.unsetSource 3 (Plain 0) lazy_two = Done tt w' /\
    L.registry w' = [Channeled 1] /\
    chclosed (L.input (L.ego w')) = false /\
    L.well_formed w' /\
    buf (L.input (L.ego w')) = [3%nat] /\
    L.overflowBuffer (L.ego w') = [] /\
    L.tasks w' = [Plain 0; Channeled 1].
Proof.
  split; [apply lazy_two_well_formed|]. split; [reflexivity|].
  exact (RegistryFacts.lazy_unsetSource_registry 0 (Plain 0) lazy_two
           lazy_two_well_formed eq_refl).
Defined.

Lemma Consume_all_drained_witness :
  (A.well_formed (active_drained true) /\
   A.closed (A.ego (active_drained true)) = false /\
   length (A.registry (active_drained true)) = 2%nat /\
   (forall r, r ∈ A.registry (active_drained true) ->
              Polling.drained (active_drained true) r) /\
   exists w',
     A.Consume 0%nat 4 (active_drained true) = Done (0%nat, false, None) w' /\
     A.registry w' = [] /\ A.closed (A.ego w') = true) /\
  (A.well_formed (active_drained false) /\
   exists w',
     A.Consume 0%nat 4 (active_drained false)
     = Done (0%nat, true, errNoSources) w' /\
     A.registry w' = [] /\ A.closed (A.ego w') = false).
Proof.
  split.
  - split; [apply active_drained_well_formed|]. do 2 (split; [reflexivity|]).
    split; [apply active_drained_drained|].
    exact (ActivePolling.Consume_all_drained 0%nat 1 0 (active_drained true)
             (active_drained_well_formed true) eq_refl eq_refl
             (active_drained_drained true)).
  - split; [apply active_drained_well_formed|].
    exact (ActivePolling.Consume_all_drained 0%nat 1 0 (active_drained false)
             (active_drained_well_formed false) eq_refl eq_refl
             (active_drained_drained false)).
Defined.

Lemma Close_keeps_second_witness :
  A.well_formed active_three /\
  A.closed (A.ego active_three) = false /\
  A.registry active_three = [0; 1; 2]%nat /\
  (1%nat ∉ [2%nat]) /\
  exists w',
    A.Close 3 active_three = Done tt w' /\
    A.closed (A.ego w') = true /\
    exists rest', A.registry w' = 1%nat :: rest'.
Proof.
  assert (Hnot : 1%nat ∉ [2%nat]).
  { intros H. apply elem_of_cons in H as [H|H]; [discriminate|].
    by apply elem_of_nil in H. }
  split; [apply active_three_well_formed|]. do 2 (split; [reflexivity|]).
  split; [exact Hnot|].
  exact (ActiveCloseFacts.Close_keeps_second 0 active_three 0%nat 1%nat 2%nat
           [] active_three_well_formed eq_refl eq_refl Hnot).
Defined.

Lemma Close_detaches_up_to_two_witness :
  A.well_formed active_idle /\
  A.closed (A.ego active_idle) = false /\
  (length (A.registry active_idle) <= 2)%nat /\
  exists w',
    A.Close 3 active_idle = Done tt w' /\
    A.closed (A.ego w') = true /\
    A.registry w' = [].
Proof.
  assert (Hlen : (length (A.registry active_idle) <= 2)%nat) by (simpl; lia).
  split; [apply active_idle_well_formed|]. split; [reflexivity|].
  split; [exact Hlen|].
  exact (ActiveCloseFacts.Close_detaches_up_to_two 0 active_idle
           active_idle_well_formed eq_refl Hlen).
Defined.

Lemma merge_forwards_then_detaches_witness :
  L.well_formed lazy_two /\
  chclosed (L.input (L.ego lazy_two)) = false /\
  Z.of_nat (length (buf (L.input (L.ego lazy_two))) + length [5; 6]%nat)
  <= chcap (L.input (L.ego lazy_two)) /\
  exists w',
    MergeTask.merge 6 (Plain 0)
      (MkTask lazy_two
         [X.Yield 5%nat true None; X.Yield 6%nat true None;
          X.Yield 0%nat false None])
    = Done tt (MkTask w' []) /\
    L.registry w' = [Channeled 1] /\
    chclosed (L.input (L.ego w')) = false /\
    buf (L.input (L.ego w')) = [3; 5; 6]%nat /\
    L.overflowBuffer (L.ego w') = [].
Proof.
  assert (Hfit : Z.of_nat (length (buf (L.input (L.ego lazy_two)))
                            + length [5; 6]%nat)
                 <= chcap (L.input (L.ego lazy_two))) by (simpl; lia).
  split; [apply lazy_two_well_formed|]. split; [reflexivity|].
  split; [exact Hfit|].
  exact (MergeTaskFacts.merge_forwards_then_detaches (Plain 0) [5; 6]%nat 0
           lazy_two 0%nat None [] lazy_two_well_formed eq_refl Hfit).
Defined.

Lemma merge_single_source_witness :
  Z.of_nat (length [5; 6]%nat) <= 2 /\
  exists w1 w2 w3,
    L.SetSource (Plain 0) (L.NewChanneledLazyMerger 2 true) = Done None w1 /\
    L.tasks w1 = [Plain 0] /\ L.registry w1 = [Plain 0] /\
    MergeTask.merge 6 (Plain 0)
      (MkTask w1
         [X.Yield 5%nat true None; X.Yield 6%nat true None;
          X.Yield 0%nat false None])
    = Done tt (MkTask w2 []) /\
    L.registry w2 = [] /\ chclosed (L.input (L.ego w2)) = true /\
    L.drain 0%nat 3 w2 = Done [5; 6]%nat w3 /\
    L.Consume 0%nat w3 = Done (0%nat, false, None) w3.
Proof.
  assert (Hfit : Z.of_nat (length [5; 6]%nat) <= 2) by (simpl; lia).
  split; [exact Hfit|].
  exact (MergeTaskFacts.merge_single_source 0%nat 2 (Plain 0) [5; 6]%nat
           0%nat None [] 0 Hfit).
Defined.

Lemma merge_waits_for_room_witness :
  L.well_formed lazy_full /\
  chclosed (L.input (L.ego lazy_full)) = false /\
  buf (L.input (L.ego lazy_full)) = [3; 4]%nat /\
  Z.of_nat (length [3; 4]%nat) = chcap (L.input (L.ego lazy_full)) /\
  MergeTask.merge 1 (Plain 0)
    (MkTask lazy_full [X.Yield 5%nat true None; X.Yield 0%nat false None])
  = Blocks (MkTask lazy_full [X.Yield 0%nat false None]) /\
  exists w1 w2,
    L.Consume 0%nat lazy_full = Done (3%nat, true, None) w1 /\
    buf (L.input (L.ego w1)) = [4%nat] /\
    MergeTask.woken 4 (Plain 0) 5%nat (MkTask w1 [X.Yield 0%nat false None])
    = Done tt (MkTask w2 []) /\
    buf (L.input (L.ego w2)) = [4; 5]%nat /\
    L.registry w2 = [] /\
    L.overflowBuffer (L.ego w2) = [].
Proof.
  assert (Hwf : L.well_formed lazy_full).
  { unfold L.well_formed. simpl. repeat split; (lia || done). }
  assert (Hfull : Z.of_nat (length [3; 4]%nat)
                  = chcap (L.input (L.ego lazy_full))) by reflexivity.
  split; [exact Hwf|]. do 2 (split; [reflexivity|]). split; [exact Hfull|].
  exact (MergeTaskFacts.merge_waits_for_room 0%nat 0 (Plain 0) lazy_full
           5%nat 3%nat [4%nat] 0%nat None [] Hwf eq_refl eq_refl Hfull).
Defined.

Lemma merge_rescues_value_on_close_witness :
  L.well_formed lazy_two /\
  chclosed (L.input (L.ego lazy_two)) = false /\
  exists w' w'',
    MergeTask.merge_interleaved (L.Close 6) 0 (Plain 0)
      (MkTask lazy_two [X.Yield 9%nat true None])
    = Done tt (MkTask w' []) /\
    chclosed (L.input (L.ego w')) = true /\ L.registry w' = [] /\
    buf (L.input (L.ego w')) = [3%nat] /\
    L.overflowBuffer (L.ego w') = [9%nat] /\
    L.drain 0%nat 3 w' = Done [3; 9]%nat w'' /\
    L.Consume 0%nat w'' = Done (0%nat, false, None) w'' /\
    MergeTask.merge 1 (Plain 0) (MkTask w' []) = Done tt (MkTask w' []).
Proof.
  split; [apply lazy_two_well_formed|]. split; [reflexivity|].
  exact (MergeTaskFacts.merge_rescues_value_on_close 0%nat 0 0 (Plain 0)
           lazy_two 9%nat [] lazy_two_well_formed eq_refl).
Defined.

Lemma merge_error_leaves_source_attached_witness :
  L.well_formed (lazy_one true) /\
  chclosed (L.input (L.ego (lazy_one true))) = false /\
  Z.of_nat (length (buf (L.input (L.ego (lazy_one true))))
            + length [5; 6]%nat)
  <= chcap (L.input (L.ego (lazy_one true))) /\
  exists w',
    MergeTask.merge 3 (Plain 0)
      (MkTask (lazy_one true)
         [X.Yield 5%nat true None; X.Yield 6%nat true None;
          X.Yield 7%nat true (Some "broken"%string)])
    = Done tt (MkTask w' []) /\
    L.registry w' = [Plain 0] /\
    chclosed (L.input (L.ego w')) = false /\
    buf (L.input (L.ego w')) = [5; 6]%nat /\
    L.overflowBuffer (L.ego w') = [].
Proof.
  assert (Hfit : Z.of_nat (length (buf (L.input (L.ego (lazy_one true))))
                            + length [5; 6]%nat)
                 <= chcap (L.input (L.ego (lazy_one true)))) by (simpl; lia).
  split; [apply lazy_one_well_formed|]. split; [reflexivity|].
  split; [exact Hfit|].
  exact (MergeTaskFacts.merge_error_leaves_source_attached (Plain 0)
           [5; 6]%nat 0 (lazy_one true) 7%nat "broken"%string []
           (lazy_one_well_formed true) eq_refl Hfit).
Defined.

Lemma merge_recovers_panic_of_Get_witness :
  L.well_formed (lazy_one true) /\
  chclosed (L.input (L.ego (lazy_one true))) = false /\
  Z.of_nat (length (buf (L.input (L.ego (lazy_one true))))
            + S (length [5%nat]))
  <= chcap (L.input (L.ego (lazy_one true))) /\
  MergeTask.merge 1 (Plain 0) (MkTask (lazy_one true) [X.GetPanics])
  = Panics ExplicitPanic (MkTask (lazy_one true) []) /\
  exists w',
    MergeTask.merge 3 (Plain 0)
      (MkTask (lazy_one true)
         [X.Yield 5%nat true None; X.Yield 6%nat true None; X.GetPanics])
    = Done tt (MkTask w' []) /\
    L.registry w' = [Plain 0] /\
    chclosed (L.input (L.ego w')) = false /\
    buf (L.input (L.ego w')) = [5; 6]%nat /\
    L.overflowBuffer (L.ego w') = [6%nat].
Proof.
  assert (Hfit : Z.of_nat (length (buf (L.input (L.ego (lazy_one true))))
                            + S (length [5%nat]))
                 <= chcap (L.input (L.ego (lazy_one true)))) by (simpl; lia).
  split; [apply lazy_one_well_formed|]. split; [reflexivity|].
  split; [exact Hfit|].
  exact (MergeTaskFacts.merge_recovers_panic_of_Get (Plain 0) [5%nat] 0
           (lazy_one true) 6%nat [] (lazy_one_well_formed true) eq_refl Hfit).
Defined.

Lemma forward_error_leaves_wrapper_open_witness :
  A.well_formed active_wrapper /\
  A.closed (A.ego active_wrapper) = false /\
  A.registry active_wrapper = [0%nat] /\
  A.heap active_wrapper !! 0%nat = Some (MkChan 0 [] false) /\
  exists w2,
    ForwardTask.relay 0%nat 3 1 0 (ForwardTask.forward 1 0)
      (MkTask active_wrapper
         [X.Yield 5%nat true None; X.Yield 6%nat true None;
          X.Yield 7%nat true (Some "broken"%string)])
    = Done [(5%nat, true, None); (6%nat, true, None)] (MkTask w2 []) /\
    A.heap w2 !! 0%nat = Some (MkChan 0 [] false) /\
    A.registry w2 = [0%nat] /\ A.closed (A.ego w2) = false /\
    forall fuel, A.Consume 0%nat fuel w2 = OutOfFuel.
Proof.
  split; [apply active_wrapper_well_formed|]. do 3 (split; [reflexivity|]).
  exact (ForwardTaskFacts.forward_error_leaves_wrapper_open 0%nat 0%nat
           [5; 6]%nat 0 active_wrapper 7%nat "broken"%string []
           active_wrapper_well_formed eq_refl eq_refl eq_refl).
Defined.

Lemma lazy_Close_keeps_buffered_witness :
  L.well_formed lazy_two /\
  exists w' w'',
    L.Close 6 lazy_two = Done tt w' /\
    L.registry w' = [] /\ chclosed (L.input (L.ego w')) = true /\
    L.tasks w' = [Plain 0; Channeled 1] /\
    L.drain 0%nat 2 w' = Done [3%nat] w'' /\
    L.Consume 0%nat w'' = Done (0%nat, false, None) w''.
Proof.
  split; [apply lazy_two_well_formed|].
  exact (LazyCloseFacts.lazy_Close_keeps_buffered 0%nat 0 lazy_two
           lazy_two_well_formed).
Defined.

Lemma active_attach_detach_witness :
  A.well_formed active_fresh /\
  A.closed (A.ego active_fresh) = false /\
  len (A.sources (A.ego active_fresh)) + 2 <= max_int /\
  (0%nat ∉ A.registry active_fresh) /\
  (exists w',
     (A.SetSource (Channeled 0) >> A.unsetSource 2 (Channeled 0)) active_fresh
     = Done tt w' /\
     A.registry w' = [] /\ A.closed (A.ego w') = true) /\
  (exists w',
     (A.SetSource (Channeled 0) >> A.SetSource (Channeled 0) >>
      A.unsetSource 2 (Channeled 0)) active_fresh
     = Done tt w' /\
     A.registry w' = [0%nat] /\ A.closed (A.ego w') = false).
Proof.
  assert (Hwf : A.well_formed active_fresh)
    by apply ActiveMergerFacts.NewActiveMerger_well_formed.
  assert (Hroom : len (A.sources (A.ego active_fresh)) + 2 <= max_int)
    by (unfold len, max_int; simpl; lia).
  assert (Hnew : 0%nat ∉ A.registry active_fresh) by apply not_elem_of_nil.
  split; [exact Hwf|]. split; [reflexivity|]. split; [exact Hroom|].
  split; [exact Hnew|].
  exact (AttachFacts.active_attach_detach 0 0%nat active_fresh Hwf eq_refl
           Hroom Hnew).
Defined.

Lemma lazy_attach_detach_witness :
  L.well_formed lazy_fresh /\
  chclosed (L.input (L.ego lazy_fresh)) = false /\
  (Plain 0 ∉ L.registry lazy_fresh) /\
  (exists w',
     (L.SetSource (Plain 0) >> L.unsetSource 3 (Plain 0)) lazy_fresh
     = Done tt w' /\
     L.registry w' = [] /\ chclosed (L.input (L.ego w')) = true) /\
  (exists w',
     (L.SetSource (Plain 0) >> L.SetSource (Plain 0) >>
      L.unsetSource 3 (Plain 0)) lazy_fresh
     = Done tt w' /\
     L.registry w' = [Plain 0] /\
     L.tasks w' = [Plain 0; Plain 0] /\
     chclosed (L.input (L.ego w')) = false).
Proof.
  assert (Hwf : L.well_formed lazy_fresh)
    by apply LazyMergerFacts.NewChanneledLazyMerger_well_formed.
  assert (Hnew : Plain 0 ∉ L.registry lazy_fresh) by apply not_elem_of_nil.
  split; [exact Hwf|]. split; [reflexivity|]. split; [exact Hnew|].
  exact (AttachFacts.lazy_attach_detach 0 (Plain 0) lazy_fresh Hwf eq_refl
           Hnew).
Defined.


End SampleRuns.
